(** * Blendin documentation-site plugins: translation workflow

    A shallow embedding of the Docusaurus plugin's translation workflow:
    locale selection, per-locale file copying, content fingerprints, the
    authenticated API client with its timeout, the progress poller and the
    orchestrator [executeTranslation].

    Conventions of the embedding.
    - A JavaScript string is a sequence of UTF-16 code units; this
      development represents the code units below 256, one per [ascii].
    - Paths follow Node's [path.posix] (the plugin runs on a POSIX host).
    - The file system is a finite map from absolute, normalised paths to file
      contents plus a finite set of directories; [process.cwd()] is part of
      the world.  Permissions and symbolic links are not represented.
    - A number is an integer.  JavaScript holds and prints an integer
      exactly while its magnitude is below 2^53 (a safe integer, as the
      counts, ids and indices of this workflow are); [Js.safe] says that a
      value holds such numbers only, and what is said of the text of a
      number is said under it.
    - [generateStringHash] (package [@blendin/sdk-js]) and [DEFAULT_FLAGS]
      (package [@blendin/types]) are not part of this repository: they are
      parameters of the code that calls them.  Where a statement is about
      the fingerprint itself, it is made of [Sdk.generateStringHash], which
      is modelled from the specification. *)

From Stdlib Require Import ZArith Ascii String List Bool Lia DecimalString.
From stdpp Require Import gmap strings list fin_maps.

Set Warnings "-register-all".
Local Open Scope Z_scope.

(* ===================================================================== *)
(** * JavaScript strings                                                   *)
(* ===================================================================== *)

Module JsString.

Definition chars (s : string) : list ascii := list_ascii_of_string s.
Definition of_chars (l : list ascii) : string := string_of_list_ascii l.

(** [WhiteSpace] and [LineTerminator] code units of ECMAScript below 256:
    TAB, LF, VT, FF, CR, SP and NBSP. *)
Definition is_white (c : ascii) : bool :=
  match N_of_ascii c with
  | 9%N | 10%N | 11%N | 12%N | 13%N | 32%N | 160%N => true
  | _ => false
  end.

Fixpoint drop_white (l : list ascii) : list ascii :=
  match l with
  | [] => []
  | c :: r => if is_white c then drop_white r else l
  end.

Definition trim_chars (l : list ascii) : list ascii :=
  rev (drop_white (rev (drop_white l))).

(** [String.prototype.trim]. *)
Definition trim (s : string) : string := of_chars (trim_chars (chars s)).

(** [String.prototype.toLowerCase] on the represented code units:
    A-Z, and the Latin-1 capitals U+00C0-U+00DE other than U+00D7. *)
Definition lower_char (c : ascii) : ascii :=
  let n := N_of_ascii c in
  if ((65 <=? n) && (n <=? 90))%N then ascii_of_N (n + 32)
  else if ((192 <=? n) && (n <=? 222) && negb (n =? 215))%N
       then ascii_of_N (n + 32)
  else c.

Definition toLowerCase (s : string) : string :=
  of_chars (map lower_char (chars s)).

(** [s.split(sep)] for a one-character separator. *)
Fixpoint split_chars (sep : ascii) (cur : list ascii) (l : list ascii)
  : list (list ascii) :=
  match l with
  | [] => [rev cur]
  | c :: r =>
      if Ascii.eqb c sep then rev cur :: split_chars sep [] r
      else split_chars sep (c :: cur) r
  end.

Definition split (sep : ascii) (s : string) : list string :=
  map of_chars (split_chars sep [] (chars s)).

(** [parts.join(sep)]. *)
Fixpoint join (sep : string) (parts : list string) : string :=
  match parts with
  | [] => ""
  | [p] => p
  | p :: rest => p +:+ sep +:+ join sep rest
  end.

Definition starts_with_slash (s : string) : bool :=
  match s with
  | String c _ => Ascii.eqb c "/"
  | EmptyString => false
  end.

Definition ends_with_slash (s : string) : bool :=
  match rev (chars s) with
  | c :: _ => Ascii.eqb c "/"
  | [] => false
  end.

Definition is_empty (s : string) : bool :=
  match s with EmptyString => true | _ => false end.

End JsString.

(* ===================================================================== *)
(** * Node's [path.posix]                                                  *)
(* ===================================================================== *)

Module Path.
Import JsString.

(** [normalizeString]: drops empty and [.] segments and resolves [..]
    against the segment before it; [acc] is the result so far, last
    segment first. *)
Fixpoint normalize_segments (allowAboveRoot : bool)
         (segs : list string) (acc : list string) : list string :=
  match segs with
  | [] => rev acc
  | s :: rest =>
      if bool_decide (s = "") || bool_decide (s = ".")
      then normalize_segments allowAboveRoot rest acc
      else if bool_decide (s = "..") then
        match acc with
        | top :: acc' =>
            if bool_decide (top = "..")
            then normalize_segments allowAboveRoot rest
                   (if allowAboveRoot then ".." :: acc else acc)
            else normalize_segments allowAboveRoot rest acc'
        | [] =>
            normalize_segments allowAboveRoot rest
              (if allowAboveRoot then [".."] else [])
        end
      else normalize_segments allowAboveRoot rest (s :: acc)
  end.

Definition normalizeString (p : string) (allowAboveRoot : bool) : string :=
  join "/" (normalize_segments allowAboveRoot (split "/" p) []).

(** [path.normalize]. *)
Definition normalize (p : string) : string :=
  if is_empty p then "."
  else
    let isAbsolute := starts_with_slash p in
    let trailingSeparator := ends_with_slash p in
    let q := normalizeString p (negb isAbsolute) in
    if is_empty q then
      if isAbsolute then "/" else if trailingSeparator then "./" else "."
    else
      let q' := if trailingSeparator then q +:+ "/" else q in
      if isAbsolute then "/" +:+ q' else q'.

(** [path.join(...args)]. *)
Definition join (args : list string) : string :=
  match filter (fun a => a ≠ "") args with
  | [] => "."
  | parts => normalize (JsString.join "/" parts)
  end.

(** [path.basename(p)]: the last non-empty segment, or the empty string. *)
Definition basename (p : string) : string :=
  match filter (fun s => s ≠ "") (rev (split "/" p)) with
  | [] => ""
  | s :: _ => s
  end.

(** The right-to-left scan of [path.resolve]: arguments are prepended
    until one of them is absolute. *)
Fixpoint resolve_scan (rargs : list string) (resolvedPath : string)
  : string * bool :=
  match rargs with
  | [] => (resolvedPath, false)
  | a :: rest =>
      if is_empty a then resolve_scan rest resolvedPath
      else
        let resolvedPath' := a +:+ "/" +:+ resolvedPath in
        if starts_with_slash a then (resolvedPath', true)
        else resolve_scan rest resolvedPath'
  end.

(** [path.resolve(...args)] in working directory [cwd]. *)
Definition resolve (cwd : string) (args : list string) : string :=
  let '(resolvedPath, resolvedAbsolute) :=
    resolve_scan (rev args ++ [cwd]) "" in
  let q := normalizeString resolvedPath (negb resolvedAbsolute) in
  if resolvedAbsolute then "/" +:+ q
  else if is_empty q then "." else q.

(** The directories on the way to an absolute normalised path, the root
    first and the path itself last. *)
Fixpoint prefixes_from (base : string) (segs : list string) : list string :=
  match segs with
  | [] => []
  | s :: rest =>
      let here := if bool_decide (base = "/") then "/" +:+ s
                  else base +:+ "/" +:+ s in
      here :: prefixes_from here rest
  end.

Definition ancestors_and_self (abs : string) : list string :=
  "/" :: prefixes_from "/" (filter (fun s => s ≠ "") (split "/" abs)).

(** An ordinary path segment: not empty, not [.] or [..], no slash. *)
Definition slash_free (s : string) : bool :=
  forallb (fun c => negb (Ascii.eqb c "/")) (chars s).

Definition is_plain (s : string) : bool :=
  negb (is_empty s) && negb (bool_decide (s = "."))
  && negb (bool_decide (s = "..")) && slash_free s.

(** A piece of a split path that normalisation drops or keeps as it is. *)
Definition ordinary (s : string) : Prop := s = "" \/ is_plain s = true.

(** The absolute normalised path with the given segments. *)
Definition of_segments (segs : list string) : string :=
  "/" +:+ JsString.join "/" segs.

(** [path.dirname] of an absolute normalised path. *)
Definition dirname (abs : string) : string :=
  match rev (ancestors_and_self abs) with
  | _ :: parent :: _ => parent
  | _ => "/"
  end.

End Path.


(* ===================================================================== *)
(** * JavaScript values, JSON and thrown errors                            *)
(* ===================================================================== *)

(** The values that travel through the workflow: what [JSON.parse] builds,
    plus [undefined].  An object lists its properties in the order the
    engine enumerates them; keys are unique. *)
Inductive js_value : Type :=
| VUndefined
| VNull
| VBool (b : bool)
| VNum (n : Z)
| VStr (s : string)
| VArr (items : list js_value)
| VObj (props : list (string * js_value)).

Record js_error := mk_error { err_name : string; err_message : string }.

Global Instance js_error_eq_dec : EqDecision js_error.
Proof. solve_decision. Defined.

Inductive result (A : Type) : Type :=
| Ok (a : A)
| Throw (e : js_error).
Arguments Ok {A} a.
Arguments Throw {A} e.

Module Js.

Definition TypeError (msg : string) : js_error := mk_error "TypeError" msg.

Fixpoint lookup_prop (k : string) (props : list (string * js_value))
  : js_value :=
  match props with
  | [] => VUndefined
  | (k', v) :: rest => if bool_decide (k' = k) then v else lookup_prop k rest
  end.

(** [v.k] (and [const { k } = v]): reading a property of [null] or
    [undefined] throws; the property names read by this program are not
    defined on numbers, strings, booleans or arrays. *)
Definition get_prop (v : js_value) (k : string) : result js_value :=
  match v with
  | VUndefined | VNull =>
      Throw (TypeError ("Cannot read properties of null or undefined: " +:+ k))
  | VObj props => Ok (lookup_prop k props)
  | _ => Ok VUndefined
  end.

(** [a === b] for two values held by different properties of one parsed
    body: primitives compare by value, and two objects or arrays built by
    the parser are never the same reference. *)
Definition strict_equals (a b : js_value) : bool :=
  match a, b with
  | VUndefined, VUndefined => true
  | VNull, VNull => true
  | VBool x, VBool y => Bool.eqb x y
  | VNum x, VNum y => (x =? y)%Z
  | VStr x, VStr y => bool_decide (x = y)
  | _, _ => false
  end.

(** [obj[k] = v] on an object literal: an existing key keeps its place. *)
Fixpoint obj_set {A : Type} (k : string) (v : A) (o : list (string * A))
  : list (string * A) :=
  match o with
  | [] => [(k, v)]
  | (k', v') :: rest =>
      if bool_decide (k' = k) then (k, v) :: rest
      else (k', v') :: obj_set k v rest
  end.

(** [{ ...a, ...b }]. *)
Definition obj_spread {A : Type} (a b : list (string * A))
  : list (string * A) :=
  fold_left (fun acc kv => obj_set (fst kv) (snd kv) acc) b a.

(** [Number.MAX_SAFE_INTEGER] is 2^53 - 1: up to it every integer is a
    number of its own. *)
Definition safe_integer (n : Z) : bool := Z.abs n <? 2 ^ 53.

(** A value all of whose numbers are safe integers. *)
Fixpoint safe (v : js_value) : bool :=
  match v with
  | VNum n => safe_integer n
  | VArr items => forallb safe items
  | VObj props =>
      forallb (fun kv : string * js_value => let (_, x) := kv in safe x)
              props
  | _ => true
  end.

(** [Number::toString] of a safe integer: the decimal numeral.  (From
    10^21 on JavaScript prints an exponent instead.) *)
Definition number_to_string (n : Z) : string :=
  NilZero.string_of_int (Z.to_int n).

Definition hex_digit (n : N) : ascii :=
  if (n <? 10)%N then ascii_of_N (48 + n) else ascii_of_N (87 + n).

Definition dquote : ascii := ascii_of_N 34.

(** One code unit inside [QuoteJSONString]. *)
Definition quote_char (c : ascii) : list ascii :=
  let n := N_of_ascii c in
  match n with
  | 8%N => ["\"; "b"]
  | 9%N => ["\"; "t"]
  | 10%N => ["\"; "n"]
  | 12%N => ["\"; "f"]
  | 13%N => ["\"; "r"]
  | 34%N => ["\"; dquote]
  | 92%N => ["\"; "\"]
  | _ =>
      if (n <? 32)%N
      then ["\"; "u"; "0"; "0"; hex_digit (n / 16); hex_digit (n mod 16)]
      else [c]
  end%char.

Definition quote (s : string) : string :=
  JsString.of_chars
    ((dquote :: concat (map quote_char (JsString.chars s))) ++ [dquote]).

Definition spaces (n : nat) : string :=
  JsString.of_chars (repeat " "%char n).

Definition wrap (gap indent : nat) (open close : string)
           (partial : list string) : string :=
  match partial with
  | [] => open +:+ close
  | _ =>
      if Nat.eqb gap 0
      then open +:+ JsString.join "," partial +:+ close
      else
        let inner := spaces (indent + gap) in
        let nl := String "010" "" in
        open +:+ nl +:+ inner
          +:+ JsString.join ("," +:+ nl +:+ inner) partial
          +:+ nl +:+ spaces indent +:+ close
  end.

(** [SerializeJSONProperty]: [None] is [undefined]. *)
Fixpoint serialize (gap indent : nat) (v : js_value) : option string :=
  match v with
  | VUndefined => None
  | VNull => Some "null"
  | VBool true => Some "true"
  | VBool false => Some "false"
  | VNum n => Some (number_to_string n)
  | VStr s => Some (quote s)
  | VArr items =>
      let partial :=
        map (fun x => match serialize gap (indent + gap) x with
                      | Some t => t
                      | None => "null"
                      end) items in
      Some (wrap gap indent "[" "]" partial)
  | VObj props =>
      let partial :=
        (fix members (ps : list (string * js_value)) : list string :=
           match ps with
           | [] => []
           | (k, x) :: rest =>
               match serialize gap (indent + gap) x with
               | Some t =>
                   (quote k +:+ ":" +:+ (if Nat.eqb gap 0 then "" else " ")
                      +:+ t) :: members rest
               | None => members rest
               end
           end) props in
      Some (wrap gap indent "{" "}" partial)
  end.

(** [JSON.stringify(v)] and [JSON.stringify(v, null, gap)]. *)
Definition JSON_stringify (v : js_value) (gap : nat) : option string :=
  serialize gap 0 v.

End Js.


(* ===================================================================== *)
(** * The world: file system, transport, console                           *)
(* ===================================================================== *)

Record filesystem := mk_fs {
  fs_files : gmap string string;   (* absolute path -> text content *)
  fs_dirs : gset string            (* absolute paths of directories *)
}.

(** What [fetch] receives: the URL and the fields of its [RequestInit]. *)
Record request := mk_request {
  req_url : string;
  req_method : option string;
  req_headers : list (string * string);
  req_body : option string
}.

(** The [Response] a transport resolves with; [resp_json] is what
    [response.json()] settles with. *)
Record http_response := mk_response {
  resp_status : Z;
  resp_statusText : string;
  resp_headers : list (string * string);
  resp_json : result js_value
}.

(** What one [fetch] call does, with the time it takes in milliseconds. *)
Inductive fetch_outcome : Type :=
| FetchResolves (latency : Z) (r : http_response)
| FetchRejects (latency : Z) (e : js_error)
| FetchNeverSettles.

Inductive console_line : Type :=
| LogText (s : string)
| LogValue (v : js_value).

(** The fixed surroundings of a run. *)
Record environment := mk_env {
  env_cwd : string;                         (* process.cwd() *)
  env_api_url : option string;              (* process.env.BLENDIN_CLI_API_URL *)
  env_fetch : nat -> request -> fetch_outcome  (* the n-th call of fetch *)
}.

(** A call of one of the [fs] functions that change the disk. *)
Inductive fs_call : Type :=
| CallMkdir (dir : string)
| CallCopyFile (src dst : string)
| CallWriteFile (path : string) (text : option string).

(** The state a run changes. *)
Record world := mk_world {
  w_fs : filesystem;
  w_fs_calls : list fs_call;       (* mkdir/copy/write calls, oldest first *)
  w_fetched : list request;        (* calls of fetch so far, oldest first *)
  w_console : list console_line    (* console.log lines, oldest first *)
}.

Definition set_fs (fs : filesystem) (w : world) : world :=
  mk_world fs (w_fs_calls w) (w_fetched w) (w_console w).

Definition note_fs_call (c : fs_call) (w : world) : world :=
  mk_world (w_fs w) (w_fs_calls w ++ [c]) (w_fetched w) (w_console w).

Definition note_fetch (req : request) (w : world) : world :=
  mk_world (w_fs w) (w_fs_calls w) (w_fetched w ++ [req]) (w_console w).

(** Computations that read and change the world and may throw. *)
Definition M (A : Type) : Type := world -> result A * world.

Global Instance M_ret : MRet M := fun A a w => (Ok a, w).
Global Instance M_bind : MBind M := fun A B f m w =>
  match m w with
  | (Ok a, w') => f a w'
  | (Throw e, w') => (Throw e, w')
  end.

Definition lift_result {A : Type} (r : result A) : M A := fun w => (r, w).

Module Fs.

Definition ErrnoError (code path : string) : js_error :=
  mk_error "Error" (code +:+ ": " +:+ path).

Definition abs (env : environment) (p : string) : string :=
  Path.resolve (env_cwd env) [p].

(** Whether a regular file stands on the way to the absolute path [d],
    where a directory would have to be. *)
Definition below_file (fs : filesystem) (d : string) : bool :=
  existsb (fun a => bool_decide (a ≠ d)
                    && bool_decide (is_Some (fs_files fs !! a)))
          (Path.ancestors_and_self d).

(** The code with which the system refuses the absolute path [d] when
    nothing is stored there: ENOTDIR when a regular file stands on the
    way, ENOENT otherwise. *)
Definition missing_code (fs : filesystem) (d : string) : string :=
  if below_file fs d then "ENOTDIR" else "ENOENT".

(** The code with which a path that is not a regular file is refused
    where a file is read: EISDIR for a directory. *)
Definition unreadable_code (fs : filesystem) (d : string) : string :=
  if bool_decide (d ∈ fs_dirs fs) then "EISDIR" else missing_code fs d.

(** [fs.readFileSync(p, 'utf8')]. *)
Definition readFileSync (env : environment) (p : string) : M string :=
  fun w =>
    match fs_files (w_fs w) !! abs env p with
    | Some text => (Ok text, w)
    | None =>
        (Throw (ErrnoError (unreadable_code (w_fs w) (abs env p)) p), w)
    end.

(** [fs.existsSync(p)]. *)
Definition existsSync (env : environment) (p : string) : M bool :=
  fun w =>
    (Ok (bool_decide (is_Some (fs_files (w_fs w) !! abs env p))
         || bool_decide (abs env p ∈ fs_dirs (w_fs w))), w).

(** [fs.mkdirSync(p, { recursive: true })]: every missing directory on
    the way is created.  A regular file at the path itself is refused
    with EEXIST, one on the way to it with ENOTDIR. *)
Definition mkdirSync_recursive (env : environment) (p : string) : M unit :=
  fun w0 =>
    let w := note_fs_call (CallMkdir p) w0 in
    let chain := Path.ancestors_and_self (abs env p) in
    if forallb (fun d => bool_decide (fs_files (w_fs w) !! d = None)) chain
    then (Ok tt,
          set_fs (mk_fs (fs_files (w_fs w))
                        (fs_dirs (w_fs w) ∪ list_to_set chain)) w)
    else if bool_decide (is_Some (fs_files (w_fs w) !! abs env p))
    then (Throw (ErrnoError "EEXIST" p), w)
    else (Throw (ErrnoError "ENOTDIR" p), w).

(** Writing [text] at the absolute path [d]: [d] must not be a
    directory (EISDIR) and its parent must be one (otherwise ENOTDIR when
    a regular file stands on the way, ENOENT when the parent is
    missing). *)
Definition put_file (p d text : string) : M unit :=
  fun w =>
    if bool_decide (d ∈ fs_dirs (w_fs w))
    then (Throw (ErrnoError "EISDIR" p), w)
    else if bool_decide (Path.dirname d ∈ fs_dirs (w_fs w))
    then (Ok tt,
          set_fs (mk_fs (<[d := text]> (fs_files (w_fs w)))
                        (fs_dirs (w_fs w))) w)
    else (Throw (ErrnoError (missing_code (w_fs w) d) p), w).

(** [fs.writeFileSync(p, data, 'utf8')]; [data] is [None] when the caller
    passes [undefined], which Node refuses. *)
Definition writeFileSync (env : environment) (p : string)
           (data : option string) : M unit :=
  fun w0 =>
    let w := note_fs_call (CallWriteFile p data) w0 in
    match data with
    | None =>
        (Throw (Js.TypeError "The data argument must be of type string"), w)
    | Some text => put_file p (abs env p) text w
    end.

(** [fs.copyFileSync(src, dst)].  Copying a file onto itself changes
    nothing.  A source at which nothing is stored is refused when it is
    opened.  A directory as source can be opened: the destination is then
    opened, which creates or empties it, reading the source fails with
    EISDIR, and the destination is removed again. *)
Definition copyFileSync (env : environment) (src dst : string) : M unit :=
  fun w0 =>
    let w := note_fs_call (CallCopyFile src dst) w0 in
    match fs_files (w_fs w) !! abs env src with
    | Some text =>
        if bool_decide (abs env src = abs env dst) then (Ok tt, w)
        else put_file dst (abs env dst) text w
    | None =>
        if bool_decide (abs env src ∈ fs_dirs (w_fs w))
        then
          match put_file dst (abs env dst) "" w with
          | (Ok _, _) =>
              (Throw (ErrnoError "EISDIR" src),
               set_fs (mk_fs (delete (abs env dst) (fs_files (w_fs w)))
                             (fs_dirs (w_fs w))) w)
          | (Throw e, w') => (Throw e, w')
          end
        else (Throw (ErrnoError (missing_code (w_fs w) (abs env src)) src), w)
    end.

End Fs.

Definition console_log (l : console_line) : M unit :=
  fun w =>
    (Ok tt,
     mk_world (w_fs w) (w_fs_calls w) (w_fetched w) (w_console w ++ [l])).

(** [if (b) { m }]. *)
Definition when_true (b : bool) (m : M unit) : M unit :=
  if b then m else mret tt.

(** [items.forEach(f)]. *)
Fixpoint for_each {A : Type} (f : A -> M unit) (items : list A) : M unit :=
  match items with
  | [] => mret tt
  | x :: rest => _ ← f x; for_each f rest
  end.

(* ===================================================================== *)
(** * The API client (docusaurus/types.ts)                                 *)
(* ===================================================================== *)

(** [BLENDIN_CLI_API_URL]: the environment variable, or the production
    endpoint when it is not set. *)
Definition BLENDIN_CLI_API_URL (env : environment) : string :=
  match env_api_url env with
  | Some u => u
  | None => "https://blendinapi-production-959c8e72f5be.herokuapp.com"
  end.

Module Api.

Record APIClientConfig := mk_client_config { apiToken : option string }.

(** [HeadersInit]: a plain object of names and values, a [Headers]
    instance, or an array of name and value pairs. *)
Inductive HeadersInit : Type :=
| HeadersRecord (props : list (string * string))
| HeadersInstance (entries : list (string * string))
| HeadersPairs (pairs : list (string * string)).

(** The fields of [RequestInit] a caller can pass on. *)
Record RequestInit := mk_init {
  ri_method : option string;
  ri_headers : option HeadersInit;
  ri_body : option string
}.

Record FetchResponse := mk_fetch_response {
  data : js_value;
  status : Z;
  statusText : string;
  headers : list (string * string)
}.

Record APIClient := mk_client {
  authenticatedGet : string -> option RequestInit -> M FetchResponse;
  authenticatedPost :
    string -> js_value -> option RequestInit -> M FetchResponse
}.

End Api.

Module ApiClient.
Import Api.

(** [const timeout = 30000]. *)
Definition timeout : Z := 30000.

(** [new Error('Request timed out')]. *)
Definition timeout_error : js_error := mk_error "Error" "Request timed out".

(** The race inside [fetchWithTimeout]: the timer is armed first and
    rejects unless the transport settles before it fires. *)
Definition settle_within (limit : Z) (o : fetch_outcome)
  : result http_response :=
  match o with
  | FetchResolves latency r =>
      if latency <? limit then Ok r else Throw timeout_error
  | FetchRejects latency e =>
      if latency <? limit then Throw e else Throw timeout_error
  | FetchNeverSettles => Throw timeout_error
  end.

(** [fetchWithTimeout(url, options, timeout)]: one call of [fetch]. *)
Definition fetchWithTimeout (env : environment) (req : request)
           (limit : Z) : M http_response :=
  fun w =>
    let n := length (w_fetched w) in
    (settle_within limit (env_fetch env n req), note_fetch req w).

(** [apiClientConfig?.apiToken ?? '']. *)
Definition token_or_empty (cfg : option APIClientConfig) : string :=
  match cfg with
  | Some c => match apiToken c with Some t => t | None => "" end
  | None => ""
  end.

(** [{ ...headers }]: the own enumerable properties of the caller's
    headers.  A plain object gives its properties.  A [Headers] instance
    has none.  An array gives one property per index, whose value is the
    pair, which [fetch] reads as the text name,value. *)
Definition spread_headers (h : HeadersInit) : list (string * string) :=
  match h with
  | HeadersRecord props => props
  | HeadersInstance _ => []
  | HeadersPairs pairs =>
      imap (fun i pair => (Js.number_to_string (Z.of_nat i),
                           fst pair +:+ "," +:+ snd pair))
           pairs
  end.

(** [{ ...config?.headers }]. *)
Definition given_headers (config : option RequestInit)
  : list (string * string) :=
  match config with
  | Some c => match ri_headers c with
              | Some h => spread_headers h
              | None => []
              end
  | None => []
  end.

(** [{ ...config?.headers, 'Content-Type': ..., 'X-API-Token': apiToken }]. *)
Definition request_headers (config : option RequestInit) (tok : string)
  : list (string * string) :=
  Js.obj_spread (given_headers config)
    [("Content-Type", "application/json"); ("X-API-Token", tok)].

Definition unauthorized : FetchResponse :=
  mk_fetch_response (VObj []) 401 "Unauthorized" [].

(** The part after the transport answered: [await response.json()] and
    the response object that is returned. *)
Definition read_response (response : http_response) : M FetchResponse :=
  d ← lift_result (resp_json response);
  mret (mk_fetch_response d (resp_status response)
          (resp_statusText response) (resp_headers response)).

Section Client.
Variable env : environment.
Variable apiClientConfig : option APIClientConfig.

Definition baseURL : string := BLENDIN_CLI_API_URL env.

(** The arguments [authenticatedGet] gives to [fetchWithTimeout]. *)
Definition get_request (url : string) (config : option RequestInit)
           (tok : string) : request :=
  mk_request (baseURL +:+ url)
    (config ≫= ri_method)
    (request_headers config tok)
    (config ≫= ri_body).

(** The arguments [authenticatedPost] gives to [fetchWithTimeout]:
    [{ method: 'POST', ...config, headers, body: JSON.stringify(data) }]. *)
Definition post_request (url : string) (body : js_value)
           (config : option RequestInit) (tok : string) : request :=
  mk_request (baseURL +:+ url)
    (match config ≫= ri_method with
     | Some m => Some m
     | None => Some "POST"
     end)
    (request_headers config tok)
    (Js.JSON_stringify body 0).

Definition authenticatedGet (url : string) (config : option RequestInit)
  : M FetchResponse :=
  let tok := token_or_empty apiClientConfig in
  if negb (JsString.is_empty tok) then
    response ← fetchWithTimeout env (get_request url config tok) timeout;
    read_response response
  else mret unauthorized.

Definition authenticatedPost (url : string) (body : js_value)
           (config : option RequestInit) : M FetchResponse :=
  let tok := token_or_empty apiClientConfig in
  if negb (JsString.is_empty tok) then
    response ←
      fetchWithTimeout env (post_request url body config tok) timeout;
    read_response response
  else mret unauthorized.

(** [createAPIClient(apiClientConfig)]. *)
Definition createAPIClient : APIClient :=
  mk_client authenticatedGet authenticatedPost.
End Client.

End ApiClient.

(* ===================================================================== *)
(** * Configuration and wire records                                       *)
(* ===================================================================== *)

(** A locale code as the program holds it: [None] is [undefined], which a
    look-up in [DEFAULT_FLAGS] yields for an unknown locale. *)
Definition LocaleValue : Type := option string.

Record ProjectConfig := mk_project {
  projectId : option string;
  apiToken : option string
}.

Record LocalesConfig := mk_locales {
  defaultLocale : option string;
  sourceLocale : LocaleValue;
  targetLocales : option (list LocaleValue)
}.

Record ParsingConfig := mk_parsing {
  sourceFilePaths : option (list string);
  translationsSavePath : option string
}.

(** The fields of [BlendinConfig] this workflow reads. *)
Record BlendinConfig := mk_config {
  project : option ProjectConfig;
  locales : option LocalesConfig;
  parsing : option ParsingConfig
}.

Record FileMetadata := mk_metadata {
  sourceFilePath : string;
  fileHash : string
}.

(** [translationJobPlanPostData]. *)
Record PlanPostData := mk_plan {
  project_uuid : option string;
  source_locale_iso : LocaleValue;
  target_locale_isos : option (list LocaleValue);
  files_metadata : list FileMetadata
}.

Module Wire.

Definition of_string (o : option string) : js_value :=
  match o with Some s => VStr s | None => VUndefined end.

Definition of_metadata (m : FileMetadata) : js_value :=
  VObj [("sourceFilePath", VStr (sourceFilePath m));
        ("fileHash", VStr (fileHash m))].

(** The object literal of the plan request as a JavaScript value. *)
Definition of_plan (p : PlanPostData) : js_value :=
  VObj [("project_uuid", of_string (project_uuid p));
        ("source_locale_iso", of_string (source_locale_iso p));
        ("target_locale_isos",
         match target_locale_isos p with
         | Some l => VArr (map of_string l)
         | None => VUndefined
         end);
        ("files_metadata", VArr (map of_metadata (files_metadata p)))].

(** A value inside a template literal. *)
Definition interpolate (o : option string) : string :=
  match o with Some s => s | None => "undefined" end.

End Wire.

(* ===================================================================== *)
(** * The progress poller (pollTranslationProgress)                        *)
(* ===================================================================== *)

(** The poller runs on the event loop: its timer fires and the promises of
    its status requests settle in an order the program does not control, and
    several requests can be in flight.  It is modelled as a machine stepped
    by these events, for any client. *)
Module Poller.

Inductive promise_state : Type :=
| Pending                      (* Polling *)
| Resolved                     (* Completed *)
| Rejected (e : js_error).     (* Failed *)

Inductive poll_output : Type :=
| OutProgress (completed total : js_value)
| OutCompleted
| OutError (e : js_error).

Inductive poll_event : Type :=
| Tick                                               (* the interval fires *)
| Settled (k : nat) (r : result Api.FetchResponse).  (* request k settles *)

Record poll_state := mk_poll {
  sentinel : bool;
  intervalId : option Z;         (* next firing time; None when not armed *)
  promise : promise_state;
  now : Z;                       (* milliseconds since entry *)
  issued : list (Z * string);    (* time and url of each authenticatedGet *)
  awaiting : list nat;           (* requests not yet settled *)
  output : list poll_output
}.

(** The period given to [setInterval]. *)
Definition period : Z := 1000.

Definition status_url (env : environment) (translationJobId : string)
  : string :=
  BLENDIN_CLI_API_URL env +:+ "/translation-jobs/" +:+ translationJobId
    +:+ "/translation-progress".

Definition settle (p : promise_state) (outcome : promise_state)
  : promise_state :=
  match p with Pending => outcome | _ => p end.

Section Run.
Variable env : environment.
Variable translationJobId : string.

(** [getAndPrintProgress] up to its [await]. *)
Definition getAndPrintProgress_request (st : poll_state) : poll_state :=
  if sentinel st then st
  else mk_poll (sentinel st) (intervalId st) (promise st) (now st)
         (issued st ++ [(now st, status_url env translationJobId)])
         (awaiting st ++ [length (issued st)])
         (output st).

(** The [catch] block. *)
Definition on_error (e : js_error) (st : poll_state) : poll_state :=
  mk_poll true None (settle (promise st) (Rejected e)) (now st)
    (issued st) (awaiting st) (output st ++ [OutError e]).

(** [getAndPrintProgress] after its [await]. *)
Definition getAndPrintProgress_resume (r : result Api.FetchResponse)
           (st : poll_state) : poll_state :=
  match r with
  | Throw e => on_error e st
  | Ok translationProgress =>
      match Js.get_prop (Api.data translationProgress) "translations_total",
            Js.get_prop (Api.data translationProgress)
              "translations_completed" with
      | Ok translations_total, Ok translations_completed =>
          let out :=
            output st
              ++ [OutProgress translations_completed translations_total] in
          if Js.strict_equals translations_completed translations_total
          then mk_poll true None (settle (promise st) Resolved) (now st)
                 (issued st) (awaiting st) (out ++ [OutCompleted])
          else mk_poll (sentinel st) (intervalId st) (promise st) (now st)
                 (issued st) (awaiting st) out
      | Throw e, _ | _, Throw e => on_error e st
      end
  end.

(** Entry: the first call, then [setInterval(getAndPrintProgress, 1000)]. *)
Definition pollTranslationProgress : poll_state :=
  let st := getAndPrintProgress_request
              (mk_poll false None Pending 0 [] [] []) in
  mk_poll (sentinel st) (Some (now st + period)) (promise st) (now st)
    (issued st) (awaiting st) (output st).

Definition step (st : poll_state) (ev : poll_event) : poll_state :=
  match ev with
  | Tick =>
      match intervalId st with
      | None => st
      | Some t =>
          getAndPrintProgress_request
            (mk_poll (sentinel st) (Some (t + period)) (promise st) t
               (issued st) (awaiting st) (output st))
      end
  | Settled k r =>
      if bool_decide (k ∈ awaiting st)
      then getAndPrintProgress_resume r
             (mk_poll (sentinel st) (intervalId st) (promise st) (now st)
                (issued st) (filter (fun j => j ≠ k) (awaiting st))
                (output st))
      else st
  end.

Definition run (st : poll_state) (evs : list poll_event) : poll_state :=
  fold_left step evs st.

(** A server that answers every request before the next tick. *)
Fixpoint serial (k : nat) (answers : list (result Api.FetchResponse))
  : list poll_event :=
  match answers with
  | [] => []
  | [a] => [Settled k a]
  | a :: rest => Settled k a :: Tick :: serial (S k) rest
  end.
End Run.

Definition progress (completed total : Z) : result Api.FetchResponse :=
  Ok (Api.mk_fetch_response
        (VObj [("translations_total", VNum total);
               ("translations_completed", VNum completed)])
        200 "OK" []).

End Poller.

(* ===================================================================== *)
(** * Locales and per-locale copies (utils)                                *)
(* ===================================================================== *)

Module Utils.

(** The fields of Docusaurus' [I18nConfig] that are read. *)
Record I18nConfig := mk_i18n {
  i18n_defaultLocale : string;
  i18n_locales : list string
}.

Record SourceFilePathAndPluginName := mk_source {
  pluginName : string;
  sourceFilePath : string
}.

(** [String(locale)]. *)
Definition String_of (locale : LocaleValue) : string :=
  Wire.interpolate locale.

Section WithFlags.
(** The table [DEFAULT_FLAGS] of [@blendin/types]; [None] is the
    [undefined] a missing key gives. *)
Variable DEFAULT_FLAGS : string -> LocaleValue.

Definition getLocalesConfig (i18n : I18nConfig) : LocalesConfig :=
  let blendinLocales := map DEFAULT_FLAGS (i18n_locales i18n) in
  let sourceLocales :=
    filter (fun locale => locale ≠ DEFAULT_FLAGS (i18n_defaultLocale i18n))
           blendinLocales in
  mk_locales (Some (i18n_defaultLocale i18n)) None (Some sourceLocales).

Definition destinationDir (locale : LocaleValue)
           (file : SourceFilePathAndPluginName) : string :=
  Path.join ["i18n"; JsString.toLowerCase (String_of locale);
             pluginName file; "current"].

Definition destinationPath (locale : LocaleValue)
           (file : SourceFilePathAndPluginName) : string :=
  Path.join [destinationDir locale file;
             Path.basename (sourceFilePath file)].

Definition copy_one (env : environment) (locale : LocaleValue)
           (file : SourceFilePathAndPluginName) : M unit :=
  _ ← Fs.mkdirSync_recursive env (destinationDir locale file);
  Fs.copyFileSync env (sourceFilePath file) (destinationPath locale file).

Definition copySourceFilesToLocales (env : environment)
           (sourceFiles : list SourceFilePathAndPluginName)
           (targetLocales : list LocaleValue)
           (defaultLocale : string) : M unit :=
  for_each
    (fun locale =>
       if bool_decide (locale = DEFAULT_FLAGS defaultLocale)
       then mret tt
       else for_each (copy_one env locale) sourceFiles)
    targetLocales.
End WithFlags.

End Utils.

(* ===================================================================== *)
(** * The fingerprint of the SDK                                           *)
(* ===================================================================== *)

Module Sdk.

(** Modelled from the spec: [generateStringHash] of the package
    [@blendin/sdk-js], whose code is not among the sources.  The
    specification asks two things of the fingerprint: it is a
    deterministic function of the text it is given (same content, same
    hash, independent of path or time), and different contents get
    different fingerprints (abc and abd do, and so do two files with
    distinct content).  The model is the plainest function with both
    properties, the text itself; it says nothing of the length or the
    alphabet of the library's digest. *)
Definition generateStringHash (text : string) : string := text.

End Sdk.

(* ===================================================================== *)
(** * The translation job (executeTranslationJob)                          *)
(* ===================================================================== *)

Module Job.

Section WithHash.
(** [generateStringHash({ text })] of [@blendin/sdk-js]. *)
Variable generateStringHash : string -> string.
Variable env : environment.

(** The fingerprint of a file's text. *)
Definition content_hash (fileContent : string) : string :=
  generateStringHash (JsString.trim fileContent).

Fixpoint getFilesMetadata_from (filesMetadata : list FileMetadata)
         (filePaths : list string) : M (list FileMetadata) :=
  match filePaths with
  | [] => mret filesMetadata
  | filePath :: rest =>
      fileContent ← Fs.readFileSync env filePath;
      getFilesMetadata_from
        (filesMetadata ++ [mk_metadata filePath (content_hash fileContent)])
        rest
  end.

Definition getFilesMetadata (filePaths : list string)
  : M (list FileMetadata) :=
  getFilesMetadata_from [] filePaths.

(** The object literal [translationJobPlanPostData]. *)
Definition translationJobPlanPostData (blendinConfig : BlendinConfig)
           (filesMetadata : list FileMetadata) : PlanPostData :=
  mk_plan (project blendinConfig ≫= projectId)
          (locales blendinConfig ≫= sourceLocale)
          (locales blendinConfig ≫= targetLocales)
          filesMetadata.

Definition plan_path : string :=
  "/translation-jobs/generate-plan-from-entire-files".

(** [executeTranslation]: everything after the two [console.log] calls
    is commented out in the source. *)
Definition executeTranslation (blendinConfig : BlendinConfig) : M unit :=
  filesMetadata ← getFilesMetadata
    (default [] (parsing blendinConfig ≫= sourceFilePaths));
  let postData := translationJobPlanPostData blendinConfig filesMetadata in
  let apiClient :=
    ApiClient.createAPIClient env
      (Some (Api.mk_client_config (project blendinConfig ≫= apiToken))) in
  translationJobPlanResponse ←
    Api.authenticatedPost apiClient plan_path (Wire.of_plan postData) None;
  _ ← console_log (LogText "GOT TRANSLATION JOB PLAN RESPONSE");
  console_log (LogValue (Api.data translationJobPlanResponse)).

(** [blendinConfig.parsing?.translationsSavePath || '']. *)
Definition save_path_or_empty (blendinConfig : BlendinConfig) : string :=
  default "" (parsing blendinConfig ≫= translationsSavePath).

Definition translations_url (blendinConfig : BlendinConfig) : string :=
  BLENDIN_CLI_API_URL env +:+ "/projects/"
    +:+ Wire.interpolate (project blendinConfig ≫= projectId)
    +:+ "/translations-object".

Definition pullTranslations (configDir : string)
           (blendinConfig : BlendinConfig) (apiClient : Api.APIClient)
  : M unit :=
  let fileName := "translations.json" in
  let translationsSavePath :=
    Path.resolve (env_cwd env)
      [configDir; save_path_or_empty blendinConfig] in
  response ← Api.authenticatedGet apiClient
               (translations_url blendinConfig) None;
  translationsObject ←
    lift_result (Js.get_prop (Api.data response) "translations_object");
  present ← Fs.existsSync env translationsSavePath;
  _ ← when_true (negb present)
        (Fs.mkdirSync_recursive env translationsSavePath);
  let translationsFilePath := Path.join [translationsSavePath; fileName] in
  Fs.writeFileSync env translationsFilePath
    (Js.JSON_stringify translationsObject 2).
End WithHash.

End Job.

(* ===================================================================== *)
(** * A sample site                                                        *)
(* ===================================================================== *)

(** Two documents with different texts, a project with a token, and a
    service that answers every request after 12 ms. *)
Module Sample.

Definition files : gmap string string :=
  <["/site/docs/intro.md" := String "010" "# Intro" +:+ String "010" ""]>
    (<["/site/docs/guide.md" := "# Guide"]> ∅).

Definition disk : filesystem :=
  mk_fs files (list_to_set ["/"; "/site"; "/site/docs"]).

Definition start : world := mk_world disk [] [] [].

Definition answer : http_response :=
  mk_response 200 "OK" []
    (Ok (VObj [("translation_job_id", VStr "42");
               ("translations_total", VNum 3);
               ("translations_completed", VNum 3);
               ("translations_object", VObj [("hello", VStr "bonjour")])])).

Definition env : environment :=
  mk_env "/site" None (fun _ _ => FetchResolves 12 answer).

Definition config : BlendinConfig :=
  mk_config
    (Some (mk_project (Some "project-1") (Some "secret")))
    (Some (mk_locales (Some "en") (Some "en") (Some [Some "fr"; Some "de"])))
    (Some (mk_parsing (Some ["docs/intro.md"; "/site/docs/guide.md"])
                      (Some "translations"))).

(** A stand-in for the library hash that has no collisions. *)
Definition hash (text : string) : string := text.

(** Locale codes are their own flags, except the unknown code xx. *)
Definition flags (code : string) : LocaleValue :=
  if bool_decide (code = "xx") then None else Some code.

Definition i18n : Utils.I18nConfig := Utils.mk_i18n "en" ["en"; "fr"; "de"].

(** Two documents of the docs plugin with the same file name. *)
Definition intro : Utils.SourceFilePathAndPluginName :=
  Utils.mk_source "docusaurus-plugin-content-docs" "/site/docs/intro.md".

Definition nested_intro : Utils.SourceFilePathAndPluginName :=
  Utils.mk_source "docusaurus-plugin-content-docs" "/site/docs/api/intro.md".

Definition nested_disk : filesystem :=
  mk_fs (<["/site/docs/api/intro.md" := "# API"]> files)
        (list_to_set ["/"; "/site"; "/site/docs"; "/site/docs/api"]).

Definition nested_start : world := mk_world nested_disk [] [] [].

(** A service whose answer to the plan reports translations to make. *)
Definition plan_answer : js_value :=
  VObj [("translation_job_plan", VObj [("docs/intro.md", VNum 2)]);
        ("new_source_strings_count", VNum 2);
        ("new_translations_count", VNum 4)].

Definition plan_env : environment :=
  mk_env "/site" None
    (fun _ _ => FetchResolves 12 (mk_response 200 "OK" [] (Ok plan_answer))).

(** A site that lists an earlier French copy of the introduction among
    its source files. *)
Definition french_intro : Utils.SourceFilePathAndPluginName :=
  Utils.mk_source "docusaurus-plugin-content-docs"
    "i18n/fr/docusaurus-plugin-content-docs/current/intro.md".

Definition translated_disk : filesystem :=
  mk_fs (<["/site/i18n/fr/docusaurus-plugin-content-docs/current/intro.md"
           := "# Introduction"]> files)
        (list_to_set
           ["/"; "/site"; "/site/docs"; "/site/i18n"; "/site/i18n/fr";
            "/site/i18n/fr/docusaurus-plugin-content-docs";
            "/site/i18n/fr/docusaurus-plugin-content-docs/current"]).

Definition translated_start : world := mk_world translated_disk [] [] [].


End Sample.

(* ===================================================================== *)
(** * Vocabulary of the statements                                         *)
(* ===================================================================== *)

Module Spec.


(** The text of the file at [p], if there is one. *)
Definition file_text (env : environment) (w : world) (p : string)
  : option string :=
  fs_files (w_fs w) !! Fs.abs env p.

Definition readable (env : environment) (w : world) (p : string) : Prop :=
  is_Some (file_text env w p).

(** The error thrown for the path [p] where a regular file is read and
    none is stored there. *)
Definition read_error (env : environment) (w : world) (p : string)
  : js_error :=
  Fs.ErrnoError (Fs.unreadable_code (w_fs w) (Fs.abs env p)) p.

(** The requests of the poller so far went out at 0 ms, 1000 ms, 2000 ms
    and so on, all to the status address of the job. *)
Definition on_schedule (env : environment) (jobId : string)
           (st : Poller.poll_state) : Prop :=
  Poller.issued st
  = map (fun i => (Poller.period * Z.of_nat i, Poller.status_url env jobId))
        (seq 0 (length (Poller.issued st))).

(** The two shapes of a poller state: still polling with the timer armed
    one period ahead, or terminal with the flag set and the timer
    cleared. *)
Inductive phase (st : Poller.poll_state) : Prop :=
| phase_polling :
    Poller.sentinel st = false ->
    Poller.promise st = Poller.Pending ->
    Poller.intervalId st = Some (Poller.now st + Poller.period) ->
    Poller.now st
    = Poller.period * (Z.of_nat (length (Poller.issued st)) - 1) ->
    phase st
| phase_terminal :
    Poller.sentinel st = true ->
    Poller.promise st ≠ Poller.Pending ->
    Poller.intervalId st = None ->
    phase st.

(** The error a settled status request fails with, if it fails: a
    rejected call, or a body whose counts cannot be read. *)
Definition failure_of (r : result Api.FetchResponse) : option js_error :=
  match r with
  | Throw e => Some e
  | Ok resp =>
      match Js.get_prop (Api.data resp) "translations_total" with
      | Throw e => Some e
      | Ok _ => None
      end
  end.

(** The metadata entry [getFilesMetadata] builds for the file at [p]. *)
Definition metadata_of (hash : string -> string) (env : environment)
           (w : world) (p : string) : FileMetadata :=
  mk_metadata p (Job.content_hash hash (default "" (file_text env w p))).


Definition newline : string := String "010" "".

End Spec.

(* ===================================================================== *)
(** * Reading files for the job (executeTranslationJob, continued)         *)
(* ===================================================================== *)

Global Instance result_ret : MRet result := fun A a => Ok a.
Global Instance result_bind : MBind result := fun A B f r =>
  match r with
  | Ok a => f a
  | Throw e => Throw e
  end.

Module JobFiles.

(** [toPosixPath]: [filePath.split(path.sep).join(path.posix.sep)]; on a
    POSIX host both separators are the slash. *)
Definition toPosixPath (filePath : string) : string :=
  JsString.join "/" (JsString.split "/" filePath).

Record BlendinTextObject := mk_text { text : string }.

Record ParsedFile := mk_parsed {
  sourceFilePath : string;
  localizationMap : list (string * BlendinTextObject)
}.

Section WithHash.
Variable generateStringHash : string -> string.
Variable env : environment.

Fixpoint readFilesAndGenerateHashes_from (parsedFiles : list ParsedFile)
         (filePaths : list string) : M (list ParsedFile) :=
  match filePaths with
  | [] => mret parsedFiles
  | filePath :: rest =>
      fileContent ← Fs.readFileSync env filePath;
      let hash := generateStringHash (JsString.trim fileContent) in
      let localizationMap :=
        Js.obj_set hash (mk_text (JsString.trim fileContent)) [] in
      readFilesAndGenerateHashes_from
        (parsedFiles ++ [mk_parsed filePath localizationMap]) rest
  end.

Definition readFilesAndGenerateHashes (filePaths : list string)
  : M (list ParsedFile) :=
  readFilesAndGenerateHashes_from [] filePaths.
End WithHash.

End JobFiles.

(* ===================================================================== *)
(** * The option schemas (docusaurus/types.ts)                             *)
(* ===================================================================== *)

(** The part of zod the two schemas use: strings with a minimum length,
    arrays that may have to be non-empty, optional values and objects.
    Validation collects every issue; [parse] throws when there is one. *)
Module Schema.

Inductive issue_kind : Type :=
| invalid_type     (* the value has not the type the schema asks for *)
| too_small.       (* a string or array shorter than its minimum *)

Record issue := mk_issue {
  issue_path : list string;          (* keys and indices down to the value *)
  issue_code : issue_kind;
  issue_message : option string      (* the message given in the schema *)
}.

Inductive schema : Type :=
| ZString (min : option (nat * string))
| ZArray (element : schema) (nonempty : option string)
| ZOptional (inner : schema)
| ZObject (shape : list (string * schema)).

Definition index_key (i : nat) : string := Js.number_to_string (Z.of_nat i).

Fixpoint validate (s : schema) (path : list string) (v : js_value)
  : list issue :=
  match s with
  | ZString min =>
      match v with
      | VStr t =>
          match min with
          | Some (n, message) =>
              if (String.length t <? n)%nat
              then [mk_issue path too_small (Some message)]
              else []
          | None => []
          end
      | _ => [mk_issue path invalid_type None]
      end
  | ZArray element nonempty =>
      match v with
      | VArr items =>
          (match nonempty, items with
           | Some message, [] => [mk_issue path too_small (Some message)]
           | _, _ => []
           end)
          ++ concat (imap (fun i item =>
                             validate element (path ++ [index_key i]) item)
                          items)
      | _ => [mk_issue path invalid_type None]
      end
  | ZOptional inner =>
      match v with
      | VUndefined => []
      | _ => validate inner path v
      end
  | ZObject shape =>
      match v with
      | VObj props =>
          (fix fields (sh : list (string * schema)) : list issue :=
             match sh with
             | [] => []
             | (key, field) :: rest =>
                 validate field (path ++ [key]) (Js.lookup_prop key props)
                   ++ fields rest
             end) shape
      | _ => [mk_issue path invalid_type None]
      end
  end.

(** [schema.parse(value)], for what the callers use of it: whether it
    throws. *)
Definition parse (s : schema) (v : js_value) : result unit :=
  match validate s [] v with
  | [] => Ok tt
  | first :: _ =>
      Throw (mk_error "ZodError"
               (default "Invalid input" (issue_message first)))
  end.

Definition projectSchema : schema :=
  ZObject
    [("projectId",
      ZString (Some (1%nat,
                     "projectId is required and must be a non-empty string.")));
     ("apiToken",
      ZString (Some (1%nat,
                     "apiToken is required and must be a non-empty string.")))].

Definition DocusaurusBlendinConfigSchema : schema :=
  ZObject
    [("parsing",
      ZObject
        [("sourceFilePaths",
          ZArray (ZString None)
                 (Some "sourceFilePaths must contain at least one path."));
         ("stringFilePaths",
          ZArray (ZString None)
                 (Some "stringFilePaths must contain at least one path."))]);
     ("project", projectSchema)].

Definition DocusaurusBlendinPluginOptionsSchema : schema :=
  ZObject
    [("docPath", ZOptional (ZArray (ZString None) None));
     ("project", projectSchema)].

End Schema.

(* ===================================================================== *)
(** * Source roots and the walk over them (utils, continued)               *)
(* ===================================================================== *)

Module Roots.

(** An entry of [config.presets] or [config.plugins]: an array
    [[name, options]] with a string as its name, or anything that is not
    an array (a bare name, [false]).  A pair written without options has
    [undefined] there. *)
Inductive PluginConfig : Type :=
| ConfigOther
| ConfigPair (name : string) (options : js_value).

(** The fields of Docusaurus' [Config] that are read. *)
Record DocusaurusConfig := mk_site {
  presets : option (list PluginConfig);
  plugins : option (list PluginConfig);
  i18n : Utils.I18nConfig
}.

Record SourceFileRootsAndPluginName := mk_root {
  pluginName : string;
  sourceFileRoots : string
}.

(** Whether [if (v)] takes the branch. *)
Definition truthy (v : js_value) : bool :=
  match v with
  | VUndefined | VNull | VBool false => false
  | VNum n => negb (n =? 0)
  | VStr s => negb (JsString.is_empty s)
  | _ => true
  end.

(** [v?.k]. *)
Definition optional_prop (v : js_value) (k : string) : js_value :=
  match v with
  | VObj props => Js.lookup_prop k props
  | _ => VUndefined
  end.

(** [path.resolve(process.cwd(), p)] for a value [p]: anything but a
    string is refused by [path.resolve]. *)
Definition resolve_in_cwd (env : environment) (p : js_value) : result string :=
  match p with
  | VStr s => Ok (Path.resolve (env_cwd env) [env_cwd env; s])
  | _ => Throw (Js.TypeError "The paths argument must be of type string")
  end.

(** [v ?? fallback]. *)
Definition or_else (v : js_value) (fallback : string) : js_value :=
  match v with
  | VUndefined | VNull => VStr fallback
  | _ => v
  end.

Section WithEnv.
Variable env : environment.

(** One of the three sections of the classic preset:
    [if (classicOptions?.section) docsFolders.push(...)]. *)
Definition classic_section (classicOptions : js_value)
           (section fallback plugin : string)
           (docsFolders : list SourceFileRootsAndPluginName)
  : result (list SourceFileRootsAndPluginName) :=
  if truthy (optional_prop classicOptions section) then
    root ← resolve_in_cwd env
              (or_else (optional_prop (optional_prop classicOptions section)
                                      "path")
                       fallback);
    Ok (docsFolders ++ [mk_root plugin root])
  else Ok docsFolders.

Definition each_preset (docsFolders : list SourceFileRootsAndPluginName)
           (preset : PluginConfig)
  : result (list SourceFileRootsAndPluginName) :=
  match preset with
  | ConfigOther => Ok docsFolders
  | ConfigPair presetName presetOptions =>
      if bool_decide (presetName = "classic") && truthy presetOptions then
        withDocs ← classic_section presetOptions "docs" "docs"
                      "docusaurus-plugin-content-docs" docsFolders;
        withBlog ← classic_section presetOptions "blog" "blog"
                      "docusaurus-plugin-content-blog" withDocs;
        classic_section presetOptions "pages" "src/pages"
          "docusaurus-plugin-content-pages" withBlog
      else Ok docsFolders
  end.

Definition each_plugin (docsFolders : list SourceFileRootsAndPluginName)
           (plugin : PluginConfig)
  : result (list SourceFileRootsAndPluginName) :=
  match plugin with
  | ConfigOther => Ok docsFolders
  | ConfigPair pluginName pluginOptions =>
      docsPath ← Js.get_prop pluginOptions "path";
      if truthy docsPath then
        root ← resolve_in_cwd env docsPath;
        Ok (docsFolders ++ [mk_root pluginName root])
      else Ok docsFolders
  end.

(** [entries?.forEach(f)] with the list built so far. *)
Fixpoint for_entries
         (f : list SourceFileRootsAndPluginName -> PluginConfig ->
              result (list SourceFileRootsAndPluginName))
         (entries : list PluginConfig)
         (docsFolders : list SourceFileRootsAndPluginName)
  : result (list SourceFileRootsAndPluginName) :=
  match entries with
  | [] => Ok docsFolders
  | entry :: rest =>
      next ← f docsFolders entry;
      for_entries f rest next
  end.

Definition getSourceFileRootsAndPluginNames (config : DocusaurusConfig)
  : result (list SourceFileRootsAndPluginName) :=
  fromPresets ← for_entries each_preset (default [] (presets config)) [];
  for_entries each_plugin (default [] (plugins config)) fromPresets.

End WithEnv.

End Roots.

(* ===================================================================== *)
(** * Listing directories and the walk over the roots (utils, continued)   *)
(* ===================================================================== *)

Module Dir.

(** A [Dirent] of [readdirSync] with [withFileTypes]. *)
Record Dirent := mk_dirent {
  name : string;
  isDirectory : bool
}.

(** The entries of the store directly below the absolute path [d]:
    directories, then files.  Node gives them in the order of the
    operating system; nothing below depends on the order. *)
Definition children (fs : filesystem) (d : string) : list Dirent :=
  map (fun k => mk_dirent (Path.basename k) true)
      (filter (fun k => k ≠ d /\ Path.dirname k = d)
              (elements (fs_dirs fs)))
  ++ map (fun k => mk_dirent (Path.basename k) false)
         (filter (fun k => k ≠ d /\ Path.dirname k = d)
                 (map fst (map_to_list (fs_files fs)))).

(** [fs.readdirSync(p, { withFileTypes: true })]: a path that is a
    regular file, or has one on the way to it, is refused with ENOTDIR,
    a path at which nothing is stored with ENOENT. *)
Definition readdirSync (env : environment) (p : string) : M (list Dirent) :=
  fun w =>
    let d := Fs.abs env p in
    if bool_decide (d ∈ fs_dirs (w_fs w))
    then (Ok (children (w_fs w) d), w)
    else if bool_decide (is_Some (fs_files (w_fs w) !! d))
    then (Throw (Fs.ErrnoError "ENOTDIR" p), w)
    else (Throw (Fs.ErrnoError (Fs.missing_code (w_fs w) d) p), w).

(** The variables of the loop of [path.extname]. *)
Record extname_state := mk_extname {
  startDot : option nat;
  startPart : nat;
  end_ : option nat;
  matchedSlash : bool;
  preDotState : Z
}.

(** The loop of [path.extname], from the last character to the first:
    [rchars] holds the characters not yet seen, the next one first, whose
    index is the number of characters after it in [rchars]. *)
Fixpoint extname_scan (rchars : list ascii) (st : extname_state)
  : extname_state :=
  match rchars with
  | [] => st
  | code :: rest =>
      let i := length rest in
      if Ascii.eqb code "/" then
        if negb (matchedSlash st)
        then mk_extname (startDot st) (i + 1) (end_ st) (matchedSlash st)
               (preDotState st)
        else extname_scan rest st
      else
        let st1 :=
          match end_ st with
          | None => mk_extname (startDot st) (startPart st) (Some (i + 1)%nat)
                      false (preDotState st)
          | Some _ => st
          end in
        let st2 :=
          if Ascii.eqb code "." then
            match startDot st1 with
            | None => mk_extname (Some i) (startPart st1) (end_ st1)
                        (matchedSlash st1) (preDotState st1)
            | Some _ =>
                if negb (preDotState st1 =? 1)
                then mk_extname (startDot st1) (startPart st1) (end_ st1)
                       (matchedSlash st1) 1
                else st1
            end
          else
            match startDot st1 with
            | Some _ => mk_extname (startDot st1) (startPart st1) (end_ st1)
                          (matchedSlash st1) (-1)
            | None => st1
            end in
        extname_scan rest st2
  end.

(** [path.extname(p)]. *)
Definition extname (p : string) : string :=
  let st := extname_scan (rev (JsString.chars p))
              (mk_extname None 0 None true 0) in
  match startDot st, end_ st with
  | Some dot, Some e =>
      if (preDotState st =? 0)
         || ((preDotState st =? 1) && Nat.eqb dot (e - 1)
             && Nat.eqb dot (startPart st + 1))
      then ""
      else JsString.of_chars (take (e - dot) (drop dot (JsString.chars p)))
  | _, _ => ""
  end.

Definition extensions : list string :=
  [".md"; ".mdx"; ".json"; ".txt"; ".html"].

(** The outcome of a walk that may run out of depth: [None] when the
    allowance of nested calls is used up. *)
Definition walk : Type :=
  option (result (list Utils.SourceFilePathAndPluginName)).

(** [items.forEach(f)] over the list built so far. *)
Fixpoint each_of {A : Type}
         (f : list Utils.SourceFilePathAndPluginName -> A -> walk)
         (items : list A)
         (allFiles : list Utils.SourceFilePathAndPluginName) : walk :=
  match items with
  | [] => Some (Ok allFiles)
  | item :: rest =>
      match f allFiles item with
      | Some (Ok next) => each_of f rest next
      | stopped => stopped
      end
  end.

Section Walk.
Variable env : environment.
Variable w : world.

(** The body of [files.forEach]; [recur] is the nested call of
    [getAllSourceFiles]. *)
Definition each_file
           (recur : list Roots.SourceFileRootsAndPluginName -> walk)
           (folder : Roots.SourceFileRootsAndPluginName)
           (allFiles : list Utils.SourceFilePathAndPluginName)
           (file : Dirent) : walk :=
  let fullPath := Path.join [Roots.sourceFileRoots folder; name file] in
  if isDirectory file then
    match recur [Roots.mk_root (Roots.pluginName folder) fullPath] with
    | Some (Ok found) => Some (Ok (allFiles ++ found))
    | stopped => stopped
    end
  else if bool_decide (extname (name file) ∈ extensions)
  then Some (Ok (allFiles
                   ++ [Utils.mk_source (Roots.pluginName folder) fullPath]))
  else Some (Ok allFiles).

(** The body of [folders.forEach]. *)
Definition each_folder
           (recur : list Roots.SourceFileRootsAndPluginName -> walk)
           (allFiles : list Utils.SourceFilePathAndPluginName)
           (folder : Roots.SourceFileRootsAndPluginName) : walk :=
  match fst (readdirSync env (Roots.sourceFileRoots folder) w) with
  | Throw e => Some (Throw e)
  | Ok files => each_of (each_file recur folder) files allFiles
  end.

(** [getAllSourceFiles(folders)] with an allowance of [depth] nested
    calls.  The walk reads the store and changes nothing. *)
Fixpoint getAllSourceFiles_within (depth : nat)
         (folders : list Roots.SourceFileRootsAndPluginName) : walk :=
  match depth with
  | O => None
  | S depth' =>
      each_of (each_folder (getAllSourceFiles_within depth')) folders []
  end.

End Walk.

End Dir.

(* ===================================================================== *)
(** * The plugin's run (docusaurus index)                                  *)
(* ===================================================================== *)

Module PluginRun.

(** A string field of the validated options. *)
Definition as_string (v : js_value) : option string :=
  match v with
  | VStr s => Some s
  | _ => None
  end.

(** [options.project?.k]. *)
Definition project_field (options : js_value) (k : string)
  : result (option string) :=
  project ← Js.get_prop options "project";
  Ok (as_string (Roots.optional_prop project k)).

Definition savePathPlaceholder : string :=
  "path to save. may have to run script to inject this to correct location?".

(** The object literal [docusaurusBlendinConfig]. *)
Definition docusaurusBlendinConfig (options : js_value)
           (locales : LocalesConfig)
           (sourceFiles : list Utils.SourceFilePathAndPluginName)
  : result BlendinConfig :=
  id ← project_field options "projectId";
  token ← project_field options "apiToken";
  Ok (mk_config
        (Some (mk_project id token))
        (Some locales)
        (Some (mk_parsing (Some (map Utils.sourceFilePath sourceFiles))
                          (Some savePathPlaceholder)))).

End PluginRun.

(* ===================================================================== *)
(** * Vocabulary of the further statements                                 *)
(* ===================================================================== *)

Module Terms.

(** The request [executeTranslation] sends for the plan, when it sends
    one. *)
Definition plan_request (hash : string -> string) (env : environment)
           (cfg : BlendinConfig) (w : world) : request :=
  ApiClient.post_request env Job.plan_path
    (Wire.of_plan
       (Job.translationJobPlanPostData cfg
          (map (Spec.metadata_of hash env w)
               (default [] (parsing cfg ≫= sourceFilePaths)))))
    None
    (ApiClient.token_or_empty
       (Some (Api.mk_client_config (project cfg ≫= apiToken)))).

(** The world after [console.log] of the two lines of
    [executeTranslation]. *)
Definition logged_plan_response (d : js_value) (w : world) : world :=
  mk_world (w_fs w) (w_fs_calls w) (w_fetched w)
    (w_console w
       ++ [LogText "GOT TRANSLATION JOB PLAN RESPONSE"; LogValue d]).

(** A run of [executeTranslation] from [w] that went past the submission
    of the plan: the plan was answered with the body [d], which reports
    translations to make, and the statements after the submission ran,
    down to the last. *)
Definition past_plan_submission (w : world) (d : js_value)
           (r : result unit * world) : Prop :=
  fst r = Ok tt
  /\ w_console (snd r)
     = w_console w
         ++ [LogText "GOT TRANSLATION JOB PLAN RESPONSE"; LogValue d]
  /\ exists n, Js.get_prop d "new_translations_count" = Ok (VNum n)
               /\ 0 < n.

(** The value of a header: the first entry with that name. *)
Fixpoint header_value (k : string) (hs : list (string * string))
  : option string :=
  match hs with
  | [] => None
  | (k', v) :: rest => if bool_decide (k' = k) then Some v
                       else header_value k rest
  end.

(** The value [fetch] sends for the header [name] when it is given the
    headers [hs]: names are told apart without regard to letter case, and
    the values given under one name are joined with a comma and a
    space. *)
Definition wire_value (name : string) (hs : list (string * string))
  : option string :=
  match map snd
            (filter (fun kv => JsString.toLowerCase (fst kv)
                               = JsString.toLowerCase name) hs) with
  | [] => None
  | values => Some (JsString.join ", " values)
  end.

(** The number of times the interval fires in a run of events. *)
Fixpoint ticks (evs : list Poller.poll_event) : nat :=
  match evs with
  | [] => 0
  | Poller.Tick :: rest => S (ticks rest)
  | Poller.Settled _ _ :: rest => ticks rest
  end.

(** The [fs] calls of one successful copy. *)
Definition copy_calls (locale : LocaleValue)
           (file : Utils.SourceFilePathAndPluginName) : list fs_call :=
  [CallMkdir (Utils.destinationDir locale file);
   CallCopyFile (Utils.sourceFilePath file)
                (Utils.destinationPath locale file)].

(** What a run leaves alone, for the set [D] of paths it may write: every
    other file keeps its text, directories are only added, and nothing is
    requested or logged. *)
Definition only_writes (D : string -> Prop) (w w' : world) : Prop :=
  (forall d, ~ D d -> fs_files (w_fs w') !! d = fs_files (w_fs w) !! d)
  /\ fs_dirs (w_fs w) ⊆ fs_dirs (w_fs w')
  /\ w_fetched w' = w_fetched w
  /\ w_console w' = w_console w.

(** Something is stored at the absolute path [k]. *)
Definition entry (fs : filesystem) (k : string) : Prop :=
  k ∈ fs_dirs fs \/ is_Some (fs_files fs !! k).

(** A store as a file system keeps it: every path is absolute and
    normalised, and whatever is stored lies in a directory. *)
Definition tidy (fs : filesystem) : Prop :=
  (forall k, entry fs k ->
     exists segs, Forall (fun s => Path.is_plain s = true) segs
                  /\ k = Path.of_segments segs)
  /\ (forall segs b,
        Forall (fun s => Path.is_plain s = true) (segs ++ [b]) ->
        entry fs (Path.of_segments (segs ++ [b])) ->
        Path.of_segments segs ∈ fs_dirs fs).

(** A check of [tidy] for a store whose paths are among those with the
    segments listed in [paths]. *)
Definition tidy_check (fs : filesystem) (paths : list (list string)) : bool :=
  forallb (forallb Path.is_plain) paths
  && forallb (fun k => bool_decide (k ∈ map Path.of_segments paths))
             (elements (fs_dirs fs) ++ map fst (map_to_list (fs_files fs)))
  && forallb (fun segs =>
                match rev segs with
                | [] => true
                | _ :: rparent =>
                    negb (bool_decide (entry fs (Path.of_segments segs)))
                    || bool_decide
                         (Path.of_segments (rev rparent) ∈ fs_dirs fs)
                end) paths.

(** How many directories deep a path is, and the deepest directory of a
    store. *)
Definition depth (k : string) : nat :=
  length (filter (fun s => s ≠ "") (JsString.split "/" k)).

Definition deepest (fs : filesystem) : nat :=
  foldr Nat.max 0%nat (map depth (elements (fs_dirs fs))).

(** [src] is a file of the store somewhere below the directory with the
    segments [rsegs], with one of the extensions of the walk, under the
    plugin name [plugin]. *)
Definition below (fs : filesystem) (rsegs : list string) (plugin : string)
           (src : Utils.SourceFilePathAndPluginName) : Prop :=
  Utils.pluginName src = plugin
  /\ exists mid name,
       Forall (fun s => Path.is_plain s = true) (mid ++ [name])
       /\ Utils.sourceFilePath src = Path.of_segments (rsegs ++ mid ++ [name])
       /\ is_Some (fs_files fs !! Path.of_segments (rsegs ++ mid ++ [name]))
       /\ Dir.extname name ∈ Dir.extensions.

(** A root the walk can start from: an absolute normalised path that is
    a directory of the store. *)
Definition walkable (fs : filesystem)
           (folder : Roots.SourceFileRootsAndPluginName) : Prop :=
  exists rsegs,
    Forall (fun s => Path.is_plain s = true) rsegs
    /\ Roots.sourceFileRoots folder = Path.of_segments rsegs
    /\ Path.of_segments rsegs ∈ fs_dirs fs.

Definition dot_free (s : string) : bool :=
  forallb (fun c => negb (Ascii.eqb c ".")) (JsString.chars s).

Definition is_string (v : js_value) : Prop := exists s, v = VStr s.

(** A value the [project] part of both schemas accepts. *)
Definition valid_project (v : js_value) : Prop :=
  exists props id token,
    v = VObj props
    /\ Js.lookup_prop "projectId" props = VStr id /\ id ≠ ""
    /\ Js.lookup_prop "apiToken" props = VStr token /\ token ≠ "".

End Terms.

(* ===================================================================== *)
(** * The library functions on known inputs                                *)
(* ===================================================================== *)

(** Values that Node prints for the same calls. *)
Example path_join_relative :
  Path.join ["i18n"; "fr"; "docusaurus-plugin-content-docs"; "current"]
  = "i18n/fr/docusaurus-plugin-content-docs/current".
Proof. reflexivity. Qed.

Example path_join_parent : Path.join ["a/b"; "../c"; "./d"] = "a/c/d".
Proof. reflexivity. Qed.

Example path_join_nothing : Path.join [""; ""] = ".".
Proof. reflexivity. Qed.

Example path_normalize_absolute : Path.normalize "/a//b/../c/" = "/a/c/".
Proof. reflexivity. Qed.

Example path_normalize_above : Path.normalize "a/../.." = "..".
Proof. reflexivity. Qed.

Example path_basename_file : Path.basename "/site/docs/intro.md" = "intro.md".
Proof. reflexivity. Qed.

Example path_basename_trailing : Path.basename "a/b/" = "b".
Proof. reflexivity. Qed.

Example path_resolve_relative : Path.resolve "/site" ["docs"; "x.md"]
                                = "/site/docs/x.md".
Proof. reflexivity. Qed.

Example path_resolve_absolute : Path.resolve "/site" ["/tmp/x"; "../y"; ""]
                                = "/tmp/y".
Proof. reflexivity. Qed.

Example trim_both_ends :
  JsString.trim (Spec.newline +:+ "  abc " +:+ Spec.newline) = "abc".
Proof. reflexivity. Qed.

Example lower_case_locale : JsString.toLowerCase "pt-BR" = "pt-br".
Proof. reflexivity. Qed.

Example stringify_compact :
  Js.JSON_stringify (VArr [VNum 1; VArr [VNum (-2); VNull]; VArr []]) 0
  = Some "[1,[-2,null],[]]".
Proof. reflexivity. Qed.

Example stringify_pretty :
  Js.JSON_stringify (VArr [VNum 1; VArr [VBool true]; VUndefined]) 2
  = Some ("[" +:+ Spec.newline
            +:+ "  1," +:+ Spec.newline
            +:+ "  [" +:+ Spec.newline
            +:+ "    true" +:+ Spec.newline
            +:+ "  ]," +:+ Spec.newline
            +:+ "  null" +:+ Spec.newline
            +:+ "]").
Proof. reflexivity. Qed.

Example stringify_skips_undefined :
  Js.JSON_stringify (VObj [("a", VUndefined)]) 2 = Some "{}"
  /\ Js.JSON_stringify VUndefined 2 = None.
Proof. split; reflexivity. Qed.

Example spread_overrides_in_place :
  Js.obj_spread [("X-API-Token", "old"); ("Accept", "*")]
                [("Content-Type", "application/json"); ("X-API-Token", "new")]
  = [("X-API-Token", "new"); ("Accept", "*");
     ("Content-Type", "application/json")].
Proof. reflexivity. Qed.

(* ===================================================================== *)
(** * The API client                                                       *)
(* ===================================================================== *)

(** Closed decidable statements (membership in a concrete set, equality of
    concrete paths) are settled by evaluation. *)
Ltac decide_by_computation :=
  apply (bool_decide_unpack _); vm_compute; exact I.

Lemma is_empty_true (s : string) : JsString.is_empty s = true <-> s = "".
Proof. destruct s; simpl; split; congruence. Qed.

Lemma is_empty_false (s : string) : JsString.is_empty s = false <-> s ≠ "".
Proof. destruct s; simpl; split; congruence. Qed.

(** Every request of the client goes to the base URL followed by the path
    it was given. *)
Lemma get_request_url env url config tok :
  req_url (ApiClient.get_request env url config tok)
  = BLENDIN_CLI_API_URL env +:+ url.
Proof. reflexivity. Qed.

Lemma post_request_url env url body config tok :
  req_url (ApiClient.post_request env url body config tok)
  = BLENDIN_CLI_API_URL env +:+ url.
Proof. reflexivity. Qed.

(** With a token, [authenticatedGet] calls the transport exactly once. *)
Lemma authenticatedGet_with_token env cfg url config w :
  ApiClient.token_or_empty cfg ≠ "" ->
  let req := ApiClient.get_request env url config
               (ApiClient.token_or_empty cfg) in
  ApiClient.authenticatedGet env cfg url config w
  = match ApiClient.settle_within ApiClient.timeout
            (env_fetch env (length (w_fetched w)) req) with
    | Ok response => ApiClient.read_response response (note_fetch req w)
    | Throw e => (Throw e, note_fetch req w)
    end.
Proof.
  intros Htok req. unfold ApiClient.authenticatedGet.
  apply is_empty_false in Htok. rewrite Htok. simpl.
  unfold mbind, M_bind, ApiClient.fetchWithTimeout. fold req.
  destruct (ApiClient.settle_within _ _); reflexivity.
Qed.

Lemma authenticatedPost_with_token env cfg url body config w :
  ApiClient.token_or_empty cfg ≠ "" ->
  let req := ApiClient.post_request env url body config
               (ApiClient.token_or_empty cfg) in
  ApiClient.authenticatedPost env cfg url body config w
  = match ApiClient.settle_within ApiClient.timeout
            (env_fetch env (length (w_fetched w)) req) with
    | Ok response => ApiClient.read_response response (note_fetch req w)
    | Throw e => (Throw e, note_fetch req w)
    end.
Proof.
  intros Htok req. unfold ApiClient.authenticatedPost.
  apply is_empty_false in Htok. rewrite Htok. simpl.
  unfold mbind, M_bind, ApiClient.fetchWithTimeout. fold req.
  destruct (ApiClient.settle_within _ _); reflexivity.
Qed.


(** How a GET of the client fails: the transport's own error when it
    arrives in time, and the error of [response.json()] when the body
    cannot be parsed. *)
Lemma authenticatedGet_failures env cfg url config (w : world) :
  ApiClient.token_or_empty cfg ≠ "" ->
  let req := ApiClient.get_request env url config
               (ApiClient.token_or_empty cfg) in
  let outcome := env_fetch env (length (w_fetched w)) req in
  (forall latency e,
     latency < 30000 -> outcome = FetchRejects latency e ->
     fst (ApiClient.authenticatedGet env cfg url config w) = Throw e)
  /\ (forall latency response e,
        latency < 30000 -> outcome = FetchResolves latency response ->
        resp_json response = Throw e ->
        fst (ApiClient.authenticatedGet env cfg url config w) = Throw e).
Proof.
  intros Htok req outcome.
  rewrite authenticatedGet_with_token by exact Htok. fold req outcome.
  split.
  - intros latency e Hfast ->. simpl.
    destruct (Z.ltb_spec latency ApiClient.timeout) as [_ | Hge];
      [done | unfold ApiClient.timeout in Hge; lia].
  - intros latency response e Hfast -> Hjson. simpl.
    destruct (Z.ltb_spec latency ApiClient.timeout) as [_ | Hge];
      [| unfold ApiClient.timeout in Hge; lia].
    unfold ApiClient.read_response, mbind, M_bind, lift_result.
    by rewrite Hjson.
Qed.

(** C3: without a configured token, [authenticatedGet] and
    [authenticatedPost] resolve to the synthetic response with empty data,
    status 401 and status text Unauthorized, and leave the world as it was:
    the transport is not called. *)
Theorem no_token_unauthorized_without_network
        env cfg url body config (w : world) :
  ApiClient.token_or_empty cfg = "" ->
  let client := ApiClient.createAPIClient env cfg in
  Api.authenticatedGet client url config w
  = (Ok (Api.mk_fetch_response (VObj []) 401 "Unauthorized" []), w)
  /\ Api.authenticatedPost client url body config w
     = (Ok (Api.mk_fetch_response (VObj []) 401 "Unauthorized" []), w).
Proof.
  intros Htok client. subst client. simpl.
  unfold ApiClient.authenticatedGet, ApiClient.authenticatedPost.
  rewrite Htok. simpl. split; reflexivity.
Qed.

Lemma no_token_unauthorized_without_network_witness :
  let env := mk_env "/site" None (fun _ _ => FetchNeverSettles) in
  let w := mk_world (mk_fs ∅ ∅) [] [] [] in
  let client := ApiClient.createAPIClient env None in
  Api.authenticatedGet client "/ping" None w
  = (Ok (Api.mk_fetch_response (VObj []) 401 "Unauthorized" []), w)
  /\ Api.authenticatedPost client "/ping" VNull None w
     = (Ok (Api.mk_fetch_response (VObj []) 401 "Unauthorized" []), w).
Proof.
  intros env w client.
  apply (no_token_unauthorized_without_network env None "/ping" VNull None w).
  reflexivity.
Defined.




(* ===================================================================== *)
(** * The progress poller                                                  *)
(* ===================================================================== *)

Section PollerFacts.
Variable env : environment.
Variable jobId : string.

Local Abbreviation step := (Poller.step env jobId).
Local Abbreviation run := (Poller.run env jobId).
Local Abbreviation entry := (Poller.pollTranslationProgress env jobId).
Local Abbreviation url := (Poller.status_url env jobId).

Lemma run_app st evs more :
  run st (evs ++ more) = run (run st evs) more.
Proof. unfold Poller.run. apply fold_left_app. Qed.

Lemma run_cons st ev evs : run st (ev :: evs) = run (step st ev) evs.
Proof. reflexivity. Qed.

Lemma get_prop_throws_together v k1 k2 e :
  Js.get_prop v k1 = Throw e ->
  exists e', Js.get_prop v k2 = Throw e'.
Proof. destruct v; simpl; intros H; try discriminate; eauto. Qed.

Lemma get_prop_ok_together v k1 k2 x :
  Js.get_prop v k1 = Ok x -> exists y, Js.get_prop v k2 = Ok y.
Proof. destruct v; simpl; intros H; try discriminate; eauto. Qed.

(** The two ways [getAndPrintProgress] continues after its [await]. *)
Lemma resume_cases r st :
  (exists e, Spec.failure_of r = Some e
             /\ Poller.getAndPrintProgress_resume r st = Poller.on_error e st)
  \/ (exists resp total completed,
        r = Ok resp
        /\ Spec.failure_of r = None
        /\ Js.get_prop (Api.data resp) "translations_total" = Ok total
        /\ Js.get_prop (Api.data resp) "translations_completed"
           = Ok completed
        /\ Poller.getAndPrintProgress_resume r st
           = let out := Poller.output st
                          ++ [Poller.OutProgress completed total] in
             if Js.strict_equals completed total
             then Poller.mk_poll true None
                    (Poller.settle (Poller.promise st) Poller.Resolved)
                    (Poller.now st) (Poller.issued st) (Poller.awaiting st)
                    (out ++ [Poller.OutCompleted])
             else Poller.mk_poll (Poller.sentinel st) (Poller.intervalId st)
                    (Poller.promise st) (Poller.now st) (Poller.issued st)
                    (Poller.awaiting st) out).
Proof.
  destruct r as [resp | e]; [| left; exists e; done].
  unfold Spec.failure_of, Poller.getAndPrintProgress_resume.
  destruct resp as [d code text hs]; destruct d; simpl;
    try (left; eexists; split; reflexivity);
    right; eexists _, _, _; repeat split; reflexivity.
Qed.

Lemma settle_settled p o : p ≠ Poller.Pending -> Poller.settle p o = p.
Proof. destruct p; [congruence | done | done]. Qed.

(** A state whose flag is set and whose timer is cleared sends nothing
    more, whatever happens. *)
Lemma step_terminal st ev :
  Poller.sentinel st = true -> Poller.intervalId st = None ->
  Poller.promise st ≠ Poller.Pending ->
  Poller.sentinel (step st ev) = true
  /\ Poller.intervalId (step st ev) = None
  /\ Poller.promise (step st ev) = Poller.promise st
  /\ Poller.issued (step st ev) = Poller.issued st.
Proof.
  intros Hs Hi Hp. destruct ev as [| k r]; simpl.
  - rewrite Hi. auto.
  - case_bool_decide; [| auto].
    match goal with |- context [Poller.getAndPrintProgress_resume r ?s] =>
      destruct (resume_cases r s)
        as [(e & _ & ->) | (resp & total & completed & _ & _ & _ & _ & ->)]
    end; simpl.
    + by rewrite settle_settled.
    + destruct (Js.strict_equals _ _); simpl;
        [by rewrite settle_settled | auto].
Qed.

Lemma run_terminal st evs :
  Poller.sentinel st = true -> Poller.intervalId st = None ->
  Poller.promise st ≠ Poller.Pending ->
  Poller.promise (run st evs) = Poller.promise st
  /\ Poller.issued (run st evs) = Poller.issued st.
Proof.
  revert st. induction evs as [| ev evs IH]; intros st Hs Hi Hp; [done |].
  rewrite run_cons.
  destruct (step_terminal st ev Hs Hi Hp) as (Hs' & Hi' & Hp' & Hq').
  destruct (IH (step st ev)) as [IHp IHq]; [done | done | congruence |].
  split; congruence.
Qed.

Lemma on_schedule_snoc st :
  Spec.on_schedule env jobId st ->
  map (fun i => (Poller.period * Z.of_nat i, url))
      (seq 0 (length (Poller.issued st ++
                        [(Poller.period * Z.of_nat (length (Poller.issued st)),
                          url)])))
  = Poller.issued st
      ++ [(Poller.period * Z.of_nat (length (Poller.issued st)), url)].
Proof.
  intros Hsch. rewrite length_app. simpl.
  rewrite Nat.add_1_r, seq_S, map_app. simpl.
  by rewrite <- Hsch.
Qed.

(** What a tick does while the poller is polling: exactly one more
    request, one period after the previous one. *)
Lemma tick_while_polling st :
  Spec.phase st -> Poller.promise st = Poller.Pending ->
  Poller.issued (step st Poller.Tick)
  = Poller.issued st ++ [(Poller.now st + Poller.period, url)].
Proof.
  intros [Hs Hp Hi Hn | Hs Hp Hi] Hpending; [| congruence].
  simpl. rewrite Hi. unfold Poller.getAndPrintProgress_request. simpl.
  by rewrite Hs.
Qed.

Lemma step_preserves st ev :
  Spec.on_schedule env jobId st -> Spec.phase st ->
  Spec.on_schedule env jobId (step st ev) /\ Spec.phase (step st ev).
Proof.
  intros Hsch Hph. destruct Hph as [Hs Hp Hi Hn | Hs Hp Hi].
  - destruct ev as [| k r]; simpl.
    + rewrite Hi. unfold Poller.getAndPrintProgress_request. simpl.
      rewrite Hs.
      assert (Hnow : Poller.now st + Poller.period
                     = Poller.period * Z.of_nat (length (Poller.issued st))).
      { rewrite Hn. unfold Poller.period. lia. }
      split.
      * unfold Spec.on_schedule. simpl. rewrite Hnow.
        symmetry. by apply on_schedule_snoc.
      * apply Spec.phase_polling; simpl; try done.
        rewrite length_app. simpl. unfold Poller.period in *. lia.
    + case_bool_decide;
        [| split; [done | by apply Spec.phase_polling]].
      match goal with |- context [Poller.getAndPrintProgress_resume r ?s] =>
        destruct (resume_cases r s)
          as [(e & _ & ->) | (resp & total & completed & _ & _ & _ & _ & ->)]
      end; simpl.
      * split; [done |].
        apply Spec.phase_terminal; simpl; [done | by rewrite Hp | done].
      * destruct (Js.strict_equals _ _); simpl.
        -- split; [done |].
           apply Spec.phase_terminal; simpl; [done | by rewrite Hp | done].
        -- split; [done | by apply Spec.phase_polling].
  - destruct (step_terminal st ev Hs Hi Hp) as (Hs' & Hi' & Hp' & Hq').
    split.
    + unfold Spec.on_schedule. rewrite Hq'. exact Hsch.
    + apply Spec.phase_terminal; [done | congruence | done].
Qed.

Lemma entry_shape :
  Spec.on_schedule env jobId entry /\ Spec.phase entry.
Proof.
  split; [reflexivity |]. by apply Spec.phase_polling.
Qed.

Lemma run_preserves st evs :
  Spec.on_schedule env jobId st -> Spec.phase st ->
  Spec.on_schedule env jobId (run st evs) /\ Spec.phase (run st evs).
Proof.
  revert st. induction evs as [| ev evs IH]; intros st Hsch Hph; [done |].
  rewrite run_cons.
  destruct (step_preserves st ev Hsch Hph) as [Hsch' Hph'].
  by apply IH.
Qed.

Lemma reachable_shape evs :
  Spec.on_schedule env jobId (run entry evs) /\ Spec.phase (run entry evs).
Proof. apply run_preserves; apply entry_shape. Qed.

End PollerFacts.

Lemma strict_equals_numbers c t :
  Js.strict_equals (VNum c) (VNum t) = true <-> c = t.
Proof. simpl. apply Z.eqb_eq. Qed.

(** The spec's stub server: (1,3), (2,3), (3,3) on calls one second apart.
    The poller completes on the third answer, having sent three requests,
    and later ticks send nothing. *)
Example poller_three_answers env jobId more :
  let st := Poller.run env jobId (Poller.pollTranslationProgress env jobId)
              (Poller.serial 0 [Poller.progress 1 3; Poller.progress 2 3]
                 ++ [Poller.Tick]) in
  Poller.promise st = Poller.Pending
  /\ Poller.promise
       (Poller.step env jobId st (Poller.Settled 2 (Poller.progress 3 3)))
     = Poller.Resolved
  /\ map fst (Poller.issued
       (Poller.run env jobId
          (Poller.step env jobId st (Poller.Settled 2 (Poller.progress 3 3)))
          more))
     = [0; 1000; 2000].
Proof.
  cbv zeta. split; [vm_compute; reflexivity |].
  split; [vm_compute; reflexivity |].
  match goal with |- context [Poller.run _ _ ?s more] =>
    destruct (run_terminal env jobId s more) as [_ ->];
      [vm_compute; reflexivity | vm_compute; reflexivity
       | vm_compute; discriminate | vm_compute; reflexivity]
  end.
Qed.

(** The equality test is [===] on whatever the body holds: the client's
    synthetic answer, whose body has neither count, also completes the
    poll. *)
Example poller_completes_without_counts env jobId :
  Poller.promise
    (Poller.step env jobId (Poller.pollTranslationProgress env jobId)
       (Poller.Settled 0 (Ok ApiClient.unauthorized)))
  = Poller.Resolved.
Proof. reflexivity. Qed.

(** C4: on entry the poller sends one status request at once; its requests
    go out at 0 ms, 1000 ms, 2000 ms, ..., one per tick of the one-second
    interval while it is polling; a settled request moves it to Completed
    (its promise resolves) exactly when the two counts of the answer are
    strictly equal, which for numbers is numeric equality; and once
    Completed it stays so and sends no further request, whatever event
    follows. *)
Theorem poller_requests_and_completion env jobId evs :
  let entry := Poller.pollTranslationProgress env jobId in
  let st := Poller.run env jobId entry evs in
  let url := Poller.status_url env jobId in
  Poller.issued entry = [(0, url)]
  /\ Poller.issued st
     = map (fun i => (1000 * Z.of_nat i, url))
           (seq 0 (length (Poller.issued st)))
  /\ (Poller.promise st = Poller.Pending ->
      Poller.issued (Poller.step env jobId st Poller.Tick)
      = Poller.issued st
          ++ [(1000 * Z.of_nat (length (Poller.issued st)), url)])
  /\ (forall k resp total completed,
        Poller.promise st = Poller.Pending ->
        k ∈ Poller.awaiting st ->
        Js.get_prop (Api.data resp) "translations_total" = Ok total ->
        Js.get_prop (Api.data resp) "translations_completed" = Ok completed ->
        let st' := Poller.step env jobId st (Poller.Settled k (Ok resp)) in
        (Poller.promise st' = Poller.Resolved
         <-> Js.strict_equals completed total = true)
        /\ (Js.strict_equals completed total = false ->
            Poller.promise st' = Poller.Pending))
  /\ (forall c t, Js.strict_equals (VNum c) (VNum t) = true <-> c = t)
  /\ (Poller.promise st = Poller.Resolved ->
      forall more,
        Poller.promise (Poller.run env jobId st more) = Poller.Resolved
        /\ Poller.issued (Poller.run env jobId st more) = Poller.issued st).
Proof.
  intros entry st url.
  destruct (reachable_shape env jobId evs) as [Hsch Hph].
  fold entry st in Hsch, Hph.
  split; [reflexivity |]. split; [exact Hsch |]. split; [| split; [| split]].
  - intros Hpending.
    rewrite (tick_while_polling env jobId st Hph Hpending).
    destruct Hph as [_ _ _ Hn | _ Hp _]; [| congruence].
    do 2 f_equal. rewrite Hn. unfold Poller.period. f_equal. lia.
  - intros k resp total completed Hpending Hk Htotal Hcompleted st'.
    subst st'. unfold Poller.step.
    rewrite bool_decide_eq_true_2 by exact Hk.
    match goal with |- context [Poller.getAndPrintProgress_resume ?r ?s] =>
      destruct (resume_cases r s)
        as [(e & He & _) | (resp' & t' & c' & Hr & _ & Ht & Hc & ->)]
    end.
    + simpl in He. rewrite Htotal in He. discriminate.
    + injection Hr as <-. rewrite Htotal in Ht. rewrite Hcompleted in Hc.
      injection Ht as <-. injection Hc as <-. cbv zeta.
      destruct (Js.strict_equals completed total); simpl; rewrite Hpending.
      * split; [done | discriminate].
      * split; [split; discriminate | done].
  - apply strict_equals_numbers.
  - intros Hdone more.
    destruct Hph as [_ Hp _ _ | Hs Hp Hi]; [congruence |].
    destruct (run_terminal env jobId st more Hs Hi Hp) as [-> ->]. done.
Qed.

Lemma poller_requests_and_completion_witness :
  let env := mk_env "/site" None (fun _ _ => FetchNeverSettles) in
  let st := Poller.run env "42" (Poller.pollTranslationProgress env "42")
              (Poller.serial 0 [Poller.progress 1 3; Poller.progress 2 3]
                 ++ [Poller.Tick]) in
  Poller.promise st = Poller.Pending
  /\ map fst (Poller.issued st) = [0; 1000; 2000]
  /\ Poller.promise
       (Poller.step env "42" st (Poller.Settled 2 (Poller.progress 3 3)))
     = Poller.Resolved.
Proof.
  intros env st.
  destruct (poller_requests_and_completion env "42"
              (Poller.serial 0 [Poller.progress 1 3; Poller.progress 2 3]
                 ++ [Poller.Tick]))
    as (_ & _ & _ & Hsettle & _).
  split; [reflexivity |]. split; [reflexivity |].
  apply (Hsettle 2%nat
           (Api.mk_fetch_response
              (VObj [("translations_total", VNum 3);
                     ("translations_completed", VNum 3)])
              200 "OK" [])
           (VNum 3) (VNum 3)).
  - reflexivity.
  - vm_compute. apply list_elem_of_In. simpl. auto.
  - reflexivity.
  - reflexivity.
  - reflexivity.
Defined.

(** C5: a status request that fails while the poller is polling, be it a
    rejected call (network error, timeout, unparsable body) or an answer
    whose counts cannot be read, moves the poller at once to Failed: its
    promise rejects with that very error.  After any failing request the
    flag is set and the timer cleared, so no further status request is
    sent and the outcome no longer changes, whatever event follows. *)
Theorem poller_failure_is_final env jobId evs k r e :
  let st := Poller.run env jobId (Poller.pollTranslationProgress env jobId)
              evs in
  k ∈ Poller.awaiting st ->
  Spec.failure_of r = Some e ->
  let st' := Poller.step env jobId st (Poller.Settled k r) in
  (Poller.promise st = Poller.Pending -> Poller.promise st' = Poller.Rejected e)
  /\ Poller.issued st' = Poller.issued st
  /\ forall more,
       Poller.issued (Poller.run env jobId st' more) = Poller.issued st
       /\ Poller.promise (Poller.run env jobId st' more) = Poller.promise st'.
Proof.
  intros st Hk Hfail st'.
  assert (Hst' : st' = Poller.on_error e
                   (Poller.mk_poll (Poller.sentinel st) (Poller.intervalId st)
                      (Poller.promise st) (Poller.now st) (Poller.issued st)
                      (filter (fun j => j ≠ k) (Poller.awaiting st))
                      (Poller.output st))).
  { subst st'. unfold Poller.step.
    rewrite bool_decide_eq_true_2 by exact Hk.
    match goal with |- context [Poller.getAndPrintProgress_resume ?r ?s] =>
      destruct (resume_cases r s)
        as [(e' & He' & ->) | (resp & t & c & _ & Hnone & _)]
    end; [congruence | congruence]. }
  assert (Hfinal : Poller.promise st' ≠ Poller.Pending).
  { rewrite Hst'. simpl. destruct (Poller.promise st); done. }
  split; [| split].
  - intros Hpending. rewrite Hst'. simpl. by rewrite Hpending.
  - by rewrite Hst'.
  - intros more.
    destruct (run_terminal env jobId st' more) as [Hp Hq];
      [by rewrite Hst' | by rewrite Hst' | exact Hfinal |].
    split; [| exact Hp]. rewrite Hq. by rewrite Hst'.
Qed.

Lemma poller_failure_is_final_witness :
  let env := mk_env "/site" None (fun _ _ => FetchNeverSettles) in
  let boom := mk_error "TypeError" "fetch failed" in
  let st := Poller.run env "42" (Poller.pollTranslationProgress env "42")
              [Poller.Settled 0 (Poller.progress 1 3); Poller.Tick] in
  let st' := Poller.step env "42" st (Poller.Settled 1 (Throw boom)) in
  (Poller.promise st = Poller.Pending -> Poller.promise st' = Poller.Rejected boom)
  /\ Poller.issued st' = Poller.issued st
  /\ forall more,
       Poller.issued (Poller.run env "42" st' more) = Poller.issued st
       /\ Poller.promise (Poller.run env "42" st' more) = Poller.promise st'.
Proof.
  intros env boom st st'.
  apply (poller_failure_is_final env "42"
           [Poller.Settled 0 (Poller.progress 1 3); Poller.Tick] 1
           (Throw boom) boom).
  - vm_compute. apply list_elem_of_In. simpl. auto.
  - reflexivity.
Defined.

(** C8, at the job id 42 with the default endpoint and a token: the poller
    hands the client an address that already starts with the base URL, and
    the client puts the base URL in front of what it is given, so the
    transport is asked for base + base + path, which is not
    base + /translation-jobs/42/translation-progress. *)
Theorem status_request_repeats_base_url :
  let env := mk_env "/site" None (fun _ _ => FetchNeverSettles) in
  let base := BLENDIN_CLI_API_URL env in
  let path := "/translation-jobs/42/translation-progress" in
  let client :=
    ApiClient.createAPIClient env (Some (Api.mk_client_config (Some "secret"))) in
  let w := mk_world (mk_fs ∅ ∅) [] [] [] in
  map snd (Poller.issued (Poller.pollTranslationProgress env "42"))
  = [base +:+ path]
  /\ map req_url
       (w_fetched (snd (Api.authenticatedGet client
                          (Poller.status_url env "42") None w)))
     = [base +:+ base +:+ path]
  /\ base +:+ base +:+ path ≠ base +:+ path.
Proof.
  cbv zeta. split; [reflexivity |]. split; [reflexivity |].
  intros H. apply (f_equal String.length) in H. vm_compute in H. discriminate.
Qed.

(** The same for every endpoint, job and token. *)
Lemma status_request_url_in_general env cfg jobId (w : world) :
  ApiClient.token_or_empty cfg ≠ "" ->
  map req_url
    (w_fetched (snd (ApiClient.authenticatedGet env cfg
                       (Poller.status_url env jobId) None w)))
  = map req_url (w_fetched w)
    ++ [BLENDIN_CLI_API_URL env +:+ BLENDIN_CLI_API_URL env
          +:+ "/translation-jobs/" +:+ jobId +:+ "/translation-progress"].
Proof.
  intros Htok. rewrite authenticatedGet_with_token by exact Htok. cbv zeta.
  destruct (ApiClient.settle_within _ _) as [resp | e]; simpl.
  - unfold ApiClient.read_response, mbind, M_bind, lift_result, mret, M_ret.
    destruct (resp_json resp); simpl; by rewrite map_app.
  - by rewrite map_app.
Qed.

(* ===================================================================== *)
(** * Content fingerprints and the plan request                            *)
(* ===================================================================== *)

Section TrimFacts.
Import JsString.

Lemma chars_of_chars l : chars (of_chars l) = l.
Proof. apply list_ascii_of_string_of_list_ascii. Qed.

Lemma of_chars_inj l1 l2 : of_chars l1 = of_chars l2 -> l1 = l2.
Proof.
  intros H. apply (f_equal chars) in H. by rewrite !chars_of_chars in H.
Qed.

(** What [drop_white] leaves starts with a character that is not white. *)
Lemma drop_white_head l :
  drop_white l = [] \/
  exists c r, drop_white l = c :: r /\ is_white c = false.
Proof.
  induction l as [| c r IH]; simpl; [by left |].
  destruct (is_white c) eqn:Hc; [exact IH | right; eauto].
Qed.

(** [drop_white] removes a prefix. *)
Lemma drop_white_suffix l : exists ws, l = ws ++ drop_white l.
Proof.
  induction l as [| c r [ws IH]]; simpl; [by exists [] |].
  destruct (is_white c); [| by exists []].
  exists (c :: ws). simpl. by rewrite <- IH.
Qed.

Lemma drop_white_fixed c r :
  is_white c = false -> drop_white (c :: r) = c :: r.
Proof. intros H. simpl. by rewrite H. Qed.

Lemma drop_white_idemp l : drop_white (drop_white l) = drop_white l.
Proof.
  destruct (drop_white_head l) as [-> | (c & r & -> & Hc)]; [done |].
  by apply drop_white_fixed.
Qed.

(** A trimmed text does not start with white space. *)
Lemma drop_white_trim_chars l : drop_white (trim_chars l) = trim_chars l.
Proof.
  unfold trim_chars.
  destruct (drop_white_head l) as [-> | (c & r & Hl & Hc)]; [done |].
  rewrite Hl.
  destruct (drop_white_suffix (rev (c :: r))) as [ws Hws].
  destruct (drop_white (rev (c :: r))) as [| x xs] eqn:Hx; [done |].
  apply (f_equal (@rev ascii)) in Hws.
  rewrite rev_involutive, rev_app_distr in Hws.
  destruct (rev (x :: xs)) as [| y ys] eqn:Hy.
  - apply (f_equal (@length ascii)) in Hy.
    rewrite length_rev in Hy. discriminate.
  - simpl in Hws. injection Hws as <- _. by apply drop_white_fixed.
Qed.

Lemma trim_chars_idemp l : trim_chars (trim_chars l) = trim_chars l.
Proof.
  unfold trim_chars at 1. rewrite drop_white_trim_chars.
  unfold trim_chars. by rewrite rev_involutive, drop_white_idemp.
Qed.

(** [trim] is idempotent. *)
Lemma trim_idemp s : trim (trim s) = trim s.
Proof. unfold trim. by rewrite chars_of_chars, trim_chars_idemp. Qed.

End TrimFacts.

Section Fingerprints.
Variable hash : string -> string.
Variable env : environment.

(** Reading the files changes nothing; with every file readable the loop
    returns one entry per path, in order. *)
Lemma getFilesMetadata_from_readable acc paths (w : world) :
  Forall (Spec.readable env w) paths ->
  Job.getFilesMetadata_from hash env acc paths w
  = (Ok (acc ++ map (Spec.metadata_of hash env w) paths), w).
Proof.
  revert acc. induction paths as [| p rest IH]; intros acc Hall; simpl.
  - unfold mret, M_ret. by rewrite app_nil_r.
  - inversion Hall as [| ? ? [text Hp] Hrest]; subst.
    unfold mbind, M_bind, Fs.readFileSync.
    unfold Spec.file_text in Hp. rewrite Hp.
    rewrite IH by exact Hrest. rewrite <- app_assoc. simpl.
    unfold Spec.metadata_of at 2, Spec.file_text. by rewrite Hp.
Qed.

Lemma getFilesMetadata_readable paths (w : world) :
  Forall (Spec.readable env w) paths ->
  Job.getFilesMetadata hash env paths w
  = (Ok (map (Spec.metadata_of hash env w) paths), w).
Proof. apply (getFilesMetadata_from_readable []). Qed.

(** [getFilesMetadata] never writes, whether or not it succeeds. *)
Lemma getFilesMetadata_from_pure acc paths (w : world) :
  snd (Job.getFilesMetadata_from hash env acc paths w) = w.
Proof.
  revert acc. induction paths as [| p rest IH]; intros acc; simpl; [done |].
  unfold mbind, M_bind, Fs.readFileSync.
  destruct (fs_files (w_fs w) !! Fs.abs env p); [apply IH | done].
Qed.

(** The loop stops at the first file it cannot read. *)
Lemma getFilesMetadata_from_unreadable acc pre p post (w : world) :
  Forall (Spec.readable env w) pre ->
  Spec.file_text env w p = None ->
  Job.getFilesMetadata_from hash env acc (pre ++ p :: post) w
  = (Throw (Spec.read_error env w p), w).
Proof.
  revert acc. induction pre as [| q pre IH]; intros acc Hall Hp; simpl.
  - unfold mbind, M_bind, Fs.readFileSync.
    unfold Spec.file_text in Hp. by rewrite Hp.
  - inversion Hall as [| ? ? [t Hq] Hrest]; subst.
    unfold mbind, M_bind, Fs.readFileSync.
    unfold Spec.file_text in Hq. rewrite Hq. by apply IH.
Qed.

(** Either every path is readable or there is a first one that is not. *)
Lemma first_unreadable paths (w : world) :
  Forall (Spec.readable env w) paths
  \/ exists pre p post,
       paths = pre ++ p :: post
       /\ Forall (Spec.readable env w) pre
       /\ Spec.file_text env w p = None.
Proof.
  induction paths as [| q rest IH]; [by left |].
  destruct (Spec.file_text env w q) as [t |] eqn:Hq.
  - destruct IH as [Hall | (pre & p & post & -> & Hpre & Hp)].
    + left. constructor; [| exact Hall]. unfold Spec.readable. eauto.
    + right. exists (q :: pre), p, post. split; [done |].
      split; [| exact Hp]. constructor; [| exact Hpre].
      unfold Spec.readable. eauto.
  - right. exists [], q, rest. by repeat split.
Qed.

Lemma readable_texts paths (w : world) :
  Forall (Spec.readable env w) paths ->
  Forall2 (fun p text => Spec.file_text env w p = Some text) paths
          (map (fun p => default "" (Spec.file_text env w p)) paths).
Proof.
  induction 1 as [| p rest [t Hp] _ IH]; simpl; constructor; [| exact IH].
  by rewrite Hp.
Qed.

End Fingerprints.

Lemma zip_with_map_same {A B C : Type} (f : A -> B -> C) (g : A -> B)
      (l : list A) :
  zip_with f l (map g l) = map (fun x => f x (g x)) l.
Proof. induction l as [| x l IH]; simpl; [done | by rewrite IH]. Qed.



Lemma lookup_map_metadata hash env (w : world) paths i p :
  paths !! i = Some p ->
  map (Spec.metadata_of hash env w) paths !! i
  = Some (Spec.metadata_of hash env w p).
Proof. intros H. by rewrite list_lookup_fmap, H. Qed.

Lemma authenticatedPost_without_token env cfg url body config (w : world) :
  ApiClient.token_or_empty cfg = "" ->
  ApiClient.authenticatedPost env cfg url body config w
  = (Ok ApiClient.unauthorized, w).
Proof.
  intros Htok. unfold ApiClient.authenticatedPost. by rewrite Htok.
Qed.

Lemma authenticatedGet_without_token env cfg url config (w : world) :
  ApiClient.token_or_empty cfg = "" ->
  ApiClient.authenticatedGet env cfg url config w
  = (Ok ApiClient.unauthorized, w).
Proof.
  intros Htok. unfold ApiClient.authenticatedGet. by rewrite Htok.
Qed.

Lemma console_log_twice (d : js_value) (w : world) :
  (let (r, w') :=
     console_log (LogText "GOT TRANSLATION JOB PLAN RESPONSE") w in
   match r with
   | Ok _ => console_log (LogValue d) w'
   | Throw e => (Throw e, w')
   end) = (Ok tt, Terms.logged_plan_response d w).
Proof.
  unfold console_log, Terms.logged_plan_response. simpl.
  by rewrite <- app_assoc.
Qed.

(** What a POST of the client does to the world: nothing on disk or on
    the console, and at most one call of the transport. *)
Lemma authenticatedPost_world env cfg url body config (w : world) :
  let w' := snd (ApiClient.authenticatedPost env cfg url body config w) in
  w_fs w' = w_fs w
  /\ w_fs_calls w' = w_fs_calls w
  /\ w_console w' = w_console w
  /\ (w_fetched w' = w_fetched w
      \/ (ApiClient.token_or_empty cfg ≠ ""
          /\ w_fetched w'
             = w_fetched w
                 ++ [ApiClient.post_request env url body config
                       (ApiClient.token_or_empty cfg)])).
Proof.
  intros w'. subst w'.
  destruct (decide (ApiClient.token_or_empty cfg = "")) as [Hempty | Htok].
  - unfold ApiClient.authenticatedPost. rewrite Hempty. simpl. auto.
  - rewrite authenticatedPost_with_token by exact Htok. cbv zeta.
    destruct (ApiClient.settle_within _ _) as [resp | e]; simpl.
    + unfold ApiClient.read_response, mbind, M_bind, lift_result, mret, M_ret.
      destruct (resp_json resp); simpl; auto 6.
    + auto 6.
Qed.

(** What the world looks like after [executeTranslation]: the disk is
    untouched and at most one request went out, the POST of the plan. *)
Lemma executeTranslation_effects hash env cfg (w : world) :
  let tok := ApiClient.token_or_empty
               (Some (Api.mk_client_config (project cfg ≫= apiToken))) in
  let w' := snd (Job.executeTranslation hash env cfg w) in
  w_fs w' = w_fs w
  /\ w_fs_calls w' = w_fs_calls w
  /\ (w_fetched w' = w_fetched w
      \/ exists metas,
           tok ≠ ""
           /\ fst (Job.getFilesMetadata hash env
                     (default [] (parsing cfg ≫= sourceFilePaths)) w)
              = Ok metas
           /\ w_fetched w'
              = w_fetched w
                  ++ [ApiClient.post_request env Job.plan_path
                        (Wire.of_plan
                           (Job.translationJobPlanPostData cfg metas))
                        None tok]).
Proof.
  intros tok w'. subst w'.
  unfold Job.executeTranslation, Job.getFilesMetadata, mbind, M_bind.
  pose proof (getFilesMetadata_from_pure hash env []
                (default [] (parsing cfg ≫= sourceFilePaths)) w) as Hpure.
  destruct (Job.getFilesMetadata_from hash env [] _ w) as [[metas | e] w1];
    cbn [snd] in Hpure; subst w1; [| cbn [snd]; auto].
  cbn [Api.authenticatedPost ApiClient.createAPIClient].
  match goal with |- context [ApiClient.authenticatedPost ?e ?c ?u ?b ?g w] =>
    pose proof (authenticatedPost_world e c u b g w) as Hpost;
    destruct (ApiClient.authenticatedPost e c u b g w) as [[resp | err] w2]
  end; cbv zeta in Hpost; cbn [snd] in Hpost;
    destruct Hpost as (Hfs & Hcalls & _ & Hfetched).
  - unfold console_log. cbn [snd fst w_fs w_fs_calls w_fetched].
    split; [exact Hfs |]. split; [exact Hcalls |].
    destruct Hfetched as [-> | [Htok ->]]; [by left |].
    right. exists metas. auto.
  - cbn [snd fst]. split; [exact Hfs |]. split; [exact Hcalls |].
    destruct Hfetched as [-> | [Htok ->]]; [by left |].
    right. exists metas. auto.
Qed.

(** With every source file readable and a token configured, the one request
    of [executeTranslation] carries the plan built from the metadata. *)
Lemma executeTranslation_sends_plan hash env cfg (w : world) :
  let paths := default [] (parsing cfg ≫= sourceFilePaths) in
  let tok := ApiClient.token_or_empty
               (Some (Api.mk_client_config (project cfg ≫= apiToken))) in
  Forall (Spec.readable env w) paths ->
  tok ≠ "" ->
  w_fetched (snd (Job.executeTranslation hash env cfg w))
  = w_fetched w
      ++ [ApiClient.post_request env Job.plan_path
            (Wire.of_plan
               (Job.translationJobPlanPostData cfg
                  (map (Spec.metadata_of hash env w) paths)))
            None tok].
Proof.
  intros paths tok Hread Htok.
  destruct (executeTranslation_effects hash env cfg w)
    as (_ & _ & [Hnone | (metas & _ & Hmetas & Hsent)]).
  - exfalso. revert Hnone.
    unfold Job.executeTranslation, mbind, M_bind.
    rewrite getFilesMetadata_readable by exact Hread.
    cbn [Api.authenticatedPost ApiClient.createAPIClient].
    rewrite authenticatedPost_with_token by exact Htok. cbv zeta.
    destruct (ApiClient.settle_within _ _) as [resp | e]; simpl.
    + unfold ApiClient.read_response, mbind, M_bind, lift_result, mret, M_ret.
      destruct (resp_json resp); simpl; intros H;
        apply (f_equal (@length request)) in H;
        rewrite length_app in H; simpl in H; lia.
    + intros H. apply (f_equal (@length request)) in H.
      rewrite length_app in H. simpl in H. lia.
  - rewrite getFilesMetadata_readable in Hmetas by exact Hread.
    simpl in Hmetas. injection Hmetas as <-. exact Hsent.
Qed.



(* ===================================================================== *)
(** * Paths made of ordinary segments                                      *)
(* ===================================================================== *)

Section PathFacts.
Import JsString.

Lemma of_chars_chars s : of_chars (chars s) = s.
Proof. apply string_of_list_ascii_of_string. Qed.

Lemma chars_app a b : chars (a +:+ b) = chars a ++ chars b.
Proof.
  induction a as [| c a IH]; [done |].
  change (chars (String c (a +:+ b)) = c :: (chars a ++ chars b)).
  change (c :: chars (a +:+ b) = c :: (chars a ++ chars b)).
  by rewrite IH.
Qed.

(** Splitting at a separator splits the text before it and the text after
    it. *)
Lemma split_chars_at sep cur l1 l2 :
  split_chars sep cur (l1 ++ sep :: l2)
  = split_chars sep cur l1 ++ split_chars sep [] l2.
Proof.
  revert cur. induction l1 as [| c l1 IH]; intros cur; simpl.
  - by rewrite Ascii.eqb_refl.
  - destruct (Ascii.eqb c sep); [| apply IH].
    simpl. f_equal. apply IH.
Qed.

Lemma split_at a b :
  split "/" (a +:+ "/" +:+ b) = split "/" a ++ split "/" b.
Proof.
  unfold split. rewrite !chars_app. change (chars "/") with ["/"%char].
  simpl. by rewrite split_chars_at, map_app.
Qed.

Lemma split_chars_free cur l :
  forallb (fun c => negb (Ascii.eqb c "/")) l = true ->
  split_chars "/" cur l = [rev cur ++ l].
Proof.
  revert cur. induction l as [| c l IH]; intros cur Hfree; simpl.
  - by rewrite app_nil_r.
  - simpl in Hfree. apply andb_true_iff in Hfree as [Hc Hl].
    apply negb_true_iff in Hc. rewrite Hc, IH by exact Hl.
    simpl. by rewrite <- app_assoc.
Qed.

Lemma split_free s : Path.slash_free s = true -> split "/" s = [s].
Proof.
  intros Hfree. unfold split. rewrite split_chars_free by exact Hfree.
  simpl. by rewrite of_chars_chars.
Qed.

Lemma forallb_reverse {A : Type} (f : A -> bool) (l : list A) :
  forallb f (rev l) = forallb f l.
Proof.
  apply eq_true_iff_eq. rewrite !forallb_forall.
  split; intros H x Hx; apply H; [by apply -> in_rev | by apply <- in_rev].
Qed.

(** The pieces of a split contain no separator. *)
Lemma split_chars_pieces cur l :
  forallb (fun c => negb (Ascii.eqb c "/")) cur = true ->
  Forall (fun piece => forallb (fun c => negb (Ascii.eqb c "/")) piece = true)
         (split_chars "/" cur l).
Proof.
  revert cur. induction l as [| c l IH]; intros cur Hcur; simpl.
  - constructor; [| constructor]. by rewrite forallb_reverse.
  - destruct (Ascii.eqb c "/") eqn:Hc.
    + constructor; [by rewrite forallb_reverse | by apply IH].
    + apply IH. simpl. by rewrite Hc.
Qed.

Lemma split_pieces s : Forall (fun t => Path.slash_free t = true) (split "/" s).
Proof.
  unfold split. apply Forall_fmap.
  eapply Forall_impl; [apply (split_chars_pieces [] (chars s)); done |].
  intros piece Hpiece. simpl. unfold Path.slash_free.
  by rewrite chars_of_chars.
Qed.

Lemma plain_slash_free s : Path.is_plain s = true -> Path.slash_free s = true.
Proof. unfold Path.is_plain. intros H. by apply andb_true_iff in H as [_ ?]. Qed.

Lemma plain_not_special s :
  Path.is_plain s = true -> s ≠ "" /\ s ≠ "." /\ s ≠ "..".
Proof.
  unfold Path.is_plain. intros H.
  apply andb_true_iff in H as [H _]. apply andb_true_iff in H as [H H3].
  apply andb_true_iff in H as [H1 H2].
  apply negb_true_iff in H1, H2, H3.
  apply is_empty_false in H1.
  apply bool_decide_eq_false_1 in H2. apply bool_decide_eq_false_1 in H3.
  auto.
Qed.

Lemma join_cons p q rest :
  JsString.join "/" (p :: q :: rest)
  = p +:+ "/" +:+ JsString.join "/" (q :: rest).
Proof. reflexivity. Qed.

Lemma split_join segs :
  segs ≠ [] -> Forall (fun s => Path.slash_free s = true) segs ->
  split "/" (JsString.join "/" segs) = segs.
Proof.
  induction segs as [| p rest IH]; [done |]. intros _ Hall.
  inversion Hall as [| ? ? Hp Hrest]; subst.
  destruct rest as [| q rest].
  - simpl. by apply split_free.
  - rewrite join_cons, split_at, split_free by exact Hp.
    simpl. f_equal. by apply IH.
Qed.


Lemma plain_intro s :
  s ≠ "" -> s ≠ "." -> s ≠ ".." -> Path.slash_free s = true ->
  Path.is_plain s = true.
Proof.
  intros H1 H2 H3 H4. unfold Path.is_plain.
  apply is_empty_false in H1. rewrite H1, H4.
  by rewrite !bool_decide_eq_false_2.
Qed.

(** On empty and ordinary segments normalisation only drops the empty
    ones. *)
Lemma normalize_segments_ordinary allow xs acc :
  Forall Path.ordinary xs ->
  Path.normalize_segments allow xs acc
  = rev acc ++ filter (fun s => s ≠ "") xs.
Proof.
  revert acc. induction xs as [| s xs IH]; intros acc Hall; simpl.
  - by rewrite app_nil_r.
  - inversion Hall as [| ? ? [-> | Hs] Hrest]; subst.
    + simpl. rewrite filter_cons_False by naive_solver. by apply IH.
    + destruct (plain_not_special s Hs) as (H1 & H2 & H3).
      rewrite !bool_decide_eq_false_2 by done. simpl.
      rewrite filter_cons_True by done.
      rewrite IH by exact Hrest. simpl. by rewrite <- app_assoc.
Qed.

(** Below the root ([allowAboveRoot] false) normalisation yields ordinary
    segments only. *)
Lemma normalize_segments_plain xs acc :
  Forall (fun s => Path.slash_free s = true) xs ->
  Forall (fun s => Path.is_plain s = true) acc ->
  Forall (fun s => Path.is_plain s = true)
         (Path.normalize_segments false xs acc).
Proof.
  revert acc. induction xs as [| s xs IH]; intros acc Hxs Hacc; simpl.
  - by apply Forall_rev.
  - inversion Hxs as [| ? ? Hs Hrest]; subst.
    destruct (bool_decide (s = "")) eqn:H1; [by apply IH |].
    destruct (bool_decide (s = ".")) eqn:H2; [by apply IH |]. simpl.
    destruct (bool_decide (s = "..")) eqn:H3.
    + destruct acc as [| top acc']; [by apply IH |].
      inversion Hacc; subst.
      destruct (bool_decide (top = "..")); by apply IH.
    + apply IH; [exact Hrest |]. constructor; [| exact Hacc].
      apply bool_decide_eq_false_1 in H1, H2, H3. by apply plain_intro.
Qed.

Lemma plain_ordinary segs :
  Forall (fun s => Path.is_plain s = true) segs -> Forall Path.ordinary segs.
Proof. intros H. eapply Forall_impl; [exact H |]. intros s Hs. by right. Qed.

Lemma filter_keeps_all {A : Type} (P : A -> Prop) `{forall x, Decision (P x)}
      (l : list A) :
  Forall P l -> filter P l = l.
Proof.
  induction 1 as [| x l Hx Hl IH]; [done |].
  by rewrite filter_cons_True, IH.
Qed.

(** Splitting a joined list of ordinary segments gives the segments back,
    up to one empty piece for the empty list. *)
Lemma split_join_plain segs :
  Forall (fun s => Path.is_plain s = true) segs ->
  Forall Path.ordinary (split "/" (JsString.join "/" segs))
  /\ filter (fun s => s ≠ "") (split "/" (JsString.join "/" segs)) = segs.
Proof.
  intros Hall. destruct segs as [| p rest].
  - split; [repeat constructor; by left | done].
  - rewrite split_join;
      [| done | eapply Forall_impl; [exact Hall | apply plain_slash_free]].
    split; [by apply plain_ordinary |].
    apply filter_keeps_all.
    eapply Forall_impl; [exact Hall |]. intros s Hs. simpl.
    by destruct (plain_not_special s Hs).
Qed.

Lemma split_empty : split "/" "" = [""].
Proof. reflexivity. Qed.

(** The same for an absolute path, with or without a trailing slash. *)
Lemma split_of_segments segs tail :
  Forall (fun s => Path.is_plain s = true) segs ->
  Forall Path.ordinary tail ->
  Forall Path.ordinary
    (split "/" (Path.of_segments segs) ++ tail)
  /\ filter (fun s => s ≠ "") (split "/" (Path.of_segments segs) ++ tail)
     = segs ++ filter (fun s => s ≠ "") tail.
Proof.
  intros Hall Htail. unfold Path.of_segments.
  change ("/" +:+ JsString.join "/" segs)
    with ("" +:+ "/" +:+ JsString.join "/" segs).
  rewrite split_at, split_empty.
  destruct (split_join_plain segs Hall) as [Hord Hfilter].
  split.
  - apply Forall_app. split; [| exact Htail].
    constructor; [by left | exact Hord].
  - rewrite filter_app. simpl. rewrite filter_cons_False by naive_solver.
    by rewrite Hfilter.
Qed.

Lemma of_segments_inj segs1 segs2 :
  Forall (fun s => Path.is_plain s = true) segs1 ->
  Forall (fun s => Path.is_plain s = true) segs2 ->
  Path.of_segments segs1 = Path.of_segments segs2 -> segs1 = segs2.
Proof.
  intros H1 H2 Heq.
  destruct (split_of_segments segs1 [] H1) as [_ E1]; [constructor |].
  destruct (split_of_segments segs2 [] H2) as [_ E2]; [constructor |].
  rewrite ?app_nil_r in E1, E2. simpl in E1, E2. rewrite ?app_nil_r in E1, E2.
  rewrite <- E1, <- E2. by rewrite Heq.
Qed.


Lemma string_app_assoc (a b c : string) : (a +:+ b) +:+ c = a +:+ b +:+ c.
Proof.
  induction a as [| x a IH]; [done |].
  change (String x ((a +:+ b) +:+ c) = String x (a +:+ b +:+ c)).
  by rewrite IH.
Qed.

Lemma string_app_empty (a : string) : a +:+ "" = a.
Proof.
  induction a as [| x a IH]; [done |].
  change (String x (a +:+ "") = String x a). by rewrite IH.
Qed.

(** An ordinary segment starts with a character that is not a slash. *)
Lemma plain_head s :
  Path.is_plain s = true ->
  exists c rest, s = String c rest /\ Ascii.eqb c "/" = false.
Proof.
  intros Hs. pose proof (plain_slash_free s Hs) as Hfree.
  destruct (plain_not_special s Hs) as (Hne & _ & _).
  destruct s as [| c rest]; [done |]. exists c, rest. split; [done |].
  unfold Path.slash_free in Hfree. simpl in Hfree.
  apply andb_true_iff in Hfree as [Hc _]. by apply negb_true_iff in Hc.
Qed.

Lemma join_head p rest :
  exists tail, JsString.join "/" (p :: rest) = p +:+ tail.
Proof.
  destruct rest as [| q rest].
  - exists "". simpl. by rewrite string_app_empty.
  - eexists. apply join_cons.
Qed.

Lemma joined_relative segs :
  segs ≠ [] -> Forall (fun s => Path.is_plain s = true) segs ->
  is_empty (JsString.join "/" segs) = false
  /\ starts_with_slash (JsString.join "/" segs) = false.
Proof.
  intros Hne Hall. destruct segs as [| p rest]; [done |].
  inversion Hall as [| ? ? Hp _]; subst.
  destruct (plain_head p Hp) as (c & p' & -> & Hc).
  destruct (join_head (String c p') rest) as [tail ->].
  change (String c p' +:+ tail) with (String c (p' +:+ tail)).
  simpl. by rewrite Hc.
Qed.

Lemma ends_with_slash_app a b :
  is_empty b = false -> ends_with_slash (a +:+ b) = ends_with_slash b.
Proof.
  intros Hb. unfold ends_with_slash. rewrite chars_app, rev_app_distr.
  destruct b as [| c b]; [done |].
  change (chars (String c b)) with (c :: chars b). simpl.
  destruct (rev (chars b)); reflexivity.
Qed.

Lemma plain_no_trailing_slash s :
  Path.is_plain s = true -> ends_with_slash s = false.
Proof.
  intros Hs. pose proof (plain_slash_free s Hs) as Hfree.
  unfold Path.slash_free in Hfree. unfold ends_with_slash.
  rewrite <- forallb_reverse in Hfree.
  destruct (rev (chars s)) as [| c r]; [done |].
  simpl in Hfree. apply andb_true_iff in Hfree as [Hc _].
  by apply negb_true_iff in Hc.
Qed.

Lemma plain_not_empty s : Path.is_plain s = true -> is_empty s = false.
Proof.
  intros Hs. apply is_empty_false. by destruct (plain_not_special s Hs).
Qed.

Lemma joined_no_trailing_slash segs :
  segs ≠ [] -> Forall (fun s => Path.is_plain s = true) segs ->
  ends_with_slash (JsString.join "/" segs) = false.
Proof.
  induction segs as [| p rest IH]; [done |]. intros _ Hall.
  inversion Hall as [| ? ? Hp Hrest]; subst.
  destruct rest as [| q rest]; [by apply plain_no_trailing_slash |].
  rewrite join_cons.
  rewrite ends_with_slash_app by reflexivity.
  rewrite ends_with_slash_app.
  - by apply IH.
  - by apply joined_relative.
Qed.

Lemma join_snoc segs b :
  segs ≠ [] ->
  JsString.join "/" (segs ++ [b]) = JsString.join "/" segs +:+ "/" +:+ b.
Proof.
  induction segs as [| p rest IH]; [done |]. intros _.
  destruct rest as [| q rest]; [reflexivity |].
  change ((p :: q :: rest) ++ [b]) with (p :: (q :: rest) ++ [b]).
  change ((q :: rest) ++ [b]) with (q :: rest ++ [b]) at 1.
  rewrite join_cons.
  change (q :: rest ++ [b]) with ((q :: rest) ++ [b]).
  rewrite IH by done. rewrite join_cons.
  by rewrite !string_app_assoc.
Qed.

(** A relative path of ordinary segments is already normal. *)
Lemma normalize_joined segs :
  segs ≠ [] -> Forall (fun s => Path.is_plain s = true) segs ->
  Path.normalize (JsString.join "/" segs) = JsString.join "/" segs.
Proof.
  intros Hne Hall. unfold Path.normalize, Path.normalizeString.
  destruct (joined_relative segs Hne Hall) as [Hempty Hrel].
  rewrite Hempty, Hrel, joined_no_trailing_slash by assumption.
  destruct (split_join_plain segs Hall) as [Hord Hfilter].
  rewrite normalize_segments_ordinary by exact Hord.
  simpl. by rewrite Hfilter, Hempty.
Qed.

(** [path.join] of ordinary segments puts slashes between them. *)
Lemma join_plain segs :
  segs ≠ [] -> Forall (fun s => Path.is_plain s = true) segs ->
  Path.join segs = JsString.join "/" segs.
Proof.
  intros Hne Hall. unfold Path.join.
  rewrite filter_keeps_all.
  - destruct segs; [done |]. by apply normalize_joined.
  - eapply Forall_impl; [exact Hall |]. intros s Hs. simpl.
    by destruct (plain_not_special s Hs).
Qed.

(** A file name joined to a relative directory of ordinary segments. *)
Lemma join_child_relative segs b :
  segs ≠ [] -> Forall (fun s => Path.is_plain s = true) segs ->
  Path.is_plain b = true ->
  Path.join [JsString.join "/" segs; b] = JsString.join "/" (segs ++ [b]).
Proof.
  intros Hne Hall Hb. unfold Path.join.
  destruct (joined_relative segs Hne Hall) as [Hempty _].
  apply is_empty_false in Hempty.
  destruct (plain_not_special b Hb) as (Hbne & _ & _).
  rewrite filter_cons_True by done. rewrite filter_cons_True by done.
  rewrite filter_nil.
  change (JsString.join "/" [JsString.join "/" segs; b])
    with (JsString.join "/" segs +:+ "/" +:+ b).
  rewrite <- join_snoc by exact Hne.
  apply normalize_joined.
  - by destruct segs.
  - apply Forall_app. split; [exact Hall | by constructor].
Qed.


Lemma of_segments_absolute segs :
  is_empty (Path.of_segments segs) = false
  /\ starts_with_slash (Path.of_segments segs) = true.
Proof. by split. Qed.

(** An absolute path of ordinary segments resolves to itself. *)
Lemma resolve_of_segments cwd segs :
  Forall (fun s => Path.is_plain s = true) segs ->
  Path.resolve cwd [Path.of_segments segs] = Path.of_segments segs.
Proof.
  intros Hall. unfold Path.resolve. simpl.
  unfold Path.normalizeString. rewrite split_at, split_empty.
  destruct (split_of_segments segs [""] Hall) as [Hord Hfilter];
    [repeat constructor; by left |].
  rewrite normalize_segments_ordinary by exact Hord.
  rewrite Hfilter. simpl. by rewrite app_nil_r.
Qed.

(** A relative path of ordinary segments resolves below the working
    directory. *)
Lemma resolve_relative csegs rsegs :
  Forall (fun s => Path.is_plain s = true) csegs ->
  rsegs ≠ [] -> Forall (fun s => Path.is_plain s = true) rsegs ->
  Path.resolve (Path.of_segments csegs) [JsString.join "/" rsegs]
  = Path.of_segments (csegs ++ rsegs).
Proof.
  intros Hc Hne Hr. unfold Path.resolve. simpl.
  destruct (joined_relative rsegs Hne Hr) as [Hempty Hrel].
  rewrite Hempty, Hrel. simpl.
  unfold Path.normalizeString. rewrite split_at, split_at, split_empty.
  destruct (split_join_plain rsegs Hr) as [Hord Hfilter].
  destruct (split_of_segments csegs
              (split "/" (JsString.join "/" rsegs) ++ [""]) Hc)
    as [Hord' Hfilter'].
  { apply Forall_app. split; [exact Hord | repeat constructor; by left]. }
  rewrite normalize_segments_ordinary by exact Hord'.
  rewrite Hfilter', filter_app, Hfilter. simpl.
  by rewrite app_nil_r.
Qed.

(** A file name joined to an absolute directory of ordinary segments. *)
Lemma join_child_absolute segs b :
  Forall (fun s => Path.is_plain s = true) segs ->
  Path.is_plain b = true ->
  Path.join [Path.of_segments segs; b] = Path.of_segments (segs ++ [b]).
Proof.
  intros Hall Hb. unfold Path.join.
  destruct (plain_not_special b Hb) as (Hbne & _ & _).
  rewrite filter_cons_True by done. rewrite filter_cons_True by done.
  rewrite filter_nil.
  change (JsString.join "/" [Path.of_segments segs; b])
    with (Path.of_segments segs +:+ "/" +:+ b).
  unfold Path.normalize, Path.normalizeString.
  change (is_empty (Path.of_segments segs +:+ "/" +:+ b)) with false.
  change (starts_with_slash (Path.of_segments segs +:+ "/" +:+ b)) with true.
  cbn [negb].
  rewrite ends_with_slash_app by reflexivity.
  rewrite ends_with_slash_app by (by apply plain_not_empty).
  rewrite plain_no_trailing_slash by exact Hb.
  rewrite split_at, (split_free b) by (by apply plain_slash_free).
  destruct (split_of_segments segs [b] Hall) as [Hord Hfilter];
    [constructor; [by right | constructor] |].
  rewrite normalize_segments_ordinary by exact Hord.
  rewrite Hfilter. rewrite filter_cons_True by done. rewrite filter_nil.
  simpl.
  assert (Hq : is_empty (JsString.join "/" (segs ++ [b])) = false).
  { apply joined_relative; [by destruct segs |].
    apply Forall_app. split; [exact Hall | by constructor]. }
  by rewrite Hq.
Qed.

Lemma of_segments_root segs :
  Forall (fun s => Path.is_plain s = true) segs ->
  Path.of_segments segs = "/" <-> segs = [].
Proof.
  intros Hall. split; [| by intros ->].
  intros Heq. apply (of_segments_inj segs []); [exact Hall | constructor |].
  exact Heq.
Qed.

Lemma of_segments_snoc segs b :
  Forall (fun s => Path.is_plain s = true) segs ->
  (if bool_decide (Path.of_segments segs = "/") then "/" +:+ b
   else Path.of_segments segs +:+ "/" +:+ b)
  = Path.of_segments (segs ++ [b]).
Proof.
  intros Hall. case_bool_decide as Hroot.
  - apply of_segments_root in Hroot; [| exact Hall]. by subst.
  - assert (Hne : segs ≠ []) by (intros ->; by apply Hroot).
    unfold Path.of_segments. rewrite join_snoc by exact Hne.
    by rewrite !string_app_assoc.
Qed.

(** The chain of directories down to a path: one per prefix of its
    segments. *)
Lemma prefixes_from_of_segments pre segs :
  Forall (fun s => Path.is_plain s = true) pre ->
  Forall (fun s => Path.is_plain s = true) segs ->
  Path.prefixes_from (Path.of_segments pre) segs
  = map (fun k => Path.of_segments (pre ++ take k segs))
        (seq 1 (length segs)).
Proof.
  revert pre. induction segs as [| s rest IH]; intros pre Hpre Hsegs; [done |].
  inversion Hsegs as [| ? ? Hs Hrest]; subst.
  cbn [Path.prefixes_from]. rewrite of_segments_snoc by exact Hpre.
  rewrite IH; [| apply Forall_app; split; [done | by constructor] | done].
  cbn [length seq map]. f_equal.
  rewrite <- (seq_shift (length rest) 1), map_map. apply map_ext. intros k.
  by rewrite <- app_assoc.
Qed.

Lemma ancestors_of_segments segs :
  Forall (fun s => Path.is_plain s = true) segs ->
  Path.ancestors_and_self (Path.of_segments segs)
  = map (fun k => Path.of_segments (take k segs)) (seq 0 (S (length segs))).
Proof.
  intros Hall. unfold Path.ancestors_and_self.
  destruct (split_of_segments segs [] Hall) as [_ Hfilter]; [constructor |].
  rewrite !app_nil_r in Hfilter. rewrite Hfilter.
  change "/" with (Path.of_segments []) at 2.
  rewrite prefixes_from_of_segments by (done || constructor).
  reflexivity.
Qed.

(** A path is the last of its chain. *)
Lemma self_in_ancestors segs :
  Forall (fun s => Path.is_plain s = true) segs ->
  Path.of_segments segs ∈ Path.ancestors_and_self (Path.of_segments segs).
Proof.
  intros Hall. rewrite ancestors_of_segments by exact Hall.
  apply list_elem_of_fmap. exists (length segs). split.
  - by rewrite firstn_all.
  - apply list_elem_of_In, in_seq. lia.
Qed.

(** A child is not in the chain of its parent. *)
Lemma child_not_in_ancestors segs b :
  Forall (fun s => Path.is_plain s = true) segs ->
  Path.is_plain b = true ->
  Path.of_segments (segs ++ [b])
    ∉ Path.ancestors_and_self (Path.of_segments segs).
Proof.
  intros Hall Hb Hin. rewrite ancestors_of_segments in Hin by exact Hall.
  apply list_elem_of_fmap in Hin as (k & Heq & _).
  apply of_segments_inj in Heq.
  - apply (f_equal (@length string)) in Heq.
    rewrite length_app, length_take in Heq. simpl in Heq. lia.
  - apply Forall_app. split; [exact Hall | by constructor].
  - by apply Forall_take.
Qed.

Lemma dirname_child segs b :
  Forall (fun s => Path.is_plain s = true) segs ->
  Path.is_plain b = true ->
  Path.dirname (Path.of_segments (segs ++ [b])) = Path.of_segments segs.
Proof.
  intros Hall Hb. unfold Path.dirname.
  rewrite ancestors_of_segments
    by (apply Forall_app; split; [exact Hall | by constructor]).
  rewrite length_app. cbn [length]. rewrite Nat.add_1_r.
  rewrite (seq_S (S (length segs))), (seq_S (length segs)).
  rewrite !map_app, !rev_app_distr. cbn [map rev app Nat.add].
  by rewrite take_app_length.
Qed.

(** With an absolute working directory [path.resolve] always yields an
    absolute path of ordinary segments. *)
Lemma resolve_scan_absolute rargs cwd acc :
  starts_with_slash cwd = true ->
  snd (Path.resolve_scan (rargs ++ [cwd]) acc) = true.
Proof.
  intros Hcwd. revert acc. induction rargs as [| a rest IH]; intros acc; simpl.
  - destruct cwd; [done |]. simpl in *. by rewrite Hcwd.
  - destruct (is_empty a); [apply IH |].
    destruct (starts_with_slash a); [done | apply IH].
Qed.

Lemma resolve_normal cwd args :
  starts_with_slash cwd = true ->
  exists segs,
    Forall (fun s => Path.is_plain s = true) segs
    /\ Path.resolve cwd args = Path.of_segments segs.
Proof.
  intros Hcwd. unfold Path.resolve.
  pose proof (resolve_scan_absolute (rev args) cwd "" Hcwd) as Habs.
  destruct (Path.resolve_scan (rev args ++ [cwd]) "") as [rp absolute].
  simpl in Habs. subst absolute.
  exists (Path.normalize_segments false (split "/" rp) []).
  split; [| reflexivity].
  apply normalize_segments_plain; [apply split_pieces | constructor].
Qed.

End PathFacts.

(* ===================================================================== *)
(** * The orchestrator and the pull of the translations                    *)
(* ===================================================================== *)

Section Persist.
Variable env : environment.

Lemma existsSync_absent p (w : world) :
  fs_files (w_fs w) !! Fs.abs env p = None ->
  Fs.abs env p ∉ fs_dirs (w_fs w) ->
  Fs.existsSync env p w = (Ok false, w).
Proof.
  intros Hfile Hdir. unfold Fs.existsSync. rewrite Hfile.
  rewrite bool_decide_eq_false_2 by (intros [? ?]; discriminate).
  by rewrite bool_decide_eq_false_2.
Qed.

Lemma existsSync_directory p (w : world) :
  Fs.abs env p ∈ fs_dirs (w_fs w) ->
  Fs.existsSync env p w = (Ok true, w).
Proof.
  intros Hdir. unfold Fs.existsSync.
  rewrite (bool_decide_eq_true_2 (Fs.abs env p ∈ _)) by exact Hdir.
  by rewrite orb_true_r.
Qed.

Lemma mkdirSync_recursive_creates p (w : world) :
  Forall (fun d => fs_files (w_fs w) !! d = None)
         (Path.ancestors_and_self (Fs.abs env p)) ->
  Fs.mkdirSync_recursive env p w
  = (Ok tt,
     mk_world
       (mk_fs (fs_files (w_fs w))
              (fs_dirs (w_fs w)
                 ∪ list_to_set (Path.ancestors_and_self (Fs.abs env p))))
       (w_fs_calls w ++ [CallMkdir p]) (w_fetched w) (w_console w)).
Proof.
  intros Hfree. unfold Fs.mkdirSync_recursive. cbv zeta.
  assert (Hall : forallb
                   (fun d => bool_decide
                               (fs_files (w_fs (note_fs_call (CallMkdir p) w))
                                  !! d = None))
                   (Path.ancestors_and_self (Fs.abs env p)) = true).
  { apply forallb_forall. intros d Hd. apply bool_decide_eq_true_2.
    rewrite Forall_forall in Hfree. apply Hfree. by apply list_elem_of_In. }
  by rewrite Hall.
Qed.

(** The three outcomes of [mkdirSync]. *)
Lemma mkdirSync_recursive_outcome p (w : world) :
  let chain := Path.ancestors_and_self (Fs.abs env p) in
  let noted := note_fs_call (CallMkdir p) w in
  (Forall (fun d => fs_files (w_fs w) !! d = None) chain
   /\ Fs.mkdirSync_recursive env p w
      = (Ok tt,
         mk_world
           (mk_fs (fs_files (w_fs w))
                  (fs_dirs (w_fs w) ∪ list_to_set chain))
           (w_fs_calls w ++ [CallMkdir p]) (w_fetched w) (w_console w)))
  \/ (Fs.below_file (w_fs w) (Fs.abs env p) = true
      /\ Fs.mkdirSync_recursive env p w
         = (Throw (Fs.ErrnoError "ENOTDIR" p), noted))
  \/ (is_Some (fs_files (w_fs w) !! Fs.abs env p)
      /\ Fs.mkdirSync_recursive env p w
         = (Throw (Fs.ErrnoError "EEXIST" p), noted)).
Proof.
  intros chain noted. unfold Fs.mkdirSync_recursive. cbv zeta.
  fold chain noted.
  change (w_fs noted) with (w_fs w).
  destruct (forallb _ chain) eqn:Hall.
  - left. split; [| done].
    apply Forall_forall. intros d Hd.
    rewrite forallb_forall in Hall.
    apply list_elem_of_In, Hall in Hd. by apply bool_decide_eq_true_1 in Hd.
  - case_bool_decide as Hself; [by right; right |].
    right. left. split; [| done].
    unfold Fs.below_file. fold chain. apply existsb_exists.
    apply not_true_iff_false in Hall.
    destruct (existsb (fun d => negb (bool_decide
                                        (fs_files (w_fs w) !! d = None)))
                      chain) eqn:Hex.
    + apply existsb_exists in Hex as (d & Hd & Hfile).
      exists d. split; [exact Hd |].
      apply negb_true_iff, bool_decide_eq_false in Hfile.
      apply andb_true_iff. split.
      * apply bool_decide_eq_true_2. intros ->. apply Hself.
        destruct (fs_files (w_fs w) !! Fs.abs env p); [eauto | done].
      * apply bool_decide_eq_true_2.
        destruct (fs_files (w_fs w) !! d); [eauto | done].
    + exfalso. apply Hall. apply forallb_forall. intros d Hd.
      destruct (bool_decide (fs_files (w_fs w) !! d = None)) eqn:Hf;
        [done |].
      assert (Hin : existsb (fun d => negb (bool_decide
                                 (fs_files (w_fs w) !! d = None))) chain
                    = true).
      { apply existsb_exists. exists d. by rewrite Hf. }
      congruence.
Qed.

Lemma put_file_writes p d text (w : world) :
  d ∉ fs_dirs (w_fs w) ->
  Path.dirname d ∈ fs_dirs (w_fs w) ->
  Fs.put_file p d text w
  = (Ok tt,
     set_fs (mk_fs (<[d := text]> (fs_files (w_fs w))) (fs_dirs (w_fs w))) w).
Proof.
  intros Hnot Hparent. unfold Fs.put_file.
  rewrite bool_decide_eq_false_2 by exact Hnot.
  by rewrite bool_decide_eq_true_2 by exact Hparent.
Qed.

(** [pullTranslations] when the save directory does not exist yet: the
    directory and its missing parents are created, then the file is
    written. *)
Lemma pullTranslations_creates_and_writes
      configDir cfg client (w w1 : world) resp obj text :
  let saveDir := Path.resolve (env_cwd env)
                   [configDir; Job.save_path_or_empty cfg] in
  let file := Path.join [saveDir; "translations.json"] in
  let made := Path.ancestors_and_self (Fs.abs env saveDir) in
  Api.authenticatedGet client (Job.translations_url env cfg) None w
  = (Ok resp, w1) ->
  Js.get_prop (Api.data resp) "translations_object" = Ok obj ->
  Js.JSON_stringify obj 2 = Some text ->
  fs_files (w_fs w1) !! Fs.abs env saveDir = None ->
  Fs.abs env saveDir ∉ fs_dirs (w_fs w1) ->
  Forall (fun d => fs_files (w_fs w1) !! d = None) made ->
  Fs.abs env file ∉ fs_dirs (w_fs w1) ∪ list_to_set made ->
  Path.dirname (Fs.abs env file) ∈ fs_dirs (w_fs w1) ∪ list_to_set made ->
  Job.pullTranslations env configDir cfg client w
  = (Ok tt,
     mk_world
       (mk_fs (<[Fs.abs env file := text]> (fs_files (w_fs w1)))
              (fs_dirs (w_fs w1) ∪ list_to_set made))
       (w_fs_calls w1 ++ [CallMkdir saveDir; CallWriteFile file (Some text)])
       (w_fetched w1) (w_console w1)).
Proof.
  intros saveDir file made Hget Hobj Htext Hnofile Hnodir Hfree Hnot Hparent.
  unfold Job.pullTranslations, mbind, M_bind. fold saveDir. fold file.
  rewrite Hget. unfold lift_result. rewrite Hobj.
  rewrite existsSync_absent by assumption. cbn [negb when_true].
  rewrite mkdirSync_recursive_creates by exact Hfree. fold made.
  unfold Fs.writeFileSync. rewrite Htext. cbv zeta.
  rewrite put_file_writes by (cbn; assumption).
  unfold set_fs, note_fs_call. cbn. by rewrite <- app_assoc.
Qed.

(** [pullTranslations] when the save directory is already there: only the
    file is written. *)
Lemma pullTranslations_writes
      configDir cfg client (w w1 : world) resp obj text :
  let saveDir := Path.resolve (env_cwd env)
                   [configDir; Job.save_path_or_empty cfg] in
  let file := Path.join [saveDir; "translations.json"] in
  Api.authenticatedGet client (Job.translations_url env cfg) None w
  = (Ok resp, w1) ->
  Js.get_prop (Api.data resp) "translations_object" = Ok obj ->
  Js.JSON_stringify obj 2 = Some text ->
  Fs.abs env saveDir ∈ fs_dirs (w_fs w1) ->
  Fs.abs env file ∉ fs_dirs (w_fs w1) ->
  Path.dirname (Fs.abs env file) ∈ fs_dirs (w_fs w1) ->
  Job.pullTranslations env configDir cfg client w
  = (Ok tt,
     mk_world
       (mk_fs (<[Fs.abs env file := text]> (fs_files (w_fs w1)))
              (fs_dirs (w_fs w1)))
       (w_fs_calls w1 ++ [CallWriteFile file (Some text)])
       (w_fetched w1) (w_console w1)).
Proof.
  intros saveDir file Hget Hobj Htext Hdir Hnot Hparent.
  unfold Job.pullTranslations, mbind, M_bind. fold saveDir. fold file.
  rewrite Hget. unfold lift_result. rewrite Hobj.
  rewrite existsSync_directory by assumption. cbn [negb when_true].
  unfold mret, M_ret, Fs.writeFileSync. rewrite Htext. cbv zeta.
  by rewrite put_file_writes by (cbn; assumption).
Qed.

(** Where [pullTranslations] writes: with an absolute working directory
    the save directory is an absolute normal path and the file is its child
    translations.json. *)
Lemma save_paths configDir cfg :
  JsString.starts_with_slash (env_cwd env) = true ->
  let saveDir := Path.resolve (env_cwd env)
                   [configDir; Job.save_path_or_empty cfg] in
  let file := Path.join [saveDir; "translations.json"] in
  Fs.abs env saveDir = saveDir
  /\ Fs.abs env file = file
  /\ Path.dirname file = saveDir
  /\ saveDir ∈ Path.ancestors_and_self saveDir
  /\ file ∉ Path.ancestors_and_self saveDir.
Proof.
  intros Hcwd saveDir file.
  destruct (resolve_normal (env_cwd env)
              [configDir; Job.save_path_or_empty cfg] Hcwd)
    as (segs & Hsegs & Hsave).
  fold saveDir in Hsave.
  assert (Hfile : file = Path.of_segments (segs ++ ["translations.json"])).
  { unfold file. rewrite Hsave. by apply join_child_absolute. }
  assert (Hall : Forall (fun s => Path.is_plain s = true)
                        (segs ++ ["translations.json"])).
  { apply Forall_app. split; [exact Hsegs | by constructor]. }
  unfold Fs.abs. rewrite Hfile, Hsave.
  rewrite !resolve_of_segments by assumption.
  repeat split.
  - by apply dirname_child.
  - by apply self_in_ancestors.
  - by apply child_not_in_ancestors.
Qed.

End Persist.

(** C1 fails where the run goes past the submission of the plan.  On the
    sample site, with a service whose answer to the plan reports four
    translations to make, the plan is submitted and answered, the
    statements after the submission run, and [executeTranslation] is done.
    One request went out in all, the plan, so no job was created, nothing
    was polled and no translations were fetched; no [fs] function that
    writes was called and the disk is as before. *)
Lemma executeTranslation_stops_after_plan :
  let r := Job.executeTranslation Sample.hash Sample.plan_env Sample.config
             Sample.start in
  Terms.past_plan_submission Sample.start Sample.plan_answer r
  /\ map (fun q => (req_method q, req_url q)) (w_fetched (snd r))
     = [(Some "POST",
         BLENDIN_CLI_API_URL Sample.plan_env
           +:+ "/translation-jobs/generate-plan-from-entire-files")]
  /\ w_fs_calls (snd r) = []
  /\ w_fs (snd r) = w_fs Sample.start.
Proof.
  cbv zeta. split; [| split; [vm_compute; reflexivity |]].
  - split; [vm_compute; reflexivity |].
    split; [vm_compute; reflexivity |].
    exists 4. split; [reflexivity | lia].
  - destruct (executeTranslation_effects Sample.hash Sample.plan_env
                Sample.config Sample.start) as (Hfs & Hcalls & _).
    split; [exact Hcalls | exact Hfs].
Qed.

(** C1, amended: [executeTranslation] ends with the submission of the
    plan.  With its source files readable it sends one request, the POST
    of the plan to the plan address (none without a token, for which the
    client answers Unauthorized itself); when the request is answered
    with a body that parses it logs the answer and resolves, and when the
    request fails it rejects with that error and logs nothing.  When a
    source path holds no regular file it rejects with the error of
    [readFileSync] before any request.  In every case it calls no [fs]
    function that writes and leaves the disk as it was, and no request
    other than the plan goes out.  Fetching and persisting is what
    [pullTranslations] does when it is called: it gets the translations
    object through the client it is given and writes it, pretty-printed
    with two spaces, to translations.json under the resolved save path,
    creating that directory and its missing parents when it is absent. *)
Theorem executeTranslation_only_submits_plan hash env cfg (w : world) :
  let paths := default [] (parsing cfg ≫= sourceFilePaths) in
  let tok := ApiClient.token_or_empty
               (Some (Api.mk_client_config (project cfg ≫= apiToken))) in
  let req := Terms.plan_request hash env cfg w in
  let run := Job.executeTranslation hash env cfg w in
  (req_method req = Some "POST"
   /\ req_url req
      = BLENDIN_CLI_API_URL env
          +:+ "/translation-jobs/generate-plan-from-entire-files")
  /\ (w_fs (snd run) = w_fs w
      /\ w_fs_calls (snd run) = w_fs_calls w
      /\ (w_fetched (snd run) = w_fetched w
          \/ w_fetched (snd run) = w_fetched w ++ [req]))
  /\ (Forall (Spec.readable env w) paths -> tok = "" ->
      run = (Ok tt, Terms.logged_plan_response (VObj []) w))
  /\ (Forall (Spec.readable env w) paths -> tok ≠ "" ->
      run
      = match ApiClient.settle_within 30000
                (env_fetch env (length (w_fetched w)) req) with
        | Throw e => (Throw e, note_fetch req w)
        | Ok response =>
            match resp_json response with
            | Throw e => (Throw e, note_fetch req w)
            | Ok d =>
                (Ok tt, Terms.logged_plan_response d (note_fetch req w))
            end
        end)
  /\ (forall pre p post,
        paths = pre ++ p :: post ->
        Forall (Spec.readable env w) pre ->
        Spec.file_text env w p = None ->
        let d := Fs.abs env p in
        let code := if bool_decide (d ∈ fs_dirs (w_fs w)) then "EISDIR"
                    else if Fs.below_file (w_fs w) d then "ENOTDIR"
                    else "ENOENT" in
        run = (Throw (Fs.ErrnoError code p), w))
  /\ (forall configDir client (w1 : world) resp obj text,
        let saveDir := Path.resolve (env_cwd env)
                         [configDir; Job.save_path_or_empty cfg] in
        let file := Path.join [saveDir; "translations.json"] in
        let made := Path.ancestors_and_self saveDir in
        JsString.starts_with_slash (env_cwd env) = true ->
        Api.authenticatedGet client (Job.translations_url env cfg) None w
        = (Ok resp, w1) ->
        Js.get_prop (Api.data resp) "translations_object" = Ok obj ->
        Js.safe obj = true ->
        Js.JSON_stringify obj 2 = Some text ->
        file ∉ fs_dirs (w_fs w1) ->
        (saveDir ∉ fs_dirs (w_fs w1) ->
         Forall (fun d => fs_files (w_fs w1) !! d = None) made ->
         Job.pullTranslations env configDir cfg client w
         = (Ok tt,
            mk_world
              (mk_fs (<[file := text]> (fs_files (w_fs w1)))
                     (fs_dirs (w_fs w1) ∪ list_to_set made))
              (w_fs_calls w1
                 ++ [CallMkdir saveDir; CallWriteFile file (Some text)])
              (w_fetched w1) (w_console w1)))
        /\ (saveDir ∈ fs_dirs (w_fs w1) ->
            Job.pullTranslations env configDir cfg client w
            = (Ok tt,
               mk_world
                 (mk_fs (<[file := text]> (fs_files (w_fs w1)))
                        (fs_dirs (w_fs w1)))
                 (w_fs_calls w1 ++ [CallWriteFile file (Some text)])
                 (w_fetched w1) (w_console w1)))).
Proof.
  intros paths tok req run.
  assert (Hnone : Forall (Spec.readable env w) paths -> tok = "" ->
                  run = (Ok tt, Terms.logged_plan_response (VObj []) w)).
  { intros Hread Htok. subst run.
    unfold Job.executeTranslation, mbind, M_bind.
    rewrite getFilesMetadata_readable by exact Hread.
    cbn [Api.authenticatedPost ApiClient.createAPIClient].
    rewrite authenticatedPost_without_token by exact Htok.
    apply console_log_twice. }
  assert (Hsent : Forall (Spec.readable env w) paths -> tok ≠ "" ->
            run
            = match ApiClient.settle_within 30000
                      (env_fetch env (length (w_fetched w)) req) with
              | Throw e => (Throw e, note_fetch req w)
              | Ok response =>
                  match resp_json response with
                  | Throw e => (Throw e, note_fetch req w)
                  | Ok d =>
                      (Ok tt,
                       Terms.logged_plan_response d (note_fetch req w))
                  end
              end).
  { intros Hread Htok. subst run.
    unfold Job.executeTranslation, mbind, M_bind.
    rewrite getFilesMetadata_readable by exact Hread.
    cbn [Api.authenticatedPost ApiClient.createAPIClient].
    rewrite authenticatedPost_with_token by exact Htok. cbv zeta.
    fold (Terms.plan_request hash env cfg w). fold req.
    unfold ApiClient.timeout.
    destruct (ApiClient.settle_within 30000 _) as [response | e]; [| done].
    unfold ApiClient.read_response, mbind, M_bind, lift_result.
    destruct (resp_json response) as [d | e]; [| done].
    apply console_log_twice. }
  assert (Hfails : forall pre p post,
            paths = pre ++ p :: post ->
            Forall (Spec.readable env w) pre ->
            Spec.file_text env w p = None ->
            run = (Throw (Spec.read_error env w p), w)).
  { intros pre p post Hpaths Hpre Hp. subst run.
    unfold Job.executeTranslation, Job.getFilesMetadata.
    fold paths. rewrite Hpaths. unfold mbind, M_bind.
    by rewrite getFilesMetadata_from_unreadable. }
  split; [by split |]. split; [| split; [exact Hnone |
    split; [exact Hsent | split; [exact Hfails |]]]].
  - destruct (first_unreadable env paths w)
      as [Hread | (pre & p & post & Hpaths & Hpre & Hp)].
    + destruct (decide (tok = "")) as [Htok | Htok].
      * rewrite (Hnone Hread Htok). simpl. auto.
      * rewrite (Hsent Hread Htok).
        destruct (ApiClient.settle_within 30000 _) as [response | e];
          [| simpl; auto].
        destruct (resp_json response) as [d | e]; simpl; auto.
    + rewrite (Hfails pre p post Hpaths Hpre Hp). simpl. auto.
  - intros configDir client w1 resp obj text saveDir file made
           Hcwd Hget Hobj Hsafe Htext Hnotdir.
    destruct (save_paths env configDir cfg Hcwd)
      as (Habs_dir & Habs_file & Hparent & Hself & Hchild).
    fold saveDir in Habs_dir, Habs_file, Hparent, Hself, Hchild.
    fold file in Habs_file, Hparent, Hchild.
    split.
    + intros Habsent Hfree.
      pose proof (pullTranslations_creates_and_writes env configDir cfg
                    client w w1 resp obj text Hget Hobj Htext) as Hpull.
      cbv zeta in Hpull. fold saveDir file in Hpull.
      rewrite Habs_dir, Habs_file, Hparent in Hpull. fold made in Hpull.
      apply Hpull.
      * rewrite Forall_forall in Hfree. by apply Hfree.
      * exact Habsent.
      * exact Hfree.
      * intros Hin. apply elem_of_union in Hin as [Hin | Hin]; [done |].
        by apply elem_of_list_to_set in Hin.
      * apply elem_of_union. right. by apply elem_of_list_to_set.
    + intros Hpresent.
      pose proof (pullTranslations_writes env configDir cfg client
                    w w1 resp obj text Hget Hobj Htext) as Hpull.
      cbv zeta in Hpull. fold saveDir file in Hpull.
      rewrite Habs_dir, Habs_file, Hparent in Hpull.
      by apply Hpull.
Qed.

Lemma executeTranslation_only_submits_plan_witness :
  let client :=
    ApiClient.createAPIClient Sample.env
      (Some (Api.mk_client_config (Some "secret"))) in
  let r := Job.pullTranslations Sample.env "translations" Sample.config client
             Sample.start in
  fst r = Ok tt
  /\ Spec.file_text Sample.env (snd r)
       "/site/translations/translations/translations.json"
     = Js.JSON_stringify (VObj [("hello", VStr "bonjour")]) 2
  /\ "/site/translations/translations" ∈ fs_dirs (w_fs (snd r)).
Proof.
  intros client r.
  destruct (executeTranslation_only_submits_plan Sample.hash Sample.env
              Sample.config Sample.start) as (_ & _ & _ & _ & _ & Hpull).
  destruct (Hpull "translations" client
              (note_fetch
                 (ApiClient.get_request Sample.env
                    (Job.translations_url Sample.env Sample.config) None
                    "secret")
                 Sample.start)
              (Api.mk_fetch_response
                 (VObj [("translation_job_id", VStr "42");
                        ("translations_total", VNum 3);
                        ("translations_completed", VNum 3);
                        ("translations_object",
                         VObj [("hello", VStr "bonjour")])])
                 200 "OK" [])
              (VObj [("hello", VStr "bonjour")])
              (default "" (Js.JSON_stringify
                             (VObj [("hello", VStr "bonjour")]) 2)))
    as [Hcreate _];
    [reflexivity | reflexivity | reflexivity | reflexivity | reflexivity
     | |].
  - decide_by_computation.
  - subst r. rewrite Hcreate.
    + split; [reflexivity |]. split; [vm_compute; reflexivity |].
      decide_by_computation.
    + decide_by_computation.
    + repeat constructor.
Defined.

(* ===================================================================== *)
(** * Locales and per-locale copies                                        *)
(* ===================================================================== *)

Section Copies.
Variable flags : string -> LocaleValue.
Variable env : environment.

Lemma put_file_calls p d text (w : world) :
  w_fs_calls (snd (Fs.put_file p d text w)) = w_fs_calls w.
Proof.
  unfold Fs.put_file.
  destruct (bool_decide _); [done |]. by destruct (bool_decide _).
Qed.




End Copies.






Example sample_target_locales :
  targetLocales (Utils.getLocalesConfig Sample.flags Sample.i18n)
  = Some [Some "fr"; Some "de"].
Proof. reflexivity. Qed.

Section Overwrite.
Variable env : environment.

(** One copy that goes through: the directories are made and the text of
    the source is now at the destination. *)
Lemma copy_one_succeeds locale file (w : world) text :
  let dir := Utils.destinationDir locale file in
  let dst := Utils.destinationPath locale file in
  let made := Path.ancestors_and_self (Fs.abs env dir) in
  Spec.file_text env w (Utils.sourceFilePath file) = Some text ->
  Fs.abs env (Utils.sourceFilePath file) ≠ Fs.abs env dst ->
  Forall (fun d => fs_files (w_fs w) !! d = None) made ->
  Fs.abs env dst ∉ fs_dirs (w_fs w) ∪ list_to_set made ->
  Path.dirname (Fs.abs env dst) ∈ fs_dirs (w_fs w) ∪ list_to_set made ->
  Utils.copy_one env locale file w
  = (Ok tt,
     mk_world
       (mk_fs (<[Fs.abs env dst := text]> (fs_files (w_fs w)))
              (fs_dirs (w_fs w) ∪ list_to_set made))
       (w_fs_calls w
          ++ [CallMkdir dir; CallCopyFile (Utils.sourceFilePath file) dst])
       (w_fetched w) (w_console w)).
Proof.
  intros dir dst made Htext Hne Hfree Hnot Hparent.
  unfold Utils.copy_one, mbind, M_bind. fold dir. fold dst.
  rewrite mkdirSync_recursive_creates by exact Hfree. fold made.
  unfold Fs.copyFileSync. cbv zeta. cbn [w_fs note_fs_call fs_files].
  unfold Spec.file_text in Htext. rewrite Htext.
  rewrite bool_decide_eq_false_2 by exact Hne.
  rewrite put_file_writes by (cbn; assumption).
  unfold set_fs. cbn. by rewrite <- app_assoc.
Qed.

End Overwrite.

(** Two files with the same base name and plugin, copied for one locale:
    both copies go to one destination, the second over the first, and the
    sources keep their texts. *)
Lemma copies_to_one_destination
        flags env (f1 f2 : Utils.SourceFilePathAndPluginName)
        locale defaultCode (w : world) t1 t2 :
  let dir := Utils.destinationDir locale f1 in
  let dst := Utils.destinationPath locale f1 in
  let made := Path.ancestors_and_self (Fs.abs env dir) in
  Path.basename (Utils.sourceFilePath f1)
  = Path.basename (Utils.sourceFilePath f2) ->
  Utils.pluginName f1 = Utils.pluginName f2 ->
  (dst = Path.join [Path.join ["i18n"; JsString.toLowerCase
                                         (Utils.String_of locale);
                               Utils.pluginName f1; "current"];
                    Path.basename (Utils.sourceFilePath f1)]
   /\ Utils.destinationPath locale f2 = dst)
  /\ (locale ≠ flags defaultCode ->
      Spec.file_text env w (Utils.sourceFilePath f1) = Some t1 ->
      Spec.file_text env w (Utils.sourceFilePath f2) = Some t2 ->
      Fs.abs env (Utils.sourceFilePath f1) ≠ Fs.abs env dst ->
      Fs.abs env (Utils.sourceFilePath f2) ≠ Fs.abs env dst ->
      Forall (fun d => fs_files (w_fs w) !! d = None) made ->
      Fs.abs env dst ∉ fs_dirs (w_fs w) ∪ list_to_set made ->
      Path.dirname (Fs.abs env dst) ∈ fs_dirs (w_fs w) ∪ list_to_set made ->
      let first := Utils.copySourceFilesToLocales flags env [f1] [locale]
                     defaultCode w in
      let both := Utils.copySourceFilesToLocales flags env [f1; f2] [locale]
                    defaultCode w in
      fst both = Ok tt
      /\ w_fs_calls (snd both)
         = w_fs_calls w
             ++ [CallMkdir dir; CallCopyFile (Utils.sourceFilePath f1) dst;
                 CallMkdir dir; CallCopyFile (Utils.sourceFilePath f2) dst]
      /\ Spec.file_text env (snd first) dst = Some t1
      /\ Spec.file_text env (snd both) dst = Some t2
      /\ Spec.file_text env (snd both) (Utils.sourceFilePath f1) = Some t1
      /\ Spec.file_text env (snd both) (Utils.sourceFilePath f2) = Some t2).
Proof.
  intros dir dst made Hbase Hplugin.
  assert (Hdir2 : Utils.destinationDir locale f2 = dir).
  { unfold dir, Utils.destinationDir. by rewrite Hplugin. }
  assert (Hdst2 : Utils.destinationPath locale f2 = dst).
  { unfold dst, Utils.destinationPath. by rewrite Hdir2, Hbase. }
  split; [split; [reflexivity | exact Hdst2] |].
  intros Hlocale Ht1 Ht2 Hne1 Hne2 Hfree Hnot Hparent first both.
  assert (Hnot_made : Fs.abs env dst ∉ (list_to_set made : gset string)).
  { intros Hin. apply Hnot. apply elem_of_union. by right. }
  pose proof (copy_one_succeeds env locale f1 w t1 Ht1 Hne1 Hfree Hnot Hparent)
    as Hfirst. fold dir dst made in Hfirst.
  set (w1 := mk_world
               (mk_fs (<[Fs.abs env dst := t1]> (fs_files (w_fs w)))
                      (fs_dirs (w_fs w) ∪ list_to_set made))
               (w_fs_calls w
                  ++ [CallMkdir dir;
                      CallCopyFile (Utils.sourceFilePath f1) dst])
               (w_fetched w) (w_console w)) in *.
  assert (Hsecond :
            Utils.copy_one env locale f2 w1
            = (Ok tt,
               mk_world
                 (mk_fs (<[Fs.abs env dst := t2]> (fs_files (w_fs w1)))
                        (fs_dirs (w_fs w1) ∪ list_to_set made))
                 (w_fs_calls w1
                    ++ [CallMkdir dir;
                        CallCopyFile (Utils.sourceFilePath f2) dst])
                 (w_fetched w1) (w_console w1))).
  { pose proof (copy_one_succeeds env locale f2 w1 t2) as H2.
    rewrite Hdir2, Hdst2 in H2. fold made in H2. apply H2.
    - unfold Spec.file_text, w1. cbn. by rewrite lookup_insert_ne.
    - exact Hne2.
    - unfold w1. cbn. rewrite Forall_forall in Hfree |- *.
      intros d Hd. rewrite lookup_insert_ne; [by apply Hfree |].
      intros Heq. subst d. apply Hnot_made. by apply elem_of_list_to_set.
    - unfold w1. cbn. intros Hin. apply Hnot.
      apply elem_of_union in Hin as [Hin | Hin]; [exact Hin |].
      apply elem_of_union. by right.
    - unfold w1. cbn. apply elem_of_union. by left. }
  assert (Hrun1 : first = (Ok tt, w1)).
  { unfold first, Utils.copySourceFilesToLocales. simpl.
    rewrite bool_decide_eq_false_2 by exact Hlocale.
    unfold mbind, M_bind. simpl. unfold mbind, M_bind.
    by rewrite Hfirst. }
  assert (Hrun2 : both
                  = (Ok tt,
                     mk_world
                       (mk_fs (<[Fs.abs env dst := t2]> (fs_files (w_fs w1)))
                              (fs_dirs (w_fs w1) ∪ list_to_set made))
                       (w_fs_calls w1
                          ++ [CallMkdir dir;
                              CallCopyFile (Utils.sourceFilePath f2) dst])
                       (w_fetched w1) (w_console w1))).
  { unfold both, Utils.copySourceFilesToLocales. simpl.
    rewrite bool_decide_eq_false_2 by exact Hlocale.
    unfold mbind, M_bind. simpl. unfold mbind, M_bind.
    by rewrite Hfirst, Hsecond. }
  rewrite Hrun1, Hrun2. unfold Spec.file_text, w1. cbn.
  split; [done |]. split; [by rewrite <- app_assoc |].
  split; [by rewrite lookup_insert_eq |].
  split; [by rewrite lookup_insert_eq |].
  unfold Spec.file_text in Ht1, Ht2.
  split; by rewrite !lookup_insert_ne.
Qed.

Section Destinations.
Variable env : environment.
Variable csegs : list string.
Hypothesis cwd_normal : env_cwd env = Path.of_segments csegs.
Hypothesis cwd_plain : Forall (fun s => Path.is_plain s = true) csegs.

(** With ordinary names the destination is the plain concatenation
    i18n/<code>/<plugin>/current/<name>. *)
Lemma destination_of_plain locale (file : Utils.SourceFilePathAndPluginName) :
  let code := JsString.toLowerCase (Utils.String_of locale) in
  let plugin := Utils.pluginName file in
  let name := Path.basename (Utils.sourceFilePath file) in
  Path.is_plain code = true -> Path.is_plain plugin = true ->
  Path.is_plain name = true ->
  Utils.destinationDir locale file
  = JsString.join "/" ["i18n"; code; plugin; "current"]
  /\ Utils.destinationPath locale file
     = JsString.join "/" ["i18n"; code; plugin; "current"; name].
Proof.
  intros code plugin name Hcode Hplugin Hname.
  assert (Hsegs : Forall (fun s => Path.is_plain s = true)
                         ["i18n"; code; plugin; "current"]).
  { repeat constructor; assumption. }
  assert (Hdir : Utils.destinationDir locale file
                 = JsString.join "/" ["i18n"; code; plugin; "current"]).
  { unfold Utils.destinationDir. fold code plugin. by apply join_plain. }
  split; [exact Hdir |].
  unfold Utils.destinationPath. rewrite Hdir. fold name.
  by rewrite join_child_relative.
Qed.

Lemma destination_absolute locale (file : Utils.SourceFilePathAndPluginName) :
  let code := JsString.toLowerCase (Utils.String_of locale) in
  let plugin := Utils.pluginName file in
  let name := Path.basename (Utils.sourceFilePath file) in
  let dirs := csegs ++ ["i18n"; code; plugin; "current"] in
  Path.is_plain code = true -> Path.is_plain plugin = true ->
  Path.is_plain name = true ->
  Forall (fun s => Path.is_plain s = true) dirs
  /\ Fs.abs env (Utils.destinationDir locale file) = Path.of_segments dirs
  /\ Fs.abs env (Utils.destinationPath locale file)
     = Path.of_segments (dirs ++ [name]).
Proof.
  intros code plugin name dirs Hcode Hplugin Hname.
  destruct (destination_of_plain locale file Hcode Hplugin Hname)
    as [-> ->]. fold code plugin name.
  assert (Hsegs : Forall (fun s => Path.is_plain s = true)
                         ["i18n"; code; plugin; "current"]).
  { repeat constructor; assumption. }
  split; [apply Forall_app; by split |].
  unfold Fs.abs. rewrite cwd_normal. split.
  - by apply resolve_relative.
  - rewrite resolve_relative; [| done | done |].
    + unfold dirs. by rewrite <- app_assoc.
    + repeat constructor; assumption.
Qed.

End Destinations.

(** C10 fails for a source file that lies at the destination itself.  On
    a site that lists an earlier French copy of the introduction among
    its source files, that copy and the introduction have one base name
    and plugin and so one destination, the earlier copy's own path.  The
    run succeeds; the first copy replaces the text of the second source
    file, and the second copy, of the file onto itself, writes
    nothing. *)
Lemma source_at_destination_is_overwritten :
  let f1 := Sample.intro in
  let f2 := Sample.french_intro in
  let first := Utils.copySourceFilesToLocales Sample.flags Sample.env
                 [f1] [Some "fr"] "en" Sample.translated_start in
  let both := Utils.copySourceFilesToLocales Sample.flags Sample.env
                [f1; f2] [Some "fr"] "en" Sample.translated_start in
  f1 ≠ f2
  /\ Path.basename (Utils.sourceFilePath f1)
     = Path.basename (Utils.sourceFilePath f2)
  /\ Utils.pluginName f1 = Utils.pluginName f2
  /\ Utils.destinationPath (Some "fr") f1 = Utils.sourceFilePath f2
  /\ Utils.destinationPath (Some "fr") f2 = Utils.sourceFilePath f2
  /\ fst both = Ok tt
  /\ Spec.file_text Sample.env Sample.translated_start
       (Utils.sourceFilePath f2)
     = Some "# Introduction"
  /\ Spec.file_text Sample.env (snd both) (Utils.sourceFilePath f2)
     = Spec.file_text Sample.env Sample.translated_start
         (Utils.sourceFilePath f1)
  /\ Spec.file_text Sample.env (snd both) (Utils.sourceFilePath f2)
     ≠ Some "# Introduction"
  /\ w_fs (snd both) = w_fs (snd first).
Proof.
  cbv zeta. split; [discriminate |].
  repeat split; try (vm_compute; reflexivity).
  vm_compute. discriminate.
Qed.

(** C10, amended: a copy goes to i18n/<lower-cased locale>/<plugin>/
    current/<base name of the source path>, these names being ordinary
    path segments; the directories of the source path play no part, so two
    source files with the same base name and plugin get the same
    destination for a locale.  When both exist, neither lies at that
    destination and nothing is in the way of the destination directory,
    copying the two for one target locale writes both to that one path:
    after the first copy it holds the first text, at the end the second,
    and both source files still hold their own texts. *)
Theorem same_basename_same_destination
        flags env csegs (f1 f2 : Utils.SourceFilePathAndPluginName)
        locale defaultCode (w : world) t1 t2 :
  let code := JsString.toLowerCase (Utils.String_of locale) in
  let plugin := Utils.pluginName f1 in
  let name := Path.basename (Utils.sourceFilePath f1) in
  let dir := "i18n/" +:+ code +:+ "/" +:+ plugin +:+ "/current" in
  let dst := dir +:+ "/" +:+ name in
  Path.basename (Utils.sourceFilePath f2) = name ->
  Utils.pluginName f2 = plugin ->
  Path.is_plain code = true ->
  Path.is_plain plugin = true ->
  Path.is_plain name = true ->
  (Utils.destinationPath locale f1 = dst
   /\ Utils.destinationPath locale f2 = dst)
  /\ (env_cwd env = Path.of_segments csegs ->
      Forall (fun s => Path.is_plain s = true) csegs ->
      locale ≠ flags defaultCode ->
      Spec.file_text env w (Utils.sourceFilePath f1) = Some t1 ->
      Spec.file_text env w (Utils.sourceFilePath f2) = Some t2 ->
      Fs.abs env (Utils.sourceFilePath f1) ≠ Fs.abs env dst ->
      Fs.abs env (Utils.sourceFilePath f2) ≠ Fs.abs env dst ->
      Forall (fun d => fs_files (w_fs w) !! d = None)
             (Path.ancestors_and_self (Fs.abs env dir)) ->
      Fs.abs env dst ∉ fs_dirs (w_fs w) ->
      let first := Utils.copySourceFilesToLocales flags env [f1] [locale]
                     defaultCode w in
      let both := Utils.copySourceFilesToLocales flags env [f1; f2] [locale]
                    defaultCode w in
      fst both = Ok tt
      /\ w_fs_calls (snd both)
         = w_fs_calls w
             ++ [CallMkdir dir; CallCopyFile (Utils.sourceFilePath f1) dst;
                 CallMkdir dir; CallCopyFile (Utils.sourceFilePath f2) dst]
      /\ Spec.file_text env (snd first) dst = Some t1
      /\ Spec.file_text env (snd both) dst = Some t2
      /\ Spec.file_text env (snd both) (Utils.sourceFilePath f1) = Some t1
      /\ Spec.file_text env (snd both) (Utils.sourceFilePath f2) = Some t2).
Proof.
  intros code plugin name dir dst Hbase Hplugin Hcode Hplug Hname.
  destruct (destination_of_plain locale f1 Hcode Hplug Hname) as [Hdir Hdst].
  fold code plugin name in Hdir, Hdst.
  assert (Hdir' : Utils.destinationDir locale f1 = dir) by exact Hdir.
  assert (Hdst' : Utils.destinationPath locale f1 = dst).
  { rewrite Hdst.
    change ["i18n"; code; plugin; "current"; name]
      with (["i18n"; code; plugin; "current"] ++ [name]).
    by rewrite join_snoc. }
  destruct (copies_to_one_destination flags env f1 f2 locale defaultCode w
              t1 t2) as [[_ Hsame] Hrun]; [by rewrite Hbase | by rewrite Hplugin |].
  rewrite Hdir', Hdst' in Hrun. rewrite Hdst' in Hsame.
  split; [by split |].
  intros Hcwd Hcsegs Hlocale Ht1 Ht2 Hne1 Hne2 Hfree Hnotdir.
  destruct (destination_absolute env csegs Hcwd Hcsegs locale f1
              Hcode Hplug Hname) as (Hall & Habs_dir & Habs_dst).
  fold code plugin name in Hall, Habs_dir, Habs_dst.
  rewrite Hdir' in Habs_dir. rewrite Hdst' in Habs_dst.
  apply Hrun; try assumption.
  - intros Hin. apply elem_of_union in Hin as [Hin | Hin]; [done |].
    apply elem_of_list_to_set in Hin. revert Hin.
    rewrite Habs_dir, Habs_dst. by apply child_not_in_ancestors.
  - apply elem_of_union. right. apply elem_of_list_to_set.
    rewrite Habs_dst, Habs_dir, dirname_child by assumption.
    by apply self_in_ancestors.
Qed.

Lemma same_basename_same_destination_witness :
  let both := Utils.copySourceFilesToLocales Sample.flags Sample.env
                [Sample.intro; Sample.nested_intro] [Some "FR"] "en"
                Sample.nested_start in
  fst both = Ok tt
  /\ Spec.file_text Sample.env (snd both)
       "i18n/fr/docusaurus-plugin-content-docs/current/intro.md"
     = Some "# API"
  /\ Spec.file_text Sample.env (snd both) "/site/docs/intro.md"
     = Spec.file_text Sample.env Sample.nested_start "/site/docs/intro.md".
Proof.
  intros both.
  destruct (same_basename_same_destination Sample.flags Sample.env ["site"]
              Sample.intro Sample.nested_intro (Some "FR") "en"
              Sample.nested_start
              (String "010" "# Intro" +:+ String "010" "") "# API")
    as [_ Hrun]; [reflexivity | reflexivity | reflexivity | reflexivity
                  | reflexivity |].
  destruct Hrun as (Hok & _ & _ & Hlast & Hsrc & _).
  - reflexivity.
  - repeat constructor.
  - vm_compute. discriminate.
  - vm_compute. reflexivity.
  - vm_compute. reflexivity.
  - vm_compute. discriminate.
  - vm_compute. discriminate.
  - repeat constructor.
  - decide_by_computation.
  - split; [exact Hok |]. split; [exact Hlast |].
    etrans; [exact Hsrc |]. vm_compute. reflexivity.
Defined.

(* ===================================================================== *)
(** * Further properties of the code                                       *)
(* ===================================================================== *)


Section ReadingFiles.
Import JsString.

Lemma of_chars_app a b : of_chars (a ++ b) = of_chars a +:+ of_chars b.
Proof.
  induction a as [| c a IH]; [done |].
  change (String c (of_chars (a ++ b)) = String c (of_chars a +:+ of_chars b)).
  by rewrite IH.
Qed.

Lemma split_chars_nonempty sep cur l : split_chars sep cur l ≠ [].
Proof.
  revert cur. induction l as [| c l IH]; intros cur; simpl; [done |].
  destruct (Ascii.eqb c sep); [done | apply IH].
Qed.

(** Joining what a split gave puts the text together again. *)
Lemma join_split_chars cur l :
  JsString.join "/" (map of_chars (split_chars "/" cur l))
  = of_chars (rev cur ++ l).
Proof.
  revert cur. induction l as [| c l IH]; intros cur; simpl.
  - by rewrite app_nil_r.
  - destruct (Ascii.eqb_spec c "/") as [-> | Hc].
    + pose proof (split_chars_nonempty "/" [] l) as Hne.
      pose proof (IH []) as Hrest. simpl in Hrest.
      destruct (split_chars "/" [] l) as [| piece pieces]; [done |].
      change (map of_chars (rev cur :: piece :: pieces))
        with (of_chars (rev cur) :: map of_chars (piece :: pieces)).
      change (JsString.join "/"
                (of_chars (rev cur) :: map of_chars (piece :: pieces)))
        with (of_chars (rev cur) +:+ "/"
                +:+ JsString.join "/" (map of_chars (piece :: pieces))).
      rewrite Hrest, of_chars_app.
      by change (of_chars ("/"%char :: l)) with ("/" +:+ of_chars l).
    + rewrite IH. simpl. by rewrite <- app_assoc.
Qed.

End ReadingFiles.

(** X1: on a POSIX host [toPosixPath] returns every path as it is:
    splitting at the slash and joining with the slash is the identity. *)
Theorem toPosixPath_identity (filePath : string) :
  JobFiles.toPosixPath filePath = filePath.
Proof.
  unfold JobFiles.toPosixPath, JsString.split.
  rewrite join_split_chars. simpl. apply of_chars_chars.
Qed.

Section ParsedFiles.
Variable hash : string -> string.
Variable env : environment.

Lemma readFilesAndGenerateHashes_from_readable acc paths (w : world) :
  Forall (Spec.readable env w) paths ->
  JobFiles.readFilesAndGenerateHashes_from hash env acc paths w
  = (Ok (acc
           ++ map (fun p =>
                     let t := JsString.trim
                                (default "" (Spec.file_text env w p)) in
                     JobFiles.mk_parsed p [(hash t, JobFiles.mk_text t)])
                  paths), w).
Proof.
  revert acc. induction paths as [| p rest IH]; intros acc Hall; simpl.
  - unfold mret, M_ret. by rewrite app_nil_r.
  - inversion Hall as [| ? ? [t Hp] Hrest]; subst.
    unfold mbind, M_bind, Fs.readFileSync.
    unfold Spec.file_text in Hp. rewrite Hp.
    rewrite IH by exact Hrest. rewrite <- app_assoc. simpl.
    unfold Spec.file_text. by rewrite Hp.
Qed.

(** Like [getFilesMetadata], the loop stops at the first file it cannot
    read. *)
Lemma readFilesAndGenerateHashes_from_unreadable acc pre p post (w : world) :
  Forall (Spec.readable env w) pre ->
  Spec.file_text env w p = None ->
  JobFiles.readFilesAndGenerateHashes_from hash env acc (pre ++ p :: post) w
  = (Throw (Spec.read_error env w p), w).
Proof.
  revert acc. induction pre as [| q pre IH]; intros acc Hall Hp; simpl.
  - unfold mbind, M_bind, Fs.readFileSync.
    unfold Spec.file_text in Hp. by rewrite Hp.
  - inversion Hall as [| ? ? [t Hq] Hrest]; subst.
    unfold mbind, M_bind, Fs.readFileSync.
    unfold Spec.file_text in Hq. rewrite Hq. by apply IH.
Qed.

End ParsedFiles.

(** X2: with every file readable, [readFilesAndGenerateHashes] returns one
    parsed file per path, in order, whose localization map has the single
    key hash(trimmed text) holding the trimmed text; that key is the
    [fileHash] that [getFilesMetadata] gives the same file; neither
    function changes the world. *)
Theorem parsed_files_agree_with_metadata hash env paths (w : world) :
  Forall (Spec.readable env w) paths ->
  exists parsed metas,
    JobFiles.readFilesAndGenerateHashes hash env paths w = (Ok parsed, w)
    /\ Job.getFilesMetadata hash env paths w = (Ok metas, w)
    /\ length parsed = length paths
    /\ forall i p,
         paths !! i = Some p ->
         exists t,
           Spec.file_text env w p = Some t
           /\ parsed !! i
              = Some (JobFiles.mk_parsed p
                        [(hash (JsString.trim t),
                          JobFiles.mk_text (JsString.trim t))])
           /\ metas !! i = Some (mk_metadata p (hash (JsString.trim t))).
Proof.
  intros Hread. eexists _, _.
  split; [by apply (readFilesAndGenerateHashes_from_readable hash env []) |].
  split; [by apply getFilesMetadata_readable |].
  split; [simpl; by rewrite length_map |].
  intros i p Hp.
  assert (Hin : p ∈ paths) by (apply list_elem_of_lookup; eauto).
  rewrite Forall_forall in Hread. destruct (Hread p Hin) as [t Ht].
  exists t. split; [exact Ht |]. simpl.
  rewrite !list_lookup_fmap, Hp. simpl.
  unfold Spec.metadata_of, Job.content_hash. by rewrite Ht.
Qed.

Lemma parsed_files_agree_with_metadata_witness :
  exists parsed,
    fst (JobFiles.readFilesAndGenerateHashes Sample.hash Sample.env
           ["docs/intro.md"; "/site/docs/guide.md"] Sample.start)
    = Ok parsed
    /\ map (fun f => map fst (JobFiles.localizationMap f)) parsed
       = [["# Intro"]; ["# Guide"]].
Proof.
  destruct (parsed_files_agree_with_metadata Sample.hash Sample.env
              ["docs/intro.md"; "/site/docs/guide.md"] Sample.start)
    as (parsed & metas & Hparsed & _ & _ & _).
  { repeat constructor; vm_compute; eauto. }
  exists parsed. rewrite Hparsed. split; [reflexivity |].
  vm_compute in Hparsed. injection Hparsed as <-. reflexivity.
Defined.

(** X3: when a path holds no regular file, [getFilesMetadata] and
    [readFilesAndGenerateHashes] throw the error of [readFileSync] for the
    first such path: EISDIR when it is a directory, ENOTDIR when a regular
    file stands on the way to it, ENOENT otherwise.  What was collected
    from the files before it is lost, the files after it are not looked
    at, and the world is unchanged. *)
Theorem metadata_stops_at_first_unreadable hash env pre p post (w : world) :
  Forall (Spec.readable env w) pre ->
  Spec.file_text env w p = None ->
  let d := Fs.abs env p in
  let code := if bool_decide (d ∈ fs_dirs (w_fs w)) then "EISDIR"
              else if Fs.below_file (w_fs w) d then "ENOTDIR"
              else "ENOENT" in
  Job.getFilesMetadata hash env (pre ++ p :: post) w
  = (Throw (Fs.ErrnoError code p), w)
  /\ JobFiles.readFilesAndGenerateHashes hash env (pre ++ p :: post) w
     = (Throw (Fs.ErrnoError code p), w).
Proof.
  intros Hpre Hp d code. split.
  - by apply getFilesMetadata_from_unreadable.
  - by apply readFilesAndGenerateHashes_from_unreadable.
Qed.

Lemma metadata_stops_at_first_unreadable_witness :
  Job.getFilesMetadata Sample.hash Sample.env
    ["docs/intro.md"; "docs/missing.md"; "docs/guide.md"] Sample.start
  = (Throw (Fs.ErrnoError "ENOENT" "docs/missing.md"), Sample.start)
  /\ Job.getFilesMetadata Sample.hash Sample.env
       ["docs/intro.md"; "docs"] Sample.start
     = (Throw (Fs.ErrnoError "EISDIR" "docs"), Sample.start)
  /\ Job.getFilesMetadata Sample.hash Sample.env
       ["docs/intro.md/part.md"] Sample.start
     = (Throw (Fs.ErrnoError "ENOTDIR" "docs/intro.md/part.md"),
        Sample.start).
Proof.
  split; [| split].
  - apply (metadata_stops_at_first_unreadable Sample.hash Sample.env
             ["docs/intro.md"] "docs/missing.md" ["docs/guide.md"]
             Sample.start).
    + repeat constructor. vm_compute. eauto.
    + vm_compute. reflexivity.
  - apply (metadata_stops_at_first_unreadable Sample.hash Sample.env
             ["docs/intro.md"] "docs" [] Sample.start).
    + repeat constructor. vm_compute. eauto.
    + vm_compute. reflexivity.
  - apply (metadata_stops_at_first_unreadable Sample.hash Sample.env
             [] "docs/intro.md/part.md" [] Sample.start).
    + constructor.
    + vm_compute. reflexivity.
Defined.

(** X4: when a configured source path holds no regular file,
    [executeTranslation] rejects with the error of [readFileSync] for the
    first such path (EISDIR for a directory, ENOTDIR below a regular
    file, ENOENT otherwise) before anything else happens: no request is
    sent and nothing is logged. *)
Theorem executeTranslation_unreadable_source
        hash env cfg pre p post (w : world) :
  default [] (parsing cfg ≫= sourceFilePaths) = pre ++ p :: post ->
  Forall (Spec.readable env w) pre ->
  Spec.file_text env w p = None ->
  let d := Fs.abs env p in
  let code := if bool_decide (d ∈ fs_dirs (w_fs w)) then "EISDIR"
              else if Fs.below_file (w_fs w) d then "ENOTDIR"
              else "ENOENT" in
  Job.executeTranslation hash env cfg w
  = (Throw (Fs.ErrnoError code p), w).
Proof.
  intros Hpaths Hpre Hp d code.
  unfold Job.executeTranslation, Job.getFilesMetadata.
  rewrite Hpaths. unfold mbind, M_bind.
  by rewrite getFilesMetadata_from_unreadable.
Qed.

Lemma executeTranslation_unreadable_source_witness :
  let cfg := fun paths =>
    mk_config (Some (mk_project (Some "project-1") (Some "secret")))
      None (Some (mk_parsing (Some paths) None)) in
  Job.executeTranslation Sample.hash Sample.env
    (cfg ["docs/intro.md"; "docs/missing.md"]) Sample.start
  = (Throw (Fs.ErrnoError "ENOENT" "docs/missing.md"), Sample.start)
  /\ Job.executeTranslation Sample.hash Sample.env (cfg ["docs"])
       Sample.start
     = (Throw (Fs.ErrnoError "EISDIR" "docs"), Sample.start).
Proof.
  intros cfg. split.
  - apply (executeTranslation_unreadable_source Sample.hash Sample.env
             (cfg ["docs/intro.md"; "docs/missing.md"])
             ["docs/intro.md"] "docs/missing.md" [] Sample.start).
    + reflexivity.
    + repeat constructor. vm_compute. eauto.
    + vm_compute. reflexivity.
  - apply (executeTranslation_unreadable_source Sample.hash Sample.env
             (cfg ["docs"]) [] "docs" [] Sample.start).
    + reflexivity.
    + constructor.
    + vm_compute. reflexivity.
Defined.

(** X5: without a token [executeTranslation] still resolves: the files are
    read, no request is sent, and the synthetic empty body is logged as the
    plan response. *)
Theorem executeTranslation_without_token hash env cfg (w : world) :
  Forall (Spec.readable env w)
         (default [] (parsing cfg ≫= sourceFilePaths)) ->
  ApiClient.token_or_empty
    (Some (Api.mk_client_config (project cfg ≫= apiToken))) = "" ->
  Job.executeTranslation hash env cfg w
  = (Ok tt, Terms.logged_plan_response (VObj []) w).
Proof.
  intros Hread Htok. unfold Job.executeTranslation, mbind, M_bind.
  rewrite getFilesMetadata_readable by exact Hread.
  cbn [Api.authenticatedPost ApiClient.createAPIClient].
  rewrite authenticatedPost_without_token by exact Htok.
  apply console_log_twice.
Qed.

Lemma executeTranslation_without_token_witness :
  let cfg := mk_config (Some (mk_project (Some "project-1") None)) None
               (Some (mk_parsing (Some ["docs/intro.md"]) None)) in
  Job.executeTranslation Sample.hash Sample.env cfg Sample.start
  = (Ok tt, Terms.logged_plan_response (VObj []) Sample.start).
Proof.
  intros cfg.
  apply (executeTranslation_without_token Sample.hash Sample.env cfg
           Sample.start).
  - repeat constructor. vm_compute. eauto.
  - reflexivity.
Defined.

(** X6: with a token and readable files [executeTranslation] sends the plan
    once and its outcome is the transport's: it rejects with the error of
    a failed or timed-out request or of an unparsable body, leaving nothing
    on the console, and otherwise resolves and logs the body, whatever the
    HTTP status of the answer. *)
Theorem executeTranslation_outcome hash env cfg (w : world) :
  Forall (Spec.readable env w)
         (default [] (parsing cfg ≫= sourceFilePaths)) ->
  ApiClient.token_or_empty
    (Some (Api.mk_client_config (project cfg ≫= apiToken))) ≠ "" ->
  let req := Terms.plan_request hash env cfg w in
  Job.executeTranslation hash env cfg w
  = match ApiClient.settle_within 30000
            (env_fetch env (length (w_fetched w)) req) with
    | Throw e => (Throw e, note_fetch req w)
    | Ok response =>
        match resp_json response with
        | Throw e => (Throw e, note_fetch req w)
        | Ok d => (Ok tt, Terms.logged_plan_response d (note_fetch req w))
        end
    end.
Proof.
  intros Hread Htok req. unfold Job.executeTranslation, mbind, M_bind.
  rewrite getFilesMetadata_readable by exact Hread.
  cbn [Api.authenticatedPost ApiClient.createAPIClient].
  rewrite authenticatedPost_with_token by exact Htok. cbv zeta.
  fold (Terms.plan_request hash env cfg w). fold req.
  unfold ApiClient.timeout.
  destruct (ApiClient.settle_within 30000 _) as [response | e]; [| done].
  unfold ApiClient.read_response, mbind, M_bind, lift_result.
  destruct (resp_json response) as [d | e]; [| done].
  apply console_log_twice.
Qed.

Lemma executeTranslation_outcome_witness :
  let env := mk_env "/site" None
               (fun _ _ => FetchResolves 40
                             (mk_response 500 "Internal Server Error" []
                                (Ok (VObj [("error", VStr "boom")])))) in
  let r := Job.executeTranslation Sample.hash env Sample.config Sample.start in
  fst r = Ok tt
  /\ w_console (snd r)
     = [LogText "GOT TRANSLATION JOB PLAN RESPONSE";
        LogValue (VObj [("error", VStr "boom")])].
Proof.
  intros env r. subst r.
  rewrite (executeTranslation_outcome Sample.hash env Sample.config
             Sample.start).
  - split; reflexivity.
  - repeat constructor; vm_compute; eauto.
  - simpl. discriminate.
Defined.

(** X29: the plan request, whatever function the library hash is.  With
    every configured source file readable and a token configured, the one
    request of [executeTranslation] is the POST to the plan address whose
    body is the JSON text of
    [{project_uuid, source_locale_iso, target_locale_isos, files_metadata}]:
    the three first are the configuration's values, left out when they are
    undefined, and [files_metadata] lists one
    [{sourceFilePath, fileHash}] per configured path, in the configured
    order, with the library hash of the file's trimmed text. *)
Theorem plan_request_body hash env cfg (w : world) :
  let paths := default [] (parsing cfg ≫= sourceFilePaths) in
  let tok := ApiClient.token_or_empty
               (Some (Api.mk_client_config (project cfg ≫= apiToken))) in
  let run := Job.executeTranslation hash env cfg w in
  let text_or_undefined := fun o : option string =>
    match o with Some t => VStr t | None => VUndefined end in
  Forall (Spec.readable env w) paths ->
  tok ≠ "" ->
  exists texts req,
    Forall2 (fun p text => Spec.file_text env w p = Some text) paths texts
    /\ w_fetched (snd run) = w_fetched w ++ [req]
    /\ req_method req = Some "POST"
    /\ req_url req
       = BLENDIN_CLI_API_URL env
           +:+ "/translation-jobs/generate-plan-from-entire-files"
    /\ req_body req
       = Js.JSON_stringify
           (VObj [("project_uuid",
                   text_or_undefined (project cfg ≫= projectId));
                  ("source_locale_iso",
                   text_or_undefined (locales cfg ≫= sourceLocale));
                  ("target_locale_isos",
                   match locales cfg ≫= targetLocales with
                   | Some codes => VArr (map text_or_undefined codes)
                   | None => VUndefined
                   end);
                  ("files_metadata",
                   VArr (zip_with
                           (fun p text =>
                              VObj [("sourceFilePath", VStr p);
                                    ("fileHash",
                                     VStr (hash (JsString.trim text)))])
                           paths texts))]) 0.
Proof.
  intros paths tok run text_or_undefined Hread Htok.
  exists (map (fun p => default "" (Spec.file_text env w p)) paths).
  eexists. split; [by apply readable_texts |].
  split; [subst run; by apply executeTranslation_sends_plan |].
  split; [reflexivity |]. split; [reflexivity |].
  unfold ApiClient.post_request. cbn [req_body].
  unfold Wire.of_plan, Job.translationJobPlanPostData.
  cbn [project_uuid source_locale_iso target_locale_isos files_metadata].
  by rewrite map_map, zip_with_map_same.
Qed.

Lemma plan_request_body_witness :
  exists req,
    w_fetched (snd (Job.executeTranslation JsString.toLowerCase Sample.env
                      Sample.config Sample.start))
    = [req]
    /\ req_body req
       = Js.JSON_stringify
           (VObj [("project_uuid", VStr "project-1");
                  ("source_locale_iso", VStr "en");
                  ("target_locale_isos", VArr [VStr "fr"; VStr "de"]);
                  ("files_metadata",
                   VArr [VObj [("sourceFilePath", VStr "docs/intro.md");
                               ("fileHash", VStr "# intro")];
                         VObj [("sourceFilePath",
                                VStr "/site/docs/guide.md");
                               ("fileHash", VStr "# guide")]])]) 0.
Proof.
  destruct (plan_request_body JsString.toLowerCase Sample.env Sample.config
              Sample.start)
    as (texts & req & Htexts & Hreq & _ & _ & Hbody).
  { repeat constructor; vm_compute; eauto. }
  { simpl. discriminate. }
  apply Forall2_cons_inv_l in Htexts as (t1 & rest & H1 & Htexts & ->).
  apply Forall2_cons_inv_l in Htexts as (t2 & rest' & H2 & Htexts & ->).
  apply Forall2_nil_inv_l in Htexts as ->.
  vm_compute in H1. injection H1 as <-.
  vm_compute in H2. injection H2 as <-.
  exists req. split; [exact Hreq |]. rewrite Hbody. reflexivity.
Defined.

(** X30: the fingerprint does not see white space around the text,
    whatever function the library hash is.  [getFilesMetadata] gives a
    file the library hash of its trimmed text, which is also what it gives
    the trimmed text itself; so two files whose texts agree once trimmed
    get one [fileHash], wherever they lie and whatever else the world
    holds. *)
Theorem fingerprint_ignores_outer_whitespace (hash : string -> string) :
  (forall s,
     Job.content_hash hash s = hash (JsString.trim s)
     /\ Job.content_hash hash (JsString.trim s) = Job.content_hash hash s)
  /\ (forall env env' (w w' : world) p p' text text',
        Spec.file_text env w p = Some text ->
        Spec.file_text env' w' p' = Some text' ->
        JsString.trim text = JsString.trim text' ->
        Job.getFilesMetadata hash env [p] w
        = (Ok [mk_metadata p (hash (JsString.trim text))], w)
        /\ Job.getFilesMetadata hash env' [p'] w'
           = (Ok [mk_metadata p' (hash (JsString.trim text))], w')).
Proof.
  split.
  - intros s. split; [reflexivity |].
    unfold Job.content_hash. by rewrite trim_idemp.
  - intros env env' w w' p p' text text' Hp Hp' Htrim.
    rewrite !getFilesMetadata_readable
      by (repeat constructor; unfold Spec.readable; eauto).
    simpl. unfold Spec.metadata_of, Job.content_hash.
    rewrite Hp, Hp'. simpl. by rewrite Htrim.
Qed.

Lemma fingerprint_ignores_outer_whitespace_witness :
  Job.getFilesMetadata JsString.toLowerCase Sample.env ["docs/intro.md"]
    Sample.start
  = (Ok [mk_metadata "docs/intro.md" "# intro"], Sample.start).
Proof.
  destruct (fingerprint_ignores_outer_whitespace JsString.toLowerCase)
    as [_ Hsame].
  destruct (Hsame Sample.env Sample.env Sample.start Sample.start
              "docs/intro.md" "docs/intro.md"
              (Spec.newline +:+ "# Intro" +:+ Spec.newline)
              (Spec.newline +:+ "# Intro" +:+ Spec.newline))
    as [Hfirst _]; [reflexivity | reflexivity | reflexivity |].
  exact Hfirst.
Defined.

(** X7: the client does not look at the HTTP status.  When the transport
    answers in time with a body that parses, [authenticatedGet] and
    [authenticatedPost] resolve with that body and the answer's status,
    status text and headers, for every status. *)
Theorem client_returns_every_status
        env cfg url body config (w : world) latency response d :
  ApiClient.token_or_empty cfg ≠ "" ->
  latency < 30000 ->
  resp_json response = Ok d ->
  let tok := ApiClient.token_or_empty cfg in
  let n := length (w_fetched w) in
  let answer := Api.mk_fetch_response d (resp_status response)
                  (resp_statusText response) (resp_headers response) in
  (env_fetch env n (ApiClient.get_request env url config tok)
   = FetchResolves latency response ->
   ApiClient.authenticatedGet env cfg url config w
   = (Ok answer, note_fetch (ApiClient.get_request env url config tok) w))
  /\ (env_fetch env n (ApiClient.post_request env url body config tok)
      = FetchResolves latency response ->
      ApiClient.authenticatedPost env cfg url body config w
      = (Ok answer,
         note_fetch (ApiClient.post_request env url body config tok) w)).
Proof.
  intros Htok Hfast Hjson tok n answer.
  assert (Hlt : (latency <? ApiClient.timeout) = true).
  { apply Z.ltb_lt. unfold ApiClient.timeout. lia. }
  split; intros Hfetch.
  - rewrite authenticatedGet_with_token by exact Htok. fold tok n.
    rewrite Hfetch. simpl. rewrite Hlt.
    unfold ApiClient.read_response, mbind, M_bind, lift_result.
    by rewrite Hjson.
  - rewrite authenticatedPost_with_token by exact Htok. fold tok n.
    rewrite Hfetch. simpl. rewrite Hlt.
    unfold ApiClient.read_response, mbind, M_bind, lift_result.
    by rewrite Hjson.
Qed.

Lemma client_returns_every_status_witness :
  let env := mk_env "/site" None
               (fun _ _ => FetchResolves 40
                             (mk_response 404 "Not Found" []
                                (Ok (VObj [("error", VStr "gone")])))) in
  let cfg := Some (Api.mk_client_config (Some "secret")) in
  fst (ApiClient.authenticatedGet env cfg "/jobs" None Sample.start)
  = Ok (Api.mk_fetch_response (VObj [("error", VStr "gone")]) 404
          "Not Found" []).
Proof.
  intros env cfg.
  destruct (client_returns_every_status env cfg "/jobs" VNull None
              Sample.start 40
              (mk_response 404 "Not Found" []
                 (Ok (VObj [("error", VStr "gone")])))
              (VObj [("error", VStr "gone")])) as [Hget _].
  - simpl. discriminate.
  - lia.
  - reflexivity.
  - rewrite Hget; reflexivity.
Defined.

Section Headers.

Lemma filter_nil_strong {A : Type} (P : A -> Prop) `{forall x, Decision (P x)}
      (l : list A) :
  (forall x, x ∈ l -> ~ P x) -> filter P l = [].
Proof.
  induction l as [| x l IH]; intros Hnone; [done |].
  rewrite filter_cons, decide_False by (apply Hnone; by left).
  apply IH. intros y Hy. apply Hnone. by right.
Qed.

Lemma header_value_set_same k v (o : list (string * string)) :
  Terms.header_value k (Js.obj_set k v o) = Some v.
Proof.
  induction o as [| [k' v'] o IH]; simpl.
  - by rewrite bool_decide_eq_true_2.
  - case_bool_decide as Hk; simpl.
    + by rewrite bool_decide_eq_true_2.
    + by rewrite bool_decide_eq_false_2.
Qed.

Lemma header_value_set_other k k' v (o : list (string * string)) :
  k' ≠ k ->
  Terms.header_value k' (Js.obj_set k v o) = Terms.header_value k' o.
Proof.
  intros Hne. induction o as [| [k0 v0] o IH]; simpl.
  - by rewrite bool_decide_eq_false_2 by congruence.
  - case_bool_decide as Hk; simpl.
    + subst k0. by rewrite !bool_decide_eq_false_2 by congruence.
    + case_bool_decide; [done | exact IH].
Qed.

Lemma keys_set k v (o : list (string * string)) :
  NoDup (map fst o) -> NoDup (map fst (Js.obj_set k v o)).
Proof.
  intros Hnd.
  induction o as [| [k' v'] o IH]; simpl.
  - repeat constructor. by intros ?%elem_of_nil.
  - simpl in Hnd. apply NoDup_cons in Hnd as [Hnotin Hnd].
    case_bool_decide as Hk; simpl.
    + subst k'. by apply NoDup_cons.
    + apply NoDup_cons. split; [| by apply IH].
      intros Hin. apply Hnotin. clear IH Hnd Hnotin.
      induction o as [| [k0 v0] o IH]; simpl in *.
      * apply list_elem_of_singleton in Hin. congruence.
      * case_bool_decide; simpl in Hin.
        -- apply elem_of_cons in Hin as [Hin | Hin]; [congruence |].
           by right.
        -- apply elem_of_cons in Hin as [-> | Hin]; [by left |].
           right. by apply IH.
Qed.

Lemma keys_after_set k v (o : list (string * string)) x :
  x ∈ map fst (Js.obj_set k v o) -> x = k \/ x ∈ map fst o.
Proof.
  induction o as [| [k' v'] o IH]; simpl.
  - intros Hx. apply list_elem_of_singleton in Hx. by left.
  - case_bool_decide as Hk; simpl; intros Hx.
    + subst k'. by right.
    + apply elem_of_cons in Hx as [-> | Hx]; [right; by left |].
      destruct (IH Hx) as [-> | Hin]; [by left | right; by right].
Qed.

(** Setting a property in an object without a second property of that
    name in another spelling leaves one entry under the name. *)
Lemma filter_set_only k v (o : list (string * string)) :
  NoDup (map fst o) ->
  (forall x, x ∈ map fst o ->
             JsString.toLowerCase x = JsString.toLowerCase k -> x = k) ->
  filter (fun kv => JsString.toLowerCase (fst kv) = JsString.toLowerCase k)
         (Js.obj_set k v o)
  = [(k, v)].
Proof.
  intros Hnd Hcase. induction o as [| [k' v'] o IH]; simpl.
  - rewrite filter_cons, filter_nil. by rewrite decide_True.
  - simpl in Hnd. apply NoDup_cons in Hnd as [Hnotin Hnd].
    case_bool_decide as Hk.
    + subst k'. rewrite filter_cons, decide_True by done. f_equal.
      apply filter_nil_strong. intros [x y] Hin Hlow. simpl in Hlow.
      apply Hnotin.
      assert (Hx : x ∈ map fst o).
      { apply list_elem_of_In, in_map_iff. exists (x, y).
        split; [done | by apply list_elem_of_In]. }
      rewrite <- (Hcase x); [exact Hx | by right | exact Hlow].
    + rewrite filter_cons, decide_False.
      * apply IH; [exact Hnd |]. intros x Hx. apply Hcase. by right.
      * simpl. intros Hlow. apply Hk. apply Hcase; [by left | exact Hlow].
Qed.

End Headers.

(** X8: the headers the client hands to [fetch].  They are the caller's
    ([config.headers] spread into an object) with the properties
    Content-Type, application/json, and X-API-Token, the configured token,
    set over them, the same for GET and POST.  A caller's property with
    exactly one of these two names is overridden; every other property,
    one that differs from them only in letter case included, keeps its
    value.  Of a [Headers] instance nothing is taken over, and of an array
    of pairs only properties named by the indices.  What goes out as
    X-API-Token is the token alone exactly when the caller gave no header
    of that name in another spelling. *)
Theorem request_headers_fixed env url body config tok :
  let given := ApiClient.given_headers config in
  let hs := req_headers (ApiClient.get_request env url config tok) in
  req_headers (ApiClient.post_request env url body config tok) = hs
  /\ Terms.header_value "X-API-Token" hs = Some tok
  /\ Terms.header_value "Content-Type" hs = Some "application/json"
  /\ (forall k, k ≠ "X-API-Token" -> k ≠ "Content-Type" ->
                Terms.header_value k hs = Terms.header_value k given)
  /\ (NoDup (map fst given) -> NoDup (map fst hs))
  /\ (forall c entries,
        config = Some c ->
        Api.ri_headers c = Some (Api.HeadersInstance entries) ->
        hs = [("Content-Type", "application/json"); ("X-API-Token", tok)])
  /\ (forall c pairs i name value,
        config = Some c ->
        Api.ri_headers c = Some (Api.HeadersPairs pairs) ->
        pairs !! i = Some (name, value) ->
        given !! i
        = Some (Js.number_to_string (Z.of_nat i), name +:+ "," +:+ value))
  /\ (NoDup (map fst given) ->
      (forall k, k ∈ map fst given ->
                 JsString.toLowerCase k = "x-api-token" ->
                 k = "X-API-Token") ->
      Terms.wire_value "X-API-Token" hs = Some tok)
  /\ (forall k v,
        given = [(k, v)] -> k ≠ "X-API-Token" ->
        JsString.toLowerCase k = "x-api-token" ->
        Terms.wire_value "X-API-Token" hs = Some (v +:+ ", " +:+ tok)).
Proof.
  intros given hs. subst hs. simpl. unfold ApiClient.request_headers.
  fold given. unfold Js.obj_spread. simpl.
  split; [reflexivity |]. split; [apply header_value_set_same |].
  split; [| split; [| split; [| split; [| split; [| split]]]]].
  - rewrite header_value_set_other by done. apply header_value_set_same.
  - intros k Hk1 Hk2. by rewrite !header_value_set_other.
  - intros Hnd. by do 2 apply keys_set.
  - intros c entries -> Hc. subst given. simpl. by rewrite Hc.
  - intros c pairs i name value -> Hc Hi. subst given. simpl. rewrite Hc.
    simpl. rewrite list_lookup_imap, Hi. reflexivity.
  - intros Hnd Hcase. unfold Terms.wire_value.
    rewrite (filter_set_only "X-API-Token" tok); [reflexivity | |].
    + by apply keys_set.
    + intros k Hk Hlow. apply keys_after_set in Hk as [-> | Hk];
        [discriminate Hlow | by apply Hcase].
  - intros k v Hgiven Hk Hlow. rewrite Hgiven.
    unfold Terms.wire_value. simpl.
    rewrite bool_decide_eq_false_2
      by (intros ->; vm_compute in Hlow; discriminate Hlow).
    simpl. rewrite bool_decide_eq_false_2 by exact Hk. simpl.
    rewrite !filter_cons, filter_nil.
    rewrite decide_True by (simpl; rewrite Hlow; reflexivity).
    rewrite decide_False by (simpl; vm_compute; discriminate).
    rewrite decide_True by reflexivity.
    reflexivity.
Qed.

Lemma request_headers_fixed_witness :
  let forged := Some (Api.mk_init None
                        (Some (Api.HeadersRecord
                                 [("x-api-token", "forged")]))
                        None) in
  Terms.wire_value "X-API-Token"
    (req_headers (ApiClient.get_request Sample.env "/ping" forged "secret"))
  = Some "forged, secret".
Proof.
  intros forged.
  apply (request_headers_fixed Sample.env "/ping" VNull forged "secret")
    with (k := "x-api-token") (v := "forged").
  - reflexivity.
  - discriminate.
  - reflexivity.
Defined.

(* ===================================================================== *)
(** * Pulling the translations                                             *)
(* ===================================================================== *)

Section Pulling.
Variable env : environment.

(** What [pullTranslations] does once the client has answered. *)
Lemma pullTranslations_after_answer
      configDir cfg client (w w1 : world) resp obj :
  Api.authenticatedGet client (Job.translations_url env cfg) None w
  = (Ok resp, w1) ->
  Js.get_prop (Api.data resp) "translations_object" = Ok obj ->
  let saveDir := Path.resolve (env_cwd env)
                   [configDir; Job.save_path_or_empty cfg] in
  let file := Path.join [saveDir; "translations.json"] in
  Job.pullTranslations env configDir cfg client w
  = match Fs.existsSync env saveDir w1 with
    | (Ok true, w2) =>
        Fs.writeFileSync env file (Js.JSON_stringify obj 2) w2
    | (Ok false, w2) =>
        match Fs.mkdirSync_recursive env saveDir w2 with
        | (Ok _, w3) =>
            Fs.writeFileSync env file (Js.JSON_stringify obj 2) w3
        | (Throw e, w3) => (Throw e, w3)
        end
    | (Throw e, w2) => (Throw e, w2)
    end.
Proof.
  intros Hget Hobj saveDir file.
  unfold Job.pullTranslations, mbind, M_bind. fold saveDir. fold file.
  rewrite Hget. unfold lift_result. rewrite Hobj.
  by destruct (Fs.existsSync env saveDir w1) as [[[|] | e] w2]; cbn.
Qed.

End Pulling.

(** X9: when the answer has no [translations_object] (as the answer the
    client makes up without a token), [pullTranslations] does not write a
    file: it throws, either ENOTDIR from [mkdirSync] when nothing is at
    the save path and a regular file stands on the way to it, or else
    the TypeError with which [writeFileSync] refuses the undefined data.
    If the save directory was missing and could be created, it has been
    created by then and is left behind. *)
Theorem pullTranslations_without_object
        env configDir cfg client (w w1 : world) resp :
  Api.authenticatedGet client (Job.translations_url env cfg) None w
  = (Ok resp, w1) ->
  Js.get_prop (Api.data resp) "translations_object" = Ok VUndefined ->
  let saveDir := Path.resolve (env_cwd env)
                   [configDir; Job.save_path_or_empty cfg] in
  let chain := Path.ancestors_and_self (Fs.abs env saveDir) in
  let refused := Js.TypeError "The data argument must be of type string" in
  let r := Job.pullTranslations env configDir cfg client w in
  (fst r = Throw refused
   \/ (fst r = Throw (Fs.ErrnoError "ENOTDIR" saveDir)
       /\ fst (Fs.existsSync env saveDir w1) = Ok false
       /\ Fs.below_file (w_fs w1) (Fs.abs env saveDir) = true))
  /\ fs_files (w_fs (snd r)) = fs_files (w_fs w1)
  /\ (fs_files (w_fs w1) !! Fs.abs env saveDir = None ->
      Fs.abs env saveDir ∉ fs_dirs (w_fs w1) ->
      Forall (fun d => fs_files (w_fs w1) !! d = None) chain ->
      fst r = Throw refused
      /\ fs_dirs (w_fs (snd r)) = fs_dirs (w_fs w1) ∪ list_to_set chain
      /\ w_fs_calls (snd r)
         = w_fs_calls w1
             ++ [CallMkdir saveDir;
                 CallWriteFile (Path.join [saveDir; "translations.json"])
                               None]).
Proof.
  intros Hget Hobj saveDir chain refused r. subst r.
  rewrite (pullTranslations_after_answer env configDir cfg client w w1 resp
             VUndefined Hget Hobj).
  fold saveDir. split; [| split].
  - unfold Fs.existsSync.
    destruct (bool_decide (is_Some _)) eqn:Hfile; [by left |].
    destruct (bool_decide (_ ∈ _)) eqn:Hdir; [by left |]. cbn [orb].
    destruct (mkdirSync_recursive_outcome env saveDir w1)
      as [(_ & ->) | [(Habove & ->) | (Hself & ->)]].
    + by left.
    + right. split; [done |]. split; [done | exact Habove].
    + apply bool_decide_eq_false in Hfile. done.
  - unfold Fs.existsSync.
    destruct (_ || _); [done |].
    by destruct (mkdirSync_recursive_outcome env saveDir w1)
      as [(_ & ->) | [(_ & ->) | (_ & ->)]].
  - intros Hnofile Hnodir Hfree.
    rewrite existsSync_absent by assumption.
    rewrite mkdirSync_recursive_creates by exact Hfree.
    cbn. split; [done |]. split; [done |]. by rewrite <- app_assoc.
Qed.

Lemma pullTranslations_without_object_witness :
  let client := ApiClient.createAPIClient Sample.env None in
  let r := Job.pullTranslations Sample.env "/site" Sample.config client
             Sample.start in
  fs_files (w_fs (snd r)) = fs_files (w_fs Sample.start).
Proof.
  intros client r.
  apply (pullTranslations_without_object Sample.env "/site" Sample.config
           client Sample.start Sample.start ApiClient.unauthorized).
  - reflexivity.
  - reflexivity.
Defined.

Section PullingWithClient.
Variable env : environment.

Lemma existsSync_world p (w : world) : snd (Fs.existsSync env p w) = w.
Proof. reflexivity. Qed.

Lemma mkdirSync_recursive_fetched p (w : world) :
  w_fetched (snd (Fs.mkdirSync_recursive env p w)) = w_fetched w.
Proof.
  by destruct (mkdirSync_recursive_outcome env p w)
    as [(_ & ->) | [(_ & ->) | (_ & ->)]].
Qed.

Lemma writeFileSync_fetched p data (w : world) :
  w_fetched (snd (Fs.writeFileSync env p data w)) = w_fetched w.
Proof.
  unfold Fs.writeFileSync, Fs.put_file. cbv zeta.
  destruct data; [| done]. by repeat case_bool_decide.
Qed.

Lemma pullTranslations_fetched configDir cfg client (w : world) :
  w_fetched (snd (Job.pullTranslations env configDir cfg client w))
  = w_fetched
      (snd (Api.authenticatedGet client (Job.translations_url env cfg)
              None w)).
Proof.
  unfold Job.pullTranslations, mbind, M_bind.
  destruct (Api.authenticatedGet client _ None w) as [[resp | e] w1];
    [| done].
  unfold lift_result.
  destruct (Js.get_prop (Api.data resp) "translations_object") as [obj | e];
    [| done].
  cbn [snd]. unfold Fs.existsSync.
  destruct (_ || _); cbn [negb when_true].
  - unfold mret, M_ret. by rewrite writeFileSync_fetched.
  - pose proof (mkdirSync_recursive_fetched
                  (Path.resolve (env_cwd env)
                     [configDir; Job.save_path_or_empty cfg]) w1) as Hmk.
    destruct (Fs.mkdirSync_recursive env _ w1) as [[[] | e] w2];
      cbn [snd] in Hmk |- *; [| done].
    by rewrite writeFileSync_fetched.
Qed.

End PullingWithClient.

(** X10: with a token, [pullTranslations] sends exactly one request, with
    no method and no body of its own (a GET) and with the token.  It
    hands the client an address that already starts with the base URL, so
    the address requested is
    base + base + /projects/<id>/translations-object.  When that request
    fails, times out or has an unparsable body, [pullTranslations] rejects
    with that error and the file system is not touched. *)
Theorem pullTranslations_request env configDir cfg clientConfig (w : world) :
  ApiClient.token_or_empty clientConfig ≠ "" ->
  let tok := ApiClient.token_or_empty clientConfig in
  let req := ApiClient.get_request env (Job.translations_url env cfg)
               None tok in
  let r := Job.pullTranslations env configDir cfg
             (ApiClient.createAPIClient env clientConfig) w in
  req_url req
  = BLENDIN_CLI_API_URL env +:+ BLENDIN_CLI_API_URL env +:+ "/projects/"
      +:+ Wire.interpolate (project cfg ≫= projectId)
      +:+ "/translations-object"
  /\ req_method req = None /\ req_body req = None
  /\ Terms.header_value "X-API-Token" (req_headers req) = Some tok
  /\ w_fetched (snd r) = w_fetched w ++ [req]
  /\ (forall e,
        ApiClient.settle_within 30000
          (env_fetch env (length (w_fetched w)) req) = Throw e
        \/ (exists response,
              ApiClient.settle_within 30000
                (env_fetch env (length (w_fetched w)) req) = Ok response
              /\ resp_json response = Throw e) ->
        r = (Throw e, note_fetch req w)).
Proof.
  intros Htok tok req r.
  assert (Hget :
            ApiClient.authenticatedGet env clientConfig
              (Job.translations_url env cfg) None w
            = match ApiClient.settle_within 30000
                      (env_fetch env (length (w_fetched w)) req) with
              | Ok response =>
                  ApiClient.read_response response (note_fetch req w)
              | Throw e => (Throw e, note_fetch req w)
              end).
  { by rewrite authenticatedGet_with_token by exact Htok. }
  split; [| split; [| split; [| split; [| split]]]].
  - subst req. rewrite get_request_url. unfold Job.translations_url.
    reflexivity.
  - reflexivity.
  - reflexivity.
  - apply (header_value_set_same "X-API-Token" tok).
  - subst r. rewrite pullTranslations_fetched.
    cbn [Api.authenticatedGet ApiClient.createAPIClient]. rewrite Hget.
    destruct (ApiClient.settle_within _ _) as [response | e]; [| done].
    unfold ApiClient.read_response, mbind, M_bind, lift_result.
    by destruct (resp_json response).
  - intros e He. subst r. unfold Job.pullTranslations, mbind, M_bind.
    cbn [Api.authenticatedGet ApiClient.createAPIClient]. rewrite Hget.
    destruct He as [-> | (response & -> & Hjson)]; [done |].
    unfold ApiClient.read_response, mbind, M_bind, lift_result.
    by rewrite Hjson.
Qed.

Lemma pullTranslations_request_witness :
  let env := mk_env "/site" None (fun _ _ => FetchNeverSettles) in
  let clientConfig := Some (Api.mk_client_config (Some "secret")) in
  map req_url
    (w_fetched
       (snd (Job.pullTranslations env "/site" Sample.config
               (ApiClient.createAPIClient env clientConfig) Sample.start)))
  = ["https://blendinapi-production-959c8e72f5be.herokuapp.com"
       +:+ "https://blendinapi-production-959c8e72f5be.herokuapp.com"
       +:+ "/projects/project-1/translations-object"].
Proof.
  intros env clientConfig.
  destruct (pullTranslations_request env "/site" Sample.config clientConfig
              Sample.start) as (_ & _ & _ & _ & Hsent & _).
  - simpl. discriminate.
  - rewrite Hsent. reflexivity.
Defined.

(* ===================================================================== *)
(** * More on the poller                                                   *)
(* ===================================================================== *)

Section PollerCounts.
Variable env : environment.
Variable jobId : string.

Local Abbreviation step := (Poller.step env jobId).
Local Abbreviation run := (Poller.run env jobId).
Local Abbreviation entry := (Poller.pollTranslationProgress env jobId).

Lemma step_issued st ev :
  Spec.phase st ->
  (Poller.promise st = Poller.Pending ->
   length (Poller.issued (step st ev))
   = (length (Poller.issued st) + Terms.ticks [ev])%nat)
  /\ (Poller.promise st ≠ Poller.Pending ->
      Poller.promise (step st ev) ≠ Poller.Pending
      /\ Poller.issued (step st ev) = Poller.issued st).
Proof.
  intros Hph. split.
  - intros Hpending. destruct Hph as [Hs Hp Hi Hn | Hs Hp Hi]; [| congruence].
    destruct ev as [| k r].
    + rewrite tick_while_polling by (by constructor || done).
      rewrite length_app. reflexivity.
    + simpl. rewrite Nat.add_0_r. case_bool_decide; [| done].
      match goal with |- context [Poller.getAndPrintProgress_resume r ?s] =>
        destruct (resume_cases r s)
          as [(e & _ & ->) | (resp & total & completed & _ & _ & _ & _ & ->)]
      end; simpl; [done |].
      by destruct (Js.strict_equals _ _).
  - intros Hdone. destruct Hph as [Hs Hp Hi Hn | Hs Hp Hi]; [congruence |].
    destruct (step_terminal env jobId st ev Hs Hi Hp) as (_ & _ & Hp' & Hq').
    split; congruence.
Qed.

Lemma run_issued st evs :
  Spec.on_schedule env jobId st -> Spec.phase st ->
  (length (Poller.issued (run st evs))
   <= length (Poller.issued st) + Terms.ticks evs)%nat
  /\ (Poller.promise (run st evs) = Poller.Pending ->
      Poller.promise st = Poller.Pending
      /\ length (Poller.issued (run st evs))
         = (length (Poller.issued st) + Terms.ticks evs)%nat).
Proof.
  revert st. induction evs as [| ev evs IH]; intros st Hsch Hph.
  - simpl. split; [lia |]. intros Hp. split; [done | lia].
  - rewrite run_cons.
    destruct (step_preserves env jobId st ev Hsch Hph) as [Hsch' Hph'].
    destruct (IH (step st ev) Hsch' Hph') as [Hle Heq].
    destruct (step_issued st ev Hph) as [Hpend Hdone].
    assert (Hone : Terms.ticks (ev :: evs)
                   = (Terms.ticks [ev] + Terms.ticks evs)%nat).
    { by destruct ev. }
    assert (Hcases : Poller.promise st = Poller.Pending
                     \/ Poller.promise st ≠ Poller.Pending).
    { destruct (Poller.promise st); [by left | by right | by right]. }
    split.
    + destruct Hcases as [Hp | Hp].
      * rewrite Hpend in Hle by exact Hp. lia.
      * destruct (Hdone Hp) as [_ Hsame]. rewrite Hsame in Hle. lia.
    + intros Hfinal. destruct (Heq Hfinal) as [Hmid Hlen].
      destruct Hcases as [Hp | Hp].
      * split; [exact Hp |]. rewrite Hlen, Hpend by exact Hp. lia.
      * destruct (Hdone Hp) as [Hnot _]. congruence.
Qed.

Lemma ticks_only n : Terms.ticks (repeat Poller.Tick n) = n.
Proof. induction n; simpl; congruence. Qed.

Lemma run_snoc st evs ev : run st (evs ++ [ev]) = step (run st evs) ev.
Proof. by rewrite run_app. Qed.

End PollerCounts.

(** X11: the poller sends at most one status request on entry and one per
    firing of the interval, and exactly that many for as long as it is
    still polling: after a run of events with t firings it has sent at
    most 1 + t requests, and exactly 1 + t if its promise is still
    pending. *)
Theorem poller_request_count env jobId evs :
  let st := Poller.run env jobId (Poller.pollTranslationProgress env jobId)
              evs in
  (length (Poller.issued st) <= 1 + Terms.ticks evs)%nat
  /\ (Poller.promise st = Poller.Pending ->
      length (Poller.issued st) = (1 + Terms.ticks evs)%nat).
Proof.
  intros st. subst st.
  destruct (entry_shape env jobId) as [Hsch Hph].
  destruct (run_issued env jobId _ evs Hsch Hph) as [Hle Heq].
  split; [exact Hle |]. intros Hp. by destruct (Heq Hp).
Qed.

Lemma poller_request_count_witness :
  let evs := [Poller.Tick; Poller.Settled 0 (Poller.progress 1 3);
              Poller.Tick] in
  length (Poller.issued
            (Poller.run Sample.env "42"
               (Poller.pollTranslationProgress Sample.env "42") evs))
  = 3%nat.
Proof.
  intros evs.
  apply (poller_request_count Sample.env "42" evs).
  reflexivity.
Defined.

(** X12: the poller does not wait for an answer before it asks again.  If
    nothing has settled when the interval has fired n times, it is still
    polling and all 1 + n requests, numbered 0 to n, are outstanding. *)
Theorem poller_requests_pile_up env jobId (n : nat) :
  let st := Poller.run env jobId (Poller.pollTranslationProgress env jobId)
              (repeat Poller.Tick n) in
  Poller.promise st = Poller.Pending
  /\ Poller.awaiting st = seq 0 (S n)
  /\ length (Poller.issued st) = S n.
Proof.
  induction n as [| n IH]; [done |].
  cbv zeta in IH |- *. destruct IH as (Hp & Haw & Hlen).
  replace (repeat Poller.Tick (S n))
    with (repeat Poller.Tick n ++ [Poller.Tick])
    by (by rewrite <- repeat_cons).
  rewrite run_snoc.
  destruct (reachable_shape env jobId (repeat Poller.Tick n)) as [_ Hph].
  destruct Hph as [Hs _ Hi Hn | _ Hp' _]; [| congruence].
  unfold Poller.step. rewrite Hi.
  unfold Poller.getAndPrintProgress_request.
  cbn [Poller.sentinel Poller.promise Poller.awaiting Poller.issued
       Poller.intervalId Poller.now Poller.output].
  rewrite Hs.
  cbn [Poller.sentinel Poller.promise Poller.awaiting Poller.issued
       Poller.intervalId Poller.now Poller.output].
  split; [exact Hp |]. split.
  - rewrite Haw, Hlen. by rewrite (seq_S (S n) 0).
  - rewrite length_app, Hlen. simpl. lia.
Qed.

(** X13: an answer that arrives after the poller has finished is still
    reported.  When an outstanding request settles with readable counts in
    a poller that has already completed or failed, the outcome stays what
    it was, but the progress line is printed, and with equal counts the
    completion line as well, even if the poller had failed. *)
Theorem poller_late_answer_still_reported
        env jobId evs k resp total completed :
  let st := Poller.run env jobId (Poller.pollTranslationProgress env jobId)
              evs in
  Poller.promise st ≠ Poller.Pending ->
  k ∈ Poller.awaiting st ->
  Js.get_prop (Api.data resp) "translations_total" = Ok total ->
  Js.get_prop (Api.data resp) "translations_completed" = Ok completed ->
  let st' := Poller.step env jobId st (Poller.Settled k (Ok resp)) in
  Poller.promise st' = Poller.promise st
  /\ Poller.output st'
     = Poller.output st
         ++ Poller.OutProgress completed total
            :: (if Js.strict_equals completed total
                then [Poller.OutCompleted] else []).
Proof.
  intros st Hdone Hk Htotal Hcompleted st'. subst st'.
  unfold Poller.step. rewrite bool_decide_eq_true_2 by exact Hk.
  unfold Poller.getAndPrintProgress_resume. rewrite Htotal, Hcompleted.
  destruct (Js.strict_equals completed total); cbn.
  - split; [by apply settle_settled | by rewrite <- app_assoc].
  - done.
Qed.

Lemma poller_late_answer_still_reported_witness :
  let boom := mk_error "Error" "boom" in
  let evs := [Poller.Tick; Poller.Settled 0 (Throw boom)] in
  let st := Poller.run Sample.env "42"
              (Poller.pollTranslationProgress Sample.env "42") evs in
  let st' := Poller.step Sample.env "42" st
               (Poller.Settled 1 (Poller.progress 3 3)) in
  Poller.promise st' = Poller.Rejected boom
  /\ Poller.output st'
     = [Poller.OutError boom; Poller.OutProgress (VNum 3) (VNum 3);
        Poller.OutCompleted].
Proof.
  intros boom evs st st'.
  destruct (poller_late_answer_still_reported Sample.env "42" evs 1
              (Api.mk_fetch_response
                 (VObj [("translations_total", VNum 3);
                        ("translations_completed", VNum 3)]) 200 "OK" [])
              (VNum 3) (VNum 3)) as [Hp Ho].
  - vm_compute. discriminate.
  - decide_by_computation.
  - reflexivity.
  - reflexivity.
  - split; [exact Hp | exact Ho].
Defined.

(* ===================================================================== *)
(** * More on the per-locale copies                                        *)
(* ===================================================================== *)

Section CopyTrace.
Variable flags : string -> LocaleValue.
Variable env : environment.

Lemma copy_one_trace locale file (w w' : world) :
  Utils.copy_one env locale file w = (Ok tt, w') ->
  w_fs_calls w' = w_fs_calls w ++ Terms.copy_calls locale file.
Proof.
  unfold Utils.copy_one, mbind, M_bind, Fs.mkdirSync_recursive. cbv zeta.
  destruct (forallb _ _); [| by destruct (bool_decide _)].
  unfold Fs.copyFileSync. cbv zeta.
  match goal with |- context [fs_files ?fs !! ?k] =>
    destruct (fs_files fs !! k) as [text |]
  end;
    [| destruct (bool_decide _); [| discriminate];
       by destruct (Fs.put_file _ _ _ _) as [[[] | e] w1]].
  destruct (bool_decide _).
  - intros [= <-]. cbn. by rewrite <- app_assoc.
  - match goal with |- context [Fs.put_file ?p ?d ?t ?w0] =>
      pose proof (put_file_calls p d t w0) as Hcalls;
      destruct (Fs.put_file p d t w0) as [r w1]
    end.
    intros [= -> <-]. cbn in Hcalls. rewrite Hcalls.
    unfold Terms.copy_calls. by rewrite <- app_assoc.
Qed.

Lemma for_each_trace {A : Type} (g : A -> list fs_call) (f : A -> M unit)
      (items : list A) :
  (forall x (w w' : world),
     f x w = (Ok tt, w') -> w_fs_calls w' = w_fs_calls w ++ g x) ->
  forall w w' : world,
    for_each f items w = (Ok tt, w') ->
    w_fs_calls w' = w_fs_calls w ++ concat (map g items).
Proof.
  intros Hf. induction items as [| x rest IH]; intros w w'; simpl.
  - intros [= <-]. by rewrite app_nil_r.
  - unfold mbind, M_bind.
    destruct (f x w) as [[[] | e] w1] eqn:Hx; [| discriminate].
    intros Hrest. rewrite (IH _ _ Hrest), (Hf _ _ _ Hx).
    by rewrite <- app_assoc.
Qed.

Lemma concat_skip {A B : Type} (P : A -> Prop) `{forall x, Decision (P x)}
      (g : A -> list B) (items : list A) :
  concat (map (fun x => if bool_decide (P x) then g x else []) items)
  = concat (map g (filter P items)).
Proof.
  induction items as [| x rest IH]; [done |].
  simpl. rewrite filter_cons. case_bool_decide as Hx.
  - rewrite decide_True by exact Hx. simpl. by rewrite IH.
  - rewrite decide_False by exact Hx. exact IH.
Qed.

Lemma only_writes_refl D (w : world) : Terms.only_writes D w w.
Proof. by repeat split. Qed.

Lemma only_writes_trans D (w1 w2 w3 : world) :
  Terms.only_writes D w1 w2 -> Terms.only_writes D w2 w3 ->
  Terms.only_writes D w1 w3.
Proof.
  intros (Hf1 & Hd1 & Hq1 & Hc1) (Hf2 & Hd2 & Hq2 & Hc2).
  split; [| split; [| split]].
  - intros d Hd. by rewrite Hf2, Hf1.
  - by etrans.
  - congruence.
  - congruence.
Qed.

Lemma for_each_only_writes {A : Type} D (f : A -> M unit) (items : list A) :
  (forall x (w : world), x ∈ items -> Terms.only_writes D w (snd (f x w))) ->
  forall w : world, Terms.only_writes D w (snd (for_each f items w)).
Proof.
  induction items as [| x rest IH]; intros Hf w; simpl.
  - apply only_writes_refl.
  - unfold mbind, M_bind.
    pose proof (Hf x w (list_elem_of_here _ _)) as Hx.
    destruct (f x w) as [[[] | e] w1]; [| exact Hx].
    eapply only_writes_trans; [exact Hx |].
    apply IH. intros y w' Hy. apply Hf. by right.
Qed.

Lemma copy_one_only_writes (D : string -> Prop) locale file (w : world) :
  D (Fs.abs env (Utils.destinationPath locale file)) ->
  Terms.only_writes D w (snd (Utils.copy_one env locale file w)).
Proof.
  intros HD.
  unfold Utils.copy_one, mbind, M_bind, Fs.mkdirSync_recursive. cbv zeta.
  destruct (forallb _ _); [| by destruct (bool_decide _); repeat split].
  unfold Fs.copyFileSync. cbv zeta.
  match goal with |- context [fs_files ?fs !! ?k] =>
    destruct (fs_files fs !! k) as [text |]
  end.
  2: { destruct (bool_decide _);
         [| cbn; repeat split; try done; cbn; apply union_subseteq_l].
       unfold Fs.put_file.
       destruct (bool_decide _);
         [cbn; repeat split; try done; cbn; apply union_subseteq_l |].
       destruct (bool_decide _);
         [| cbn; repeat split; try done; cbn; apply union_subseteq_l].
       cbn. split; [| repeat split; try done; cbn; apply union_subseteq_l].
       intros d Hd. cbn. apply lookup_delete_ne. intros Heq. apply Hd.
       by rewrite <- Heq. }
  destruct (bool_decide _);
    [cbn; repeat split; try done; cbn; apply union_subseteq_l |].
  unfold Fs.put_file.
  destruct (bool_decide _);
    [cbn; repeat split; try done; cbn; apply union_subseteq_l |].
  destruct (bool_decide _);
    [| cbn; repeat split; try done; cbn; apply union_subseteq_l].
  cbn. split; [| repeat split; try done; cbn; apply union_subseteq_l].
  intros d Hd. cbn. apply lookup_insert_ne. intros Heq. apply Hd.
  by rewrite <- Heq.
Qed.

End CopyTrace.

(** X14: when [copySourceFilesToLocales] returns normally, its [fs] calls
    are exactly these, in this order: for each target locale other than
    the default locale's code, in the order given, and for each source
    file, in the order given, one [mkdirSync] of the destination directory
    followed by one [copyFileSync] to the destination path.  The directory
    is asked for again for every file. *)
Theorem copySourceFilesToLocales_trace
        flags env sourceFiles copyTargets copyDefault (w : world) :
  let r := Utils.copySourceFilesToLocales flags env sourceFiles copyTargets
             copyDefault w in
  fst r = Ok tt ->
  w_fs_calls (snd r)
  = w_fs_calls w
      ++ concat
           (map (fun locale =>
                   concat (map (Terms.copy_calls locale) sourceFiles))
                (filter (fun locale => locale ≠ flags copyDefault)
                        copyTargets)).
Proof.
  intros r Hok. subst r.
  destruct (Utils.copySourceFilesToLocales _ _ _ _ _ w) as [res w'] eqn:Hrun.
  cbn in Hok |- *. subst res.
  rewrite <- (concat_skip (fun locale => locale ≠ flags copyDefault)).
  revert Hrun. unfold Utils.copySourceFilesToLocales.
  apply for_each_trace. clear w w'. intros locale w w'.
  case_bool_decide as Hskip.
  - rewrite bool_decide_eq_false_2 by (intros Hne; by apply Hne).
    intros [= <-]. by rewrite app_nil_r.
  - rewrite bool_decide_eq_true_2 by exact Hskip.
    apply for_each_trace. intros file. apply copy_one_trace.
Qed.

Lemma copySourceFilesToLocales_trace_witness :
  w_fs_calls
    (snd (Utils.copySourceFilesToLocales Sample.flags Sample.env
            [Sample.intro] [Some "en"; Some "FR"] "en" Sample.start))
  = [CallMkdir "i18n/fr/docusaurus-plugin-content-docs/current";
     CallCopyFile "/site/docs/intro.md"
       "i18n/fr/docusaurus-plugin-content-docs/current/intro.md"].
Proof.
  rewrite (copySourceFilesToLocales_trace Sample.flags Sample.env
             [Sample.intro] [Some "en"; Some "FR"] "en" Sample.start).
  - reflexivity.
  - vm_compute. reflexivity.
Defined.

(** X15: whether it succeeds or throws, [copySourceFilesToLocales] changes
    no file other than the destination paths of the source files for the
    target locales other than the default locale's code: every other
    file, the source files among them, keeps its text, no directory
    disappears, and nothing is requested or logged. *)
Theorem copySourceFilesToLocales_writes_only_destinations
        flags env sourceFiles copyTargets copyDefault (w : world) d :
  let w' := snd (Utils.copySourceFilesToLocales flags env sourceFiles
                   copyTargets copyDefault w) in
  (forall locale file,
     locale ∈ copyTargets -> locale ≠ flags copyDefault ->
     file ∈ sourceFiles ->
     d ≠ Fs.abs env (Utils.destinationPath locale file)) ->
  fs_files (w_fs w') !! d = fs_files (w_fs w) !! d
  /\ fs_dirs (w_fs w) ⊆ fs_dirs (w_fs w')
  /\ w_fetched w' = w_fetched w
  /\ w_console w' = w_console w.
Proof.
  intros w' Hd. subst w'.
  set (D := fun p : string =>
              exists locale file,
                locale ∈ copyTargets /\ locale ≠ flags copyDefault
                /\ file ∈ sourceFiles
                /\ p = Fs.abs env (Utils.destinationPath locale file)).
  assert (Hrun : Terms.only_writes D w
                   (snd (Utils.copySourceFilesToLocales flags env sourceFiles
                           copyTargets copyDefault w))).
  { unfold Utils.copySourceFilesToLocales.
    apply for_each_only_writes. intros locale w1 Hlocale.
    case_bool_decide as Hskip; [apply only_writes_refl |].
    apply for_each_only_writes. intros file w2 Hfile.
    apply copy_one_only_writes. exists locale, file. auto. }
  destruct Hrun as (Hfiles & Hdirs & Hq & Hc).
  split; [| done]. apply Hfiles.
  intros (locale & file & H1 & H2 & H3 & Heq).
  by apply (Hd locale file).
Qed.

Lemma copySourceFilesToLocales_writes_only_destinations_witness :
  let w' := snd (Utils.copySourceFilesToLocales Sample.flags Sample.env
                   [Sample.intro] [Some "en"; Some "FR"] "en" Sample.start) in
  fs_files (w_fs w') !! "/site/docs/intro.md"
  = fs_files (w_fs Sample.start) !! "/site/docs/intro.md".
Proof.
  intros w'.
  apply (copySourceFilesToLocales_writes_only_destinations Sample.flags
           Sample.env [Sample.intro] [Some "en"; Some "FR"] "en"
           Sample.start "/site/docs/intro.md").
  intros locale file Hlocale Hne Hfile.
  apply list_elem_of_singleton in Hfile. subst file.
  apply elem_of_cons in Hlocale as [-> | Hlocale]; [by destruct Hne |].
  apply list_elem_of_singleton in Hlocale. subst locale.
  intros Heq. vm_compute in Heq. discriminate Heq.
Defined.

(** X16: a source path that holds no regular file aborts the whole copy,
    after its destination directory has been made.  When the first
    source is such a path, [copySourceFilesToLocales] throws the error of
    [copyFileSync] for the first target locale that is not skipped:
    ENOTDIR when a regular file stands on the way to the source, ENOENT
    when nothing is there, and, with nothing stored at the destination
    path, EISDIR when the source is a directory (one of those just made
    included).  By then the destination directory and its missing parents
    exist, no file has been written, and the remaining files and locales
    are not attempted. *)
Theorem copySourceFilesToLocales_missing_source
        flags env file rest locale others copyDefault (w : world) :
  let dir := Utils.destinationDir locale file in
  let made := Path.ancestors_and_self (Fs.abs env dir) in
  let src := Fs.abs env (Utils.sourceFilePath file) in
  let dst := Fs.abs env (Utils.destinationPath locale file) in
  let dirs := fs_dirs (w_fs w) ∪ list_to_set made in
  let run := Utils.copySourceFilesToLocales flags env (file :: rest)
               (locale :: others) copyDefault w in
  let after :=
    mk_world
      (mk_fs (fs_files (w_fs w)) dirs)
      (w_fs_calls w
         ++ [CallMkdir dir;
             CallCopyFile (Utils.sourceFilePath file)
                          (Utils.destinationPath locale file)])
      (w_fetched w) (w_console w) in
  locale ≠ flags copyDefault ->
  Spec.file_text env w (Utils.sourceFilePath file) = None ->
  Forall (fun d => fs_files (w_fs w) !! d = None) made ->
  (src ∉ dirs ->
   run
   = (Throw (Fs.ErrnoError
               (if Fs.below_file (w_fs w) src then "ENOTDIR" else "ENOENT")
               (Utils.sourceFilePath file)),
      after))
  /\ (src ∈ dirs ->
      fs_files (w_fs w) !! dst = None ->
      dst ∉ dirs ->
      Path.dirname dst ∈ dirs ->
      run = (Throw (Fs.ErrnoError "EISDIR" (Utils.sourceFilePath file)),
             after)).
Proof.
  intros dir made src dst dirs run after Hlocale Hmissing Hfree.
  subst run. unfold Utils.copySourceFilesToLocales. cbn [for_each].
  rewrite bool_decide_eq_false_2 by exact Hlocale.
  cbn [for_each]. unfold mbind, M_bind, Utils.copy_one. fold dir.
  unfold mbind, M_bind.
  rewrite mkdirSync_recursive_creates by exact Hfree. fold made dirs.
  unfold Fs.copyFileSync. cbv zeta. cbn [w_fs note_fs_call fs_files fs_dirs].
  unfold Spec.file_text in Hmissing. rewrite Hmissing. fold src dst.
  split.
  - intros Hnodir. rewrite bool_decide_eq_false_2 by exact Hnodir.
    unfold Fs.missing_code, after, note_fs_call.
    cbn [w_fs fs_files w_fs_calls w_fetched w_console].
    by rewrite <- app_assoc.
  - intros Hisdir Hnothing Hnotdir Hparent.
    rewrite bool_decide_eq_true_2 by exact Hisdir.
    rewrite put_file_writes by (cbn; assumption).
    unfold set_fs, after, note_fs_call.
    cbn [w_fs fs_files fs_dirs w_fs_calls w_fetched w_console].
    rewrite delete_id by exact Hnothing. by rewrite <- app_assoc.
Qed.

Lemma copySourceFilesToLocales_missing_source_witness :
  let missing := Utils.mk_source "docusaurus-plugin-content-docs"
                   "/site/docs/gone.md" in
  let folder := Utils.mk_source "docusaurus-plugin-content-docs"
                  "/site/docs" in
  fst (Utils.copySourceFilesToLocales Sample.flags Sample.env
         [missing; Sample.intro] [Some "FR"; Some "de"] "en" Sample.start)
  = Throw (Fs.ErrnoError "ENOENT" "/site/docs/gone.md")
  /\ fst (Utils.copySourceFilesToLocales Sample.flags Sample.env
            [folder; Sample.intro] [Some "FR"; Some "de"] "en"
            Sample.start)
     = Throw (Fs.ErrnoError "EISDIR" "/site/docs").
Proof.
  intros missing folder. split.
  - refine (f_equal fst
              (proj1 (copySourceFilesToLocales_missing_source Sample.flags
                        Sample.env missing [Sample.intro] (Some "FR")
                        [Some "de"] "en" Sample.start _ _ _) _)).
    + discriminate.
    + reflexivity.
    + decide_by_computation.
    + decide_by_computation.
  - refine (f_equal fst
              (proj2 (copySourceFilesToLocales_missing_source Sample.flags
                        Sample.env folder [Sample.intro] (Some "FR")
                        [Some "de"] "en" Sample.start _ _ _) _ _ _ _)).
    + discriminate.
    + reflexivity.
    + decide_by_computation.
    + decide_by_computation.
    + reflexivity.
    + decide_by_computation.
    + decide_by_computation.
Defined.

(* ===================================================================== *)
(** * The option schemas                                                   *)
(* ===================================================================== *)

Section SchemaFacts.
Import Schema.

Lemma validate_string_plain path v :
  validate (ZString None) path v = [] <-> Terms.is_string v.
Proof.
  unfold Terms.is_string. destruct v; simpl; split;
    try discriminate; try (intros [? ?]; discriminate); eauto.
Qed.

Lemma validate_string_min path message v :
  validate (ZString (Some (1%nat, message))) path v = []
  <-> exists s, v = VStr s /\ s ≠ "".
Proof.
  destruct v as [| | b | n | s | items | props]; simpl; split;
    try discriminate; try (intros (? & ? & ?); discriminate).
  - destruct s; simpl; [discriminate |]. intros _. eexists. split; done.
  - intros (t & [= <-] & Hne). destruct s; [done | reflexivity].
Qed.

Lemma concat_imap_nil {A B : Type} (P : A -> Prop) (f : nat -> A -> list B)
      (l : list A) :
  (forall i x, f i x = [] <-> P x) ->
  concat (imap f l) = [] <-> Forall P l.
Proof.
  revert f. induction l as [| x l IH]; intros f Hf; simpl.
  - split; [constructor | done].
  - split.
    + intros Hnil. apply app_eq_nil in Hnil as [Hx Hl]. constructor.
      * by apply (Hf 0%nat).
      * apply (IH (f ∘ S)); [| exact Hl]. intros i y. apply Hf.
    + intros Hall. apply Forall_cons in Hall as [Hx Hl].
      apply (Hf 0%nat) in Hx. rewrite Hx. simpl.
      apply (IH (f ∘ S)); [| exact Hl]. intros i y. apply Hf.
Qed.

Lemma validate_strings path nonempty v :
  validate (ZArray (ZString None) nonempty) path v = []
  <-> exists items, v = VArr items
                    /\ Forall Terms.is_string items
                    /\ (nonempty = None \/ items ≠ []).
Proof.
  destruct v as [| | b | n | s | items | props]; simpl; split;
    try discriminate; try (intros (? & ? & ?); discriminate).
  - intros Hnil. apply app_eq_nil in Hnil as [Hmin Hitems].
    exists items. split; [done |]. split.
    + eapply concat_imap_nil; [| exact Hitems].
      intros i x. apply validate_string_plain.
    + destruct nonempty as [message |]; [| by left].
      destruct items; [discriminate | by right].
  - intros (l & [= <-] & Hall & Hmin).
    apply app_nil. split.
    + destruct nonempty as [message |]; [| done].
      destruct items; [| done]. by destruct Hmin.
    + eapply (concat_imap_nil Terms.is_string); [| exact Hall].
      intros i x. apply validate_string_plain.
Qed.

Lemma validate_object_cons path key field rest props :
  validate (ZObject ((key, field) :: rest)) path (VObj props)
  = validate field (path ++ [key]) (Js.lookup_prop key props)
      ++ validate (ZObject rest) path (VObj props).
Proof. reflexivity. Qed.

Lemma validate_object_nil path props :
  validate (ZObject []) path (VObj props) = [].
Proof. reflexivity. Qed.

Lemma validate_object_other path shape v :
  validate (ZObject shape) path v = [] -> exists props, v = VObj props.
Proof. destruct v; simpl; try discriminate. eauto. Qed.

Lemma validate_project path v :
  validate projectSchema path v = [] <-> Terms.valid_project v.
Proof.
  unfold Terms.valid_project, projectSchema. split.
  - intros Hnil.
    destruct (validate_object_other _ _ _ Hnil) as [props ->].
    rewrite !validate_object_cons, validate_object_nil in Hnil.
    apply app_eq_nil in Hnil as [Hid Hrest].
    apply app_eq_nil in Hrest as [Htoken _].
    apply validate_string_min in Hid as (id & Hid & Hne).
    apply validate_string_min in Htoken as (token & Htoken & Hne').
    exists props, id, token. auto.
  - intros (ps & id & token & -> & Hid & Hne & Htoken & Hne').
    rewrite !validate_object_cons, validate_object_nil.
    apply app_nil. split; [| apply app_nil; split; [| done]].
    + apply validate_string_min. eauto.
    + apply validate_string_min. eauto.
Qed.

Lemma validate_parsing path v :
  validate
    (ZObject
       [("sourceFilePaths",
         ZArray (ZString None)
                (Some "sourceFilePaths must contain at least one path."));
        ("stringFilePaths",
         ZArray (ZString None)
                (Some "stringFilePaths must contain at least one path."))])
    path v = []
  <-> exists parsing sources strings,
        v = VObj parsing
        /\ Js.lookup_prop "sourceFilePaths" parsing = VArr sources
        /\ Js.lookup_prop "stringFilePaths" parsing = VArr strings
        /\ sources ≠ [] /\ strings ≠ []
        /\ Forall Terms.is_string sources
        /\ Forall Terms.is_string strings.
Proof.
  split.
  - intros Hnil.
    destruct (validate_object_other _ _ _ Hnil) as [parsing ->].
    rewrite !validate_object_cons, validate_object_nil in Hnil.
    apply app_eq_nil in Hnil as [Hsources Hrest].
    apply app_eq_nil in Hrest as [Hstrings _].
    apply validate_strings in Hsources as (sources & Hs1 & Hall1 & Hne1).
    apply validate_strings in Hstrings as (strings & Hs2 & Hall2 & Hne2).
    destruct Hne1 as [? | Hne1]; [discriminate |].
    destruct Hne2 as [? | Hne2]; [discriminate |].
    exists parsing, sources, strings. auto 10.
  - intros (parsing & sources & strings & -> & Hs1 & Hs2 & Hne1 & Hne2
            & Hall1 & Hall2).
    rewrite !validate_object_cons, validate_object_nil.
    apply app_nil. split; [| apply app_nil; split; [| done]].
    + apply validate_strings. exists sources. auto.
    + apply validate_strings. exists strings. auto.
Qed.

Lemma parse_ok s v : parse s v = Ok tt <-> validate s [] v = [].
Proof.
  unfold parse. destruct (validate s [] v); split; done.
Qed.

Lemma validate_optional_strings path v :
  validate (ZOptional (ZArray (ZString None) None)) path v = []
  <-> v = VUndefined
      \/ exists items, v = VArr items /\ Forall Terms.is_string items.
Proof.
  split.
  - intros Hnil. destruct v as [| | b | n | s | items | props];
      try (by left); try (simpl in Hnil; discriminate).
    change (validate (ZArray (ZString None) None) path (VArr items) = [])
      in Hnil.
    right. apply validate_strings in Hnil as (l & Hl & Hall & _). eauto.
  - intros [-> | (items & -> & Hall)]; [done |].
    change (validate (ZArray (ZString None) None) path (VArr items) = []).
    apply validate_strings. exists items. auto.
Qed.

End SchemaFacts.

(** X17: what [DocusaurusBlendinPluginOptionsSchema.parse] lets through.
    It returns without throwing exactly for an object whose [project] is
    an object with non-empty strings as [projectId] and [apiToken], and
    whose [docPath] is absent or an array of strings, which may be empty.
    Any other key is ignored. *)
Theorem plugin_options_accepted (options : js_value) :
  Schema.parse Schema.DocusaurusBlendinPluginOptionsSchema options = Ok tt
  <-> exists props,
        options = VObj props
        /\ (Js.lookup_prop "docPath" props = VUndefined
            \/ exists items, Js.lookup_prop "docPath" props = VArr items
                             /\ Forall Terms.is_string items)
        /\ Terms.valid_project (Js.lookup_prop "project" props).
Proof.
  rewrite parse_ok. unfold Schema.DocusaurusBlendinPluginOptionsSchema.
  split.
  - intros Hnil.
    destruct (validate_object_other _ _ _ Hnil) as [props ->].
    rewrite !validate_object_cons, validate_object_nil in Hnil.
    apply app_eq_nil in Hnil as [Hdoc Hrest].
    apply app_eq_nil in Hrest as [Hproject _].
    exists props. split; [done |]. split.
    + by apply validate_optional_strings in Hdoc.
    + by apply validate_project in Hproject.
  - intros (ps & -> & Hdoc & Hproject).
    rewrite !validate_object_cons, validate_object_nil.
    apply app_nil. split; [| apply app_nil; split; [| done]].
    + by apply validate_optional_strings.
    + by apply validate_project.
Qed.

(** X18: what [DocusaurusBlendinConfigSchema.parse] lets through: exactly
    an object whose [parsing] is an object with non-empty arrays of
    strings as [sourceFilePaths] and as [stringFilePaths], and whose
    [project] is an object with non-empty strings as [projectId] and
    [apiToken]. *)
Theorem config_accepted (config : js_value) :
  Schema.parse Schema.DocusaurusBlendinConfigSchema config = Ok tt
  <-> exists props parsing sources strings,
        config = VObj props
        /\ Js.lookup_prop "parsing" props = VObj parsing
        /\ Js.lookup_prop "sourceFilePaths" parsing = VArr sources
        /\ Js.lookup_prop "stringFilePaths" parsing = VArr strings
        /\ sources ≠ [] /\ strings ≠ []
        /\ Forall Terms.is_string sources
        /\ Forall Terms.is_string strings
        /\ Terms.valid_project (Js.lookup_prop "project" props).
Proof.
  rewrite parse_ok. unfold Schema.DocusaurusBlendinConfigSchema.
  split.
  - intros Hnil.
    destruct (validate_object_other _ _ _ Hnil) as [props ->].
    rewrite (validate_object_cons [] "parsing"),
      (validate_object_cons [] "project"), validate_object_nil in Hnil.
    apply app_eq_nil in Hnil as [Hparsing Hrest].
    apply app_eq_nil in Hrest as [Hproject _].
    apply validate_parsing in Hparsing
      as (parsing & sources & strings & Hp & Hrest).
    apply validate_project in Hproject.
    exists props, parsing, sources, strings.
    split; [done |]. split; [exact Hp |].
    destruct Hrest as (? & ? & ? & ? & ? & ?). auto 10.
  - intros (ps & parsing & sources & strings & -> & Hp & Hs1 & Hs2
            & Hne1 & Hne2 & Hall1 & Hall2 & Hproject).
    rewrite (validate_object_cons [] "parsing"),
      (validate_object_cons [] "project"), validate_object_nil.
    apply app_nil. split; [| apply app_nil; split; [| done]].
    + apply validate_parsing. rewrite Hp.
      exists parsing, sources, strings. auto 10.
    + by apply validate_project.
Qed.

Lemma plugin_options_accepted_witness :
  Schema.parse Schema.DocusaurusBlendinPluginOptionsSchema
    (VObj [("id", VStr "default"); ("docPath", VArr []);
           ("project", VObj [("projectId", VStr "project-1");
                             ("apiToken", VStr "secret")])])
  = Ok tt.
Proof.
  apply plugin_options_accepted. eexists. split; [reflexivity |].
  split.
  - right. exists []. split; [reflexivity | constructor].
  - exists [("projectId", VStr "project-1"); ("apiToken", VStr "secret")],
      "project-1", "secret".
    repeat split; done.
Defined.

Lemma config_accepted_witness :
  Schema.parse Schema.DocusaurusBlendinConfigSchema
    (VObj [("parsing", VObj [("sourceFilePaths", VArr [VStr "./docs"])]);
           ("project", VObj [("projectId", VStr "project-1");
                             ("apiToken", VStr "secret")])])
  ≠ Ok tt.
Proof.
  intros Hok. apply config_accepted in Hok
    as (props & parsing & sources & strings & Hprops & Hparsing & _
        & Hstrings & _).
  injection Hprops as <-. simpl in Hparsing. injection Hparsing as <-.
  discriminate Hstrings.
Defined.

(* ===================================================================== *)
(** * From the plugin's options to the request                             *)
(* ===================================================================== *)

Section PluginRunFacts.

Lemma docusaurusBlendinConfig_of_valid options locales sourceFiles :
  Schema.parse Schema.DocusaurusBlendinPluginOptionsSchema options = Ok tt ->
  exists props fields id token,
    options = VObj props
    /\ Js.lookup_prop "project" props = VObj fields
    /\ Js.lookup_prop "projectId" fields = VStr id
    /\ Js.lookup_prop "apiToken" fields = VStr token
    /\ id ≠ "" /\ token ≠ ""
    /\ PluginRun.docusaurusBlendinConfig options locales sourceFiles
       = Ok (mk_config
               (Some (mk_project (Some id) (Some token)))
               (Some locales)
               (Some (mk_parsing
                        (Some (map Utils.sourceFilePath sourceFiles))
                        (Some PluginRun.savePathPlaceholder)))).
Proof.
  intros Hok.
  apply parse_ok in Hok.
  destruct (validate_object_other _ _ _ Hok) as [props ->].
  unfold Schema.DocusaurusBlendinPluginOptionsSchema in Hok.
  rewrite !validate_object_cons, validate_object_nil in Hok.
  apply app_eq_nil in Hok as [_ Hrest].
  apply app_eq_nil in Hrest as [Hproject _].
  apply validate_project in Hproject
    as (ps & id & token & Hps & Hid & Hne & Htoken & Hne').
  exists props, ps, id, token.
  split; [done |]. split; [exact Hps |]. split; [exact Hid |].
  split; [exact Htoken |]. split; [done |]. split; [done |].
  unfold PluginRun.docusaurusBlendinConfig, PluginRun.project_field.
  cbn [Js.get_prop mbind result_bind]. rewrite Hps.
  cbn [Roots.optional_prop]. rewrite Hid, Htoken. reflexivity.
Qed.

End PluginRunFacts.

(** X19: options that pass the plugin's validation always reach the
    service.  Options [DocusaurusBlendinPluginOptionsSchema] accepts are
    an object whose [project] holds non-empty strings as [projectId] and
    [apiToken]; the configuration built by [runTranslationScript] carries
    these two, the locales and the paths of the source files; and with
    every source file readable [executeTranslation] on it sends exactly
    one request: the POST to the plan address, with that [apiToken] as
    X-API-Token, whose body is the JSON of that [projectId], the locales
    and one [{sourceFilePath, fileHash}] per source file. *)
Theorem validated_options_send_the_plan
        hash env options locales sourceFiles (w : world) :
  Schema.parse Schema.DocusaurusBlendinPluginOptionsSchema options = Ok tt ->
  Forall (Spec.readable env w) (map Utils.sourceFilePath sourceFiles) ->
  let text_or_undefined := fun o : option string =>
    match o with Some t => VStr t | None => VUndefined end in
  exists props fields id token cfg req,
    options = VObj props
    /\ Js.lookup_prop "project" props = VObj fields
    /\ Js.lookup_prop "projectId" fields = VStr id
    /\ Js.lookup_prop "apiToken" fields = VStr token
    /\ id ≠ "" /\ token ≠ ""
    /\ PluginRun.docusaurusBlendinConfig options locales sourceFiles = Ok cfg
    /\ cfg = mk_config
               (Some (mk_project (Some id) (Some token)))
               (Some locales)
               (Some (mk_parsing
                        (Some (map Utils.sourceFilePath sourceFiles))
                        (Some PluginRun.savePathPlaceholder)))
    /\ w_fetched (snd (Job.executeTranslation hash env cfg w))
       = w_fetched w ++ [req]
    /\ req_method req = Some "POST"
    /\ req_url req
       = BLENDIN_CLI_API_URL env
           +:+ "/translation-jobs/generate-plan-from-entire-files"
    /\ Terms.header_value "X-API-Token" (req_headers req) = Some token
    /\ req_body req
       = Js.JSON_stringify
           (VObj [("project_uuid", VStr id);
                  ("source_locale_iso",
                   text_or_undefined (sourceLocale locales));
                  ("target_locale_isos",
                   match targetLocales locales with
                   | Some codes => VArr (map text_or_undefined codes)
                   | None => VUndefined
                   end);
                  ("files_metadata",
                   VArr (map (fun file =>
                                let p := Utils.sourceFilePath file in
                                VObj [("sourceFilePath", VStr p);
                                      ("fileHash",
                                       VStr (hash
                                               (JsString.trim
                                                  (default ""
                                                     (Spec.file_text env w
                                                        p)))))])
                             sourceFiles))]) 0.
Proof.
  intros Hok Hread text_or_undefined.
  destruct (docusaurusBlendinConfig_of_valid options locales sourceFiles Hok)
    as (props & fields & id & token & Hprops & Hfields & Hid & Htoken
        & Hne & Hne' & Hcfg).
  exists props, fields, id, token. eexists _, _.
  split; [exact Hprops |]. split; [exact Hfields |]. split; [exact Hid |].
  split; [exact Htoken |]. split; [exact Hne |]. split; [exact Hne' |].
  split; [exact Hcfg |]. split; [reflexivity |].
  split; [| split; [| split; [| split]]].
  - apply executeTranslation_sends_plan; [exact Hread | exact Hne'].
  - reflexivity.
  - reflexivity.
  - apply (header_value_set_same "X-API-Token" token).
  - unfold ApiClient.post_request. cbn [req_body].
    unfold Wire.of_plan, Job.translationJobPlanPostData.
    f_equal. f_equal. simpl. by rewrite !map_map.
Qed.

Lemma validated_options_send_the_plan_witness :
  let options := VObj [("project", VObj [("projectId", VStr "project-1");
                                         ("apiToken", VStr "secret")])] in
  exists cfg req,
    PluginRun.docusaurusBlendinConfig options
      (Utils.getLocalesConfig Sample.flags Sample.i18n) [Sample.intro]
    = Ok cfg
    /\ w_fetched (snd (Job.executeTranslation Sample.hash Sample.env
                         cfg Sample.start)) = [req]
    /\ Terms.header_value "X-API-Token" (req_headers req) = Some "secret".
Proof.
  intros options.
  destruct (validated_options_send_the_plan Sample.hash Sample.env options
              (Utils.getLocalesConfig Sample.flags Sample.i18n)
              [Sample.intro] Sample.start)
    as (props & fields & id & token & cfg & req & Hprops & Hfields & Hid
        & Htoken & _ & _ & Hcfg & _ & Hsent & _ & _ & Hheader & _).
  - reflexivity.
  - repeat constructor. vm_compute. eauto.
  - injection Hprops as <-. vm_compute in Hfields. injection Hfields as <-.
    vm_compute in Htoken. injection Htoken as <-.
    exists cfg, req. split; [exact Hcfg |]. split; [exact Hsent |].
    exact Hheader.
Defined.

(** X20: the plan the plugin sends names no source locale.  The locales
    of [getLocalesConfig] have no [sourceLocale], so in the plan built
    from the plugin's configuration [source_locale_iso] is undefined and
    the JSON body has no such member: it is the JSON of the project id,
    the target locales (the codes of the site's locales other than the
    default locale's code, in the site's order) and the file metadata. *)
Theorem plugin_plan_has_no_source_locale
        flags (i18n : Utils.I18nConfig) options sourceFiles cfg metas :
  PluginRun.docusaurusBlendinConfig options
    (Utils.getLocalesConfig flags i18n) sourceFiles = Ok cfg ->
  let plan := Job.translationJobPlanPostData cfg metas in
  let targets :=
    filter (fun locale => locale ≠ flags (Utils.i18n_defaultLocale i18n))
           (map flags (Utils.i18n_locales i18n)) in
  source_locale_iso plan = None
  /\ target_locale_isos plan = Some targets
  /\ Js.get_prop (Wire.of_plan plan) "source_locale_iso" = Ok VUndefined
  /\ forall gap,
       Js.JSON_stringify (Wire.of_plan plan) gap
       = Js.JSON_stringify
           (VObj [("project_uuid", Wire.of_string (project_uuid plan));
                  ("target_locale_isos", VArr (map Wire.of_string targets));
                  ("files_metadata", VArr (map Wire.of_metadata metas))])
           gap.
Proof.
  intros Hcfg plan targets.
  unfold PluginRun.docusaurusBlendinConfig in Hcfg.
  destruct (PluginRun.project_field options "projectId") as [id | e];
    [| discriminate].
  destruct (PluginRun.project_field options "apiToken") as [token | e];
    [| discriminate].
  cbn [mbind result_bind] in Hcfg. injection Hcfg as <-.
  split; [reflexivity |]. split; [reflexivity |]. split; [reflexivity |].
  intros gap. reflexivity.
Qed.

Lemma plugin_plan_has_no_source_locale_witness :
  let options := VObj [("project", VObj [("projectId", VStr "project-1");
                                         ("apiToken", VStr "secret")])] in
  exists cfg,
    PluginRun.docusaurusBlendinConfig options
      (Utils.getLocalesConfig Sample.flags Sample.i18n) [Sample.intro]
    = Ok cfg
    /\ Js.JSON_stringify
         (Wire.of_plan (Job.translationJobPlanPostData cfg [])) 0
       = Some ("{" +:+ Js.quote "project_uuid" +:+ ":"
                 +:+ Js.quote "project-1" +:+ ","
                 +:+ Js.quote "target_locale_isos" +:+ ":["
                 +:+ Js.quote "fr" +:+ "," +:+ Js.quote "de" +:+ "],"
                 +:+ Js.quote "files_metadata" +:+ ":[]}").
Proof.
  intros options. eexists. split; [reflexivity |].
  destruct (plugin_plan_has_no_source_locale Sample.flags Sample.i18n
              options [Sample.intro] _ [] eq_refl) as (_ & _ & _ & Hjson).
  rewrite Hjson. vm_compute. reflexivity.
Defined.

(* ===================================================================== *)
(** * The source roots                                                     *)
(* ===================================================================== *)

Section RootsFacts.
Import Roots.
Variable env : environment.

(** A loop over entries that only appends keeps what a property says of
    the appended items. *)
Lemma for_entries_appends (P : SourceFileRootsAndPluginName -> Prop)
      (Q : PluginConfig -> Prop) f entries :
  (forall acc entry out,
     Q entry -> f acc entry = Ok out ->
     exists new, out = acc ++ new /\ Forall P new) ->
  Forall Q entries ->
  forall acc out,
    for_entries f entries acc = Ok out ->
    exists new, out = acc ++ new /\ Forall P new.
Proof.
  intros Hf. induction entries as [| entry rest IH]; intros HQ acc out; simpl.
  - intros [= <-]. exists []. by rewrite app_nil_r.
  - apply Forall_cons in HQ as [Hentry Hrest].
    destruct (f acc entry) as [next | e] eqn:Hnext; [| discriminate].
    cbn [mbind result_bind]. intros Hout.
    destruct (Hf _ _ _ Hentry Hnext) as (new1 & -> & HP1).
    destruct (IH Hrest _ _ Hout) as (new2 & -> & HP2).
    exists (new1 ++ new2). rewrite <- app_assoc. split; [done |].
    by apply Forall_app.
Qed.

Lemma for_entries_throws f entries entry :
  (forall acc, exists e, f acc entry = Throw e) ->
  entry ∈ entries ->
  forall acc, exists e, for_entries f entries acc = Throw e.
Proof.
  intros Hthrows. induction entries as [| x rest IH]; intros Hin acc.
  - by apply elem_of_nil in Hin.
  - simpl. apply elem_of_cons in Hin as [<- | Hin].
    + destruct (Hthrows acc) as [e ->]. eauto.
    + destruct (f acc x) as [next | e]; [| eauto].
      cbn [mbind result_bind]. by apply IH.
Qed.

Lemma resolve_in_cwd_normal p root :
  JsString.starts_with_slash (env_cwd env) = true ->
  resolve_in_cwd env p = Ok root ->
  exists segs,
    Forall (fun s => Path.is_plain s = true) segs
    /\ root = Path.of_segments segs.
Proof.
  intros Hcwd. destruct p; simpl; try discriminate.
  intros [= <-]. by apply resolve_normal.
Qed.

Lemma classic_section_appends classicOptions section fallback plugin acc out :
  JsString.starts_with_slash (env_cwd env) = true ->
  classic_section env classicOptions section fallback plugin acc = Ok out ->
  out = acc
  \/ exists root segs,
       out = acc ++ [mk_root plugin root]
       /\ Forall (fun s => Path.is_plain s = true) segs
       /\ root = Path.of_segments segs.
Proof.
  intros Hcwd. unfold classic_section.
  destruct (truthy _); [| intros [= <-]; by left].
  destruct (resolve_in_cwd env _) as [root | e] eqn:Hroot; [| discriminate].
  cbn [mbind result_bind]. intros [= <-]. right.
  destruct (resolve_in_cwd_normal _ _ Hcwd Hroot) as (segs & Hsegs & ->).
  eauto.
Qed.

End RootsFacts.

(** X21: with an absolute working directory, every root that
    [getSourceFileRootsAndPluginNames] returns is an absolute normalised
    path, and its plugin name is one of the three content plugins of the
    classic preset or the name of an entry of [plugins] written as a
    pair. *)
Theorem source_roots_are_absolute env config roots :
  JsString.starts_with_slash (env_cwd env) = true ->
  Roots.getSourceFileRootsAndPluginNames env config = Ok roots ->
  Forall (fun root =>
            (exists segs,
               Forall (fun s => Path.is_plain s = true) segs
               /\ Roots.sourceFileRoots root = Path.of_segments segs)
            /\ (Roots.pluginName root
                ∈ ["docusaurus-plugin-content-docs";
                   "docusaurus-plugin-content-blog";
                   "docusaurus-plugin-content-pages"]
                \/ exists options,
                     Roots.ConfigPair (Roots.pluginName root) options
                     ∈ default [] (Roots.plugins config)))
         roots.
Proof.
  intros Hcwd. unfold Roots.getSourceFileRootsAndPluginNames.
  set (P := fun root : Roots.SourceFileRootsAndPluginName => _ /\ _).
  destruct (Roots.for_entries (Roots.each_preset env) _ [])
    as [fromPresets | e] eqn:Hpresets; [| discriminate].
  cbn [mbind result_bind]. intros Hplugins.
  destruct (for_entries_appends P (fun _ => True) (Roots.each_preset env)
              (default [] (Roots.presets config)))
    with (acc := @nil Roots.SourceFileRootsAndPluginName)
         (out := fromPresets)
    as (new1 & -> & HP1); [| by apply Forall_true | exact Hpresets |].
  { intros acc entry out _. destruct entry as [| name options]; simpl.
    - intros [= <-]. exists []. by rewrite app_nil_r.
    - destruct (_ && _); [| intros [= <-]; exists []; by rewrite app_nil_r].
      destruct (Roots.classic_section env options "docs" _ _ acc)
        as [withDocs | e] eqn:Hdocs; [| discriminate].
      cbn [mbind result_bind].
      destruct (Roots.classic_section env options "blog" _ _ withDocs)
        as [withBlog | e] eqn:Hblog; [| discriminate].
      cbn [mbind result_bind]. intros Hpages.
      assert (Hone : forall section fallback plugin a o,
                 Roots.classic_section env options section fallback plugin a
                 = Ok o ->
                 plugin ∈ ["docusaurus-plugin-content-docs";
                           "docusaurus-plugin-content-blog";
                           "docusaurus-plugin-content-pages"] ->
                 exists new, o = a ++ new /\ Forall P new).
      { intros section fallback plugin a o Hsec Hplugin.
        destruct (classic_section_appends env _ _ _ _ _ _ Hcwd Hsec)
          as [-> | (root & segs & -> & Hsegs & ->)].
        - exists []. by rewrite app_nil_r.
        - eexists. split; [reflexivity |]. constructor; [| constructor].
          split; [eauto | by left]. }
      destruct (Hone _ _ _ _ _ Hdocs) as (n1 & -> & H1);
        [by left |].
      destruct (Hone _ _ _ _ _ Hblog) as (n2 & -> & H2);
        [by right; left |].
      destruct (Hone _ _ _ _ _ Hpages) as (n3 & -> & H3);
        [by right; right; left |].
      exists (n1 ++ n2 ++ n3). rewrite <- !app_assoc. split; [done |].
      by repeat apply Forall_app_2. }
  destruct (for_entries_appends P
              (fun entry => entry ∈ default [] (Roots.plugins config))
              (Roots.each_plugin env)
              (default [] (Roots.plugins config)))
    with (acc := [] ++ new1) (out := roots)
    as (new2 & -> & HP2); [| by apply Forall_forall | exact Hplugins |].
  { intros acc entry out Hentry. destruct entry as [| name options]; simpl.
    - intros [= <-]. exists []. by rewrite app_nil_r.
    - destruct (Js.get_prop options "path") as [docsPath | e];
        [| discriminate].
      cbn [mbind result_bind].
      destruct (Roots.truthy docsPath);
        [| intros [= <-]; exists []; by rewrite app_nil_r].
      destruct (Roots.resolve_in_cwd env docsPath) as [root | e] eqn:Hroot;
        [| discriminate].
      cbn [mbind result_bind]. intros [= <-].
      eexists. split; [reflexivity |]. constructor; [| constructor].
      split.
      + by apply (resolve_in_cwd_normal env docsPath).
      + right. eauto. }
  simpl. by apply Forall_app.
Qed.

Lemma source_roots_are_absolute_witness :
  let config :=
    Roots.mk_site
      (Some [Roots.ConfigPair "classic"
               (VObj [("docs", VObj [("path", VStr "../handbook/./docs")]);
                      ("blog", VBool false)])])
      (Some [Roots.ConfigOther;
             Roots.ConfigPair "api-docs" (VObj [("path", VStr "api")])])
      Sample.i18n in
  exists roots,
    Roots.getSourceFileRootsAndPluginNames Sample.env config = Ok roots
    /\ map Roots.sourceFileRoots roots = ["/handbook/docs"; "/site/api"]
    /\ Forall (fun root =>
                 exists segs, Roots.sourceFileRoots root
                              = Path.of_segments segs) roots.
Proof.
  intros config. eexists. split; [reflexivity |]. split; [reflexivity |].
  eapply Forall_impl;
    [exact (source_roots_are_absolute Sample.env config _ eq_refl eq_refl) |].
  intros root [(segs & _ & Hroot) _]. eauto.
Defined.

(** X22: an entry of [plugins] written as a pair whose options are
    missing or null makes [getSourceFileRootsAndPluginNames] throw,
    wherever the entry stands and whatever else is configured: reading
    [options.path] fails, and nothing catches it. *)
Theorem plugin_pair_without_options_throws env config name options :
  Roots.ConfigPair name options ∈ default [] (Roots.plugins config) ->
  options = VUndefined \/ options = VNull ->
  exists e, Roots.getSourceFileRootsAndPluginNames env config = Throw e.
Proof.
  intros Hin Hnone. unfold Roots.getSourceFileRootsAndPluginNames.
  destruct (Roots.for_entries (Roots.each_preset env) _ [])
    as [fromPresets | e]; [| eauto].
  cbn [mbind result_bind].
  apply (for_entries_throws (Roots.each_plugin env) _
           (Roots.ConfigPair name options)); [| exact Hin].
  intros acc. simpl. destruct Hnone as [-> | ->]; simpl; eauto.
Qed.

Lemma plugin_pair_without_options_throws_witness :
  exists e,
    Roots.getSourceFileRootsAndPluginNames Sample.env
      (Roots.mk_site None
         (Some [Roots.ConfigPair "api-docs" (VObj [("path", VStr "api")]);
                Roots.ConfigPair "search" VUndefined])
         Sample.i18n)
    = Throw e.
Proof.
  apply (plugin_pair_without_options_throws Sample.env _ "search" VUndefined).
  - simpl. set_solver.
  - by left.
Defined.

(* ===================================================================== *)
(** * File extensions                                                      *)
(* ===================================================================== *)

Section Extname.
Import JsString Dir.

Local Abbreviation no_slash :=
  (forallb (fun c => negb (Ascii.eqb c "/"))).
Local Abbreviation no_dot :=
  (forallb (fun c => negb (Ascii.eqb c "."))).

(** The characters after the last dot: nothing is recorded but the end. *)
Lemma extname_scan_tail re rest st :
  no_slash re = true -> no_dot re = true -> re ≠ [] ->
  startDot st = None -> end_ st = None ->
  extname_scan (re ++ rest) st
  = extname_scan rest
      (mk_extname None (startPart st) (Some (length (re ++ rest))) false
         (preDotState st)).
Proof.
  intros Hslash Hdot Hne Hstart Hend.
  destruct st as [sd part en ms pre]. simpl in Hstart, Hend. subst sd en.
  destruct re as [| c re]; [done |]. clear Hne.
  simpl in Hslash, Hdot.
  apply andb_true_iff in Hslash as [Hc Hslash].
  apply andb_true_iff in Hdot as [Hc' Hdot].
  apply negb_true_iff in Hc, Hc'.
  cbn [app extname_scan startDot end_ startPart matchedSlash preDotState].
  rewrite Hc, Hc'.
  replace (length (re ++ rest) + 1)%nat with (length (c :: re ++ rest))
    by (simpl; lia).
  generalize (length (c :: re ++ rest)). intros n.
  induction re as [| c2 re IH]; [done |].
  simpl in Hslash, Hdot.
  apply andb_true_iff in Hslash as [Hc2 Hslash].
  apply andb_true_iff in Hdot as [Hc2' Hdot].
  apply negb_true_iff in Hc2, Hc2'.
  cbn [app extname_scan startDot end_ startPart matchedSlash preDotState].
  rewrite Hc2, Hc2'.
  by apply IH.
Qed.

(** The characters before the last dot: only [preDotState] changes, and
    the first character of the name decides what it ends as. *)
Lemma extname_scan_stem rp c st dot e :
  no_slash (rp ++ [c]) = true ->
  startDot st = Some dot -> end_ st = Some e ->
  extname_scan (rp ++ [c]) st
  = mk_extname (Some dot) (startPart st) (Some e) (matchedSlash st)
      (if Ascii.eqb c "." then 1 else -1).
Proof.
  intros Hslash Hstart Hend.
  destruct st as [sd part en ms pre]. simpl in Hstart, Hend. subst sd en.
  cbn [startPart matchedSlash].
  revert pre. induction rp as [| c2 rp IH]; intros pre.
  - simpl in Hslash. apply andb_true_iff in Hslash as [Hc _].
    apply negb_true_iff in Hc.
    cbn [app extname_scan startDot end_ startPart matchedSlash preDotState].
    rewrite Hc.
    destruct (Ascii.eqb c "."); [| done].
    destruct (negb (pre =? 1)) eqn:Hpre; [done |].
    apply negb_false_iff, Z.eqb_eq in Hpre. by subst pre.
  - simpl in Hslash. apply andb_true_iff in Hslash as [Hc2 Hslash].
    apply negb_true_iff in Hc2.
    cbn [app extname_scan startDot end_ startPart matchedSlash preDotState].
    rewrite Hc2.
    destruct (Ascii.eqb c2 "."); [| by apply IH].
    destruct (negb (pre =? 1)); by apply IH.
Qed.

Lemma no_slash_chars s : Path.slash_free s = true -> no_slash (chars s) = true.
Proof. done. Qed.

Lemma forallb_app_true {A : Type} (f : A -> bool) (a b : list A) :
  forallb f (a ++ b) = true <-> forallb f a = true /\ forallb f b = true.
Proof. rewrite forallb_app. apply andb_true_iff. Qed.

(** The extension of a name without slashes, by the shape of the name. *)
Lemma extname_of_chars (pre e : list ascii) :
  no_slash pre = true -> no_slash e = true -> no_dot e = true ->
  extname (of_chars (pre ++ "."%char :: e))
  = if bool_decide (pre = []) || bool_decide (pre = ["."%char] /\ e = [])
    then ""
    else of_chars ("."%char :: e).
Proof.
  intros Hpre He Hdot. unfold extname. rewrite chars_of_chars.
  rewrite rev_app_distr. cbn [rev]. rewrite <- !app_assoc. cbn [app].
  set (n := length (pre ++ "."%char :: e)).
  assert (Hscan :
            extname_scan (rev e ++ "."%char :: rev pre)
              (mk_extname None 0 None true 0)
            = extname_scan (rev pre)
                (mk_extname (Some (length pre)) 0 (Some n) false 0)).
  { destruct e as [| c e].
    - cbn [rev app extname_scan]. cbn. rewrite length_rev.
      subst n. rewrite length_app. simpl. done.
    - rewrite extname_scan_tail;
        [| by rewrite forallb_reverse | by rewrite forallb_reverse
         | by intros H%(f_equal (@length _)); rewrite length_rev in H
         | done | done].
      cbn [extname_scan startPart preDotState end_ startDot matchedSlash].
      cbn. rewrite !length_app, !length_rev. cbn [length].
      subst n. rewrite length_app. cbn [length].
      rewrite length_rev.
      replace (length e + 1 + S (length pre))%nat
        with (length pre + S (S (length e)))%nat by lia.
      done. }
  rewrite Hscan. clear Hscan.
  destruct pre as [| c pre].
  - cbn. done.
  - rewrite bool_decide_eq_false_2 by done. cbn [orb].
    cbn [rev].
    rewrite (extname_scan_stem (rev pre) c _ (length (c :: pre)) n);
      [| | done | done].
    2:{ change (no_slash (rev (c :: pre)) = true). by rewrite forallb_reverse. }
    cbn [startDot end_ preDotState startPart].
    assert (Hslice : of_chars (take (n - length (c :: pre))
                                 (drop (length (c :: pre))
                                    ((c :: pre) ++ "."%char :: e)))
                     = of_chars ("."%char :: e)).
    { rewrite drop_app_length. rewrite take_ge; [done |].
      subst n. rewrite length_app. simpl. lia. }
    rewrite Hslice.
    destruct (Ascii.eqb c ".") eqn:Hc.
    + apply Ascii.eqb_eq in Hc. subst c.
      change ((1 =? 0) || (1 =? 1) && (length ("."%char :: pre) =? n - 1)%nat
              && (length ("."%char :: pre) =? 0 + 1)%nat)
        with ((length ("."%char :: pre) =? n - 1)%nat
              && (length ("."%char :: pre) =? 1)%nat).
      case_bool_decide as Hshape.
      * destruct Hshape as [[= ->] ->]. reflexivity.
      * destruct (Nat.eqb_spec (length ("."%char :: pre)) (n - 1));
          [| done].
        destruct (Nat.eqb_spec (length ("."%char :: pre)) 1); [| done].
        exfalso. apply Hshape.
        destruct pre; [| simpl in *; lia].
        destruct e; [done |]. subst n. simpl in *. lia.
    + rewrite bool_decide_eq_false_2; [reflexivity |].
      intros [[= -> ->] _]. discriminate.
Qed.

Lemma extname_no_dot_chars (l : list ascii) :
  no_slash l = true -> no_dot l = true -> extname (of_chars l) = "".
Proof.
  intros Hslash Hdot. unfold extname. rewrite chars_of_chars.
  destruct l as [| c l]; [done |].
  replace (rev (c :: l)) with (rev (c :: l) ++ []) by apply app_nil_r.
  rewrite extname_scan_tail;
    [| by rewrite forallb_reverse | by rewrite forallb_reverse
     | by intros H%(f_equal (@length _)); rewrite length_rev in H
     | done | done].
  reflexivity.
Qed.

(** Every string ends in a part without dots, after its last dot if it
    has one. *)
Lemma last_dot (l : list ascii) :
  no_dot l = true
  \/ exists pre e, l = pre ++ "."%char :: e /\ no_dot e = true.
Proof.
  induction l as [| c l IH]; [by left |].
  destruct IH as [Hfree | (pre & e & -> & He)].
  - destruct (Ascii.eqb c ".") eqn:Hc.
    + apply Ascii.eqb_eq in Hc. subst c. right. exists [], l. done.
    + left. simpl. by rewrite Hc.
  - right. exists (c :: pre), e. done.
Qed.

End Extname.

(** X23: which names the walk takes.  For a name without slashes,
    [path.extname] gives one of the five extensions of [getAllSourceFiles]
    exactly when the name is a non-empty stem followed by one of them, in
    lower case as listed: a file called just .md is left out, and so is
    one whose extension is written in capitals. *)
Theorem extension_is_listed_iff_stem_and_extension (name : string) :
  Path.slash_free name = true ->
  Dir.extname name ∈ Dir.extensions
  <-> exists stem ext,
        name = stem +:+ ext /\ stem ≠ "" /\ ext ∈ Dir.extensions.
Proof.
  intros Hslash. unfold Path.slash_free in Hslash.
  assert (Hnot : ("" : string) ∉ Dir.extensions) by decide_by_computation.
  split.
  - intros Hext. rewrite <- (of_chars_chars name) in Hext |- *.
    destruct (last_dot (JsString.chars name)) as [Hfree | (pre & e & Hl & He)].
    + rewrite extname_no_dot_chars in Hext by done. done.
    + rewrite Hl in Hext, Hslash |- *.
      apply forallb_app_true in Hslash as [Hpre Hslash].
      simpl in Hslash.
      rewrite extname_of_chars in Hext by done.
      destruct (bool_decide (pre = []) || _) eqn:Hshape; [done |].
      apply orb_false_iff in Hshape as [Hpre' _].
      apply bool_decide_eq_false in Hpre'.
      exists (JsString.of_chars pre), (JsString.of_chars ("."%char :: e)).
      split; [apply of_chars_app |]. split; [| exact Hext].
      destruct pre; [done | discriminate].
  - intros (stem & ext & -> & Hstem & Hext).
    rewrite chars_app in Hslash.
    apply forallb_app_true in Hslash as [Hpre Hslash].
    assert (Hshape : exists e, ext = JsString.of_chars ("."%char :: e)
                               /\ e ≠ []
                               /\ forallb (fun c => negb (Ascii.eqb c "."))
                                          e = true).
    { unfold Dir.extensions in Hext.
      apply elem_of_cons in Hext as [-> | Hext];
        [by exists ["m"; "d"]%char |].
      apply elem_of_cons in Hext as [-> | Hext];
        [by exists ["m"; "d"; "x"]%char |].
      apply elem_of_cons in Hext as [-> | Hext];
        [by exists ["j"; "s"; "o"; "n"]%char |].
      apply elem_of_cons in Hext as [-> | Hext];
        [by exists ["t"; "x"; "t"]%char |].
      apply elem_of_cons in Hext as [-> | Hext];
        [by exists ["h"; "t"; "m"; "l"]%char |].
      by apply elem_of_nil in Hext. }
    destruct Hshape as (e & -> & Hne & Hdot).
    rewrite chars_of_chars in Hslash. simpl in Hslash.
    rewrite <- (of_chars_chars stem), <- of_chars_app.
    rewrite extname_of_chars by done.
    rewrite bool_decide_eq_false_2.
    2:{ intros Hnil. apply Hstem. rewrite <- (of_chars_chars stem).
        by rewrite Hnil. }
    rewrite bool_decide_eq_false_2 by (by intros [_ ?]).
    exact Hext.
Qed.

Lemma extension_is_listed_iff_stem_and_extension_witness :
  Dir.extname "guide.mdx" ∈ Dir.extensions
  /\ (Dir.extname ".md" ∉ Dir.extensions)
  /\ (Dir.extname "README.MD" ∉ Dir.extensions).
Proof.
  split; [| split].
  - apply extension_is_listed_iff_stem_and_extension; [reflexivity |].
    exists "guide", ".mdx". split; [reflexivity |]. split; [done |].
    decide_by_computation.
  - decide_by_computation.
  - decide_by_computation.
Defined.

(* ===================================================================== *)
(** * The walk over the source roots                                       *)
(* ===================================================================== *)

Section StorePaths.

Local Abbreviation plain := (Forall (fun s => Path.is_plain s = true)).

Lemma filter_rev {A : Type} (P : A -> Prop) `{forall x, Decision (P x)}
      (l : list A) :
  filter P (rev l) = rev (filter P l).
Proof.
  induction l as [| x l IH]; [done |].
  cbn [rev]. rewrite filter_app, IH, !filter_cons, filter_nil.
  destruct (decide (P x)); [done | by rewrite app_nil_r].
Qed.

Lemma segments_of_path segs :
  plain segs ->
  filter (fun s => s ≠ "") (JsString.split "/" (Path.of_segments segs)) = segs.
Proof.
  intros Hall.
  destruct (split_of_segments segs [] Hall) as [_ Hfilter]; [constructor |].
  rewrite !app_nil_r in Hfilter. exact Hfilter.
Qed.

Lemma basename_of_segments segs b :
  plain (segs ++ [b]) ->
  Path.basename (Path.of_segments (segs ++ [b])) = b.
Proof.
  intros Hall. unfold Path.basename.
  rewrite filter_rev, segments_of_path by exact Hall.
  by rewrite rev_app_distr.
Qed.

Lemma depth_of_segments segs :
  plain segs -> Terms.depth (Path.of_segments segs) = length segs.
Proof. intros Hall. unfold Terms.depth. by rewrite segments_of_path. Qed.

Lemma deepest_bounds (fs : filesystem) k :
  k ∈ fs_dirs fs -> (Terms.depth k <= Terms.deepest fs)%nat.
Proof.
  intros Hk. unfold Terms.deepest.
  apply elem_of_elements in Hk. revert Hk.
  generalize (elements (fs_dirs fs)). intros l Hk.
  induction l as [| x l IH]; [by apply elem_of_nil in Hk |].
  apply elem_of_cons in Hk as [<- | Hk]; simpl; [lia |].
  specialize (IH Hk). lia.
Qed.

Lemma child_paths segs ks :
  plain segs -> plain ks ->
  (Path.of_segments ks ≠ Path.of_segments segs
   /\ Path.dirname (Path.of_segments ks) = Path.of_segments segs)
  <-> exists b, ks = segs ++ [b].
Proof.
  intros Hsegs Hks. split.
  - intros [Hne Hdir].
    destruct ks as [| k0 ks0] using rev_ind.
    + exfalso. apply Hne. rewrite <- Hdir. reflexivity.
    + clear IHks0. apply Forall_app in Hks as [Hks0 Hb].
      apply Forall_cons in Hb as [Hb _].
      rewrite dirname_child in Hdir by done.
      apply of_segments_inj in Hdir; [| done | done].
      subst. eauto.
  - intros [b ->].
    apply Forall_app in Hks as [_ Hb]. apply Forall_cons in Hb as [Hb _].
    split; [| by apply dirname_child].
    intros Heq. apply of_segments_inj in Heq;
      [| apply Forall_app; split; [done | by constructor] | done].
    apply (f_equal (@length _)) in Heq. rewrite length_app in Heq.
    simpl in Heq. lia.
Qed.

Lemma keys_of_files (fs : filesystem) k :
  k ∈ map fst (map_to_list (fs_files fs)) <-> is_Some (fs_files fs !! k).
Proof.
  rewrite list_elem_of_In, in_map_iff. split.
  - intros ([k' v] & <- & Hin). apply list_elem_of_In in Hin.
    apply elem_of_map_to_list in Hin. simpl. eauto.
  - intros [v Hv]. exists (k, v). split; [done |].
    apply list_elem_of_In. by apply elem_of_map_to_list.
Qed.

Lemma children_spec (fs : filesystem) segs e :
  Terms.tidy fs -> plain segs ->
  e ∈ Dir.children fs (Path.of_segments segs)
  <-> exists b,
        Path.is_plain b = true
        /\ ((e = Dir.mk_dirent b true
             /\ Path.of_segments (segs ++ [b]) ∈ fs_dirs fs)
            \/ (e = Dir.mk_dirent b false
                /\ is_Some (fs_files fs !! Path.of_segments (segs ++ [b])))).
Proof.
  intros [Hpaths _] Hsegs. unfold Dir.children.
  rewrite elem_of_app, !list_elem_of_In, !in_map_iff. split.
  - intros [(k & <- & Hk) | (k & <- & Hk)];
      apply list_elem_of_In, list_elem_of_filter in Hk as [Hchild Hk].
    + apply elem_of_elements in Hk.
      destruct (Hpaths k) as (ks & Hks & ->); [by left |].
      apply child_paths in Hchild as [b ->]; [| done | done].
      exists b. rewrite basename_of_segments by done.
      apply Forall_app in Hks as [_ Hb]. apply Forall_cons in Hb as [Hb _].
      split; [done |]. by left.
    + apply keys_of_files in Hk.
      destruct (Hpaths k) as (ks & Hks & ->); [by right |].
      apply child_paths in Hchild as [b ->]; [| done | done].
      exists b. rewrite basename_of_segments by done.
      apply Forall_app in Hks as [_ Hb]. apply Forall_cons in Hb as [Hb _].
      split; [done |]. by right.
  - intros (b & Hb & [[-> Hdir] | [-> Hfile]]).
    + left. exists (Path.of_segments (segs ++ [b])).
      assert (Hall : plain (segs ++ [b]))
        by (apply Forall_app; split; [done | by constructor]).
      rewrite basename_of_segments by done. split; [done |].
      apply list_elem_of_In, list_elem_of_filter. split.
      * apply child_paths; eauto.
      * by apply elem_of_elements.
    + right. exists (Path.of_segments (segs ++ [b])).
      assert (Hall : plain (segs ++ [b]))
        by (apply Forall_app; split; [done | by constructor]).
      rewrite basename_of_segments by done. split; [done |].
      apply list_elem_of_In, list_elem_of_filter. split.
      * apply child_paths; eauto.
      * by apply keys_of_files.
Qed.

(** In a tidy store the directories on the way to an entry exist. *)
Lemma ancestors_are_dirs (fs : filesystem) p q :
  Terms.tidy fs -> plain (p ++ q) -> q ≠ [] ->
  Terms.entry fs (Path.of_segments (p ++ q)) ->
  Path.of_segments p ∈ fs_dirs fs.
Proof.
  intros [_ Hparents]. induction q as [| b q IH] using rev_ind; [done |].
  intros Hall _ Hentry. rewrite app_assoc in Hall, Hentry.
  pose proof (Hparents _ _ Hall Hentry) as Hparent.
  destruct q as [| c q]; [by rewrite app_nil_r in Hparent |].
  apply IH; [| done | by left].
  by apply Forall_app in Hall as [? _].
Qed.

End StorePaths.

Section WalkFacts.
Import Dir.
Variable env : environment.
Variable w : world.

Local Abbreviation plain := (Forall (fun s => Path.is_plain s = true)).
Local Abbreviation source := Utils.SourceFilePathAndPluginName.

Lemma each_of_app {A : Type} (f : list source -> A -> walk) a b acc :
  each_of f (a ++ b) acc
  = match each_of f a acc with
    | Some (Ok next) => each_of f b next
    | stopped => stopped
    end.
Proof.
  revert acc. induction a as [| x a IH]; intros acc; [done |].
  cbn [app each_of]. destruct (f acc x) as [[next | e] |]; [| done | done].
  apply IH.
Qed.

Lemma each_of_collects {A : Type} (R : A -> source -> Prop)
      (f : list source -> A -> walk) items :
  (forall item acc, item ∈ items ->
     exists new, f acc item = Some (Ok (acc ++ new))
                 /\ forall x, x ∈ new <-> R item x) ->
  forall acc,
    exists new, each_of f items acc = Some (Ok (acc ++ new))
                /\ forall x, x ∈ new <-> exists item, item ∈ items /\ R item x.
Proof.
  induction items as [| item rest IH]; intros Hf acc.
  - exists []. rewrite app_nil_r. split; [done |].
    intros x. split; [by intros ?%elem_of_nil |].
    by intros (item & ?%elem_of_nil & _).
  - destruct (Hf item acc) as (new1 & Hnew1 & HR1); [by left |].
    destruct (IH (fun i a Hi => Hf i a (list_elem_of_further _ _ _ Hi))
                (acc ++ new1)) as (new2 & Hnew2 & HR2).
    exists (new1 ++ new2). cbn [each_of]. rewrite Hnew1, Hnew2, app_assoc.
    split; [done |]. intros x. rewrite elem_of_app, HR1, HR2. split.
    + intros [Hx | (i & Hi & Hx)]; [exists item | exists i];
        (split; [| done]); [by left | by right].
    + intros (i & Hi & Hx). apply elem_of_cons in Hi as [-> | Hi];
        [by left | right; eauto].
Qed.

Lemma readdirSync_directory segs :
  plain segs ->
  Path.of_segments segs ∈ fs_dirs (w_fs w) ->
  fst (readdirSync env (Path.of_segments segs) w)
  = Ok (children (w_fs w) (Path.of_segments segs)).
Proof.
  intros Hsegs Hdir. unfold readdirSync, Fs.abs. cbv zeta.
  rewrite resolve_of_segments by exact Hsegs.
  by rewrite bool_decide_eq_true_2.
Qed.

(** One folder, given what the nested calls yield for its
    sub-directories. *)
Lemma each_folder_collects
      (rec : list Roots.SourceFileRootsAndPluginName -> walk)
      plugin rsegs acc :
  Terms.tidy (w_fs w) -> plain rsegs ->
  Path.of_segments rsegs ∈ fs_dirs (w_fs w) ->
  (forall b,
     Path.is_plain b = true ->
     Path.of_segments (rsegs ++ [b]) ∈ fs_dirs (w_fs w) ->
     exists found,
       rec [Roots.mk_root plugin (Path.of_segments (rsegs ++ [b]))]
       = Some (Ok found)
       /\ forall src, src ∈ found
                      <-> Terms.below (w_fs w) (rsegs ++ [b]) plugin src) ->
  exists new,
    each_folder env w rec acc (Roots.mk_root plugin (Path.of_segments rsegs))
    = Some (Ok (acc ++ new))
    /\ forall src, src ∈ new <-> Terms.below (w_fs w) rsegs plugin src.
Proof.
  intros Htidy Hrsegs Hdir Hrec.
  unfold each_folder. cbn [Roots.sourceFileRoots].
  rewrite readdirSync_directory by done.
  destruct (each_of_collects
              (fun e src =>
                 (isDirectory e = true
                  /\ Terms.below (w_fs w) (rsegs ++ [name e]) plugin src)
                 \/ (isDirectory e = false
                     /\ extname (name e) ∈ extensions
                     /\ src = Utils.mk_source plugin
                                (Path.of_segments (rsegs ++ [name e]))))
              (each_file rec
                 (Roots.mk_root plugin (Path.of_segments rsegs)))
              (children (w_fs w) (Path.of_segments rsegs)))
    with (acc := acc) as (new & Hnew & Hnewspec).
  { intros e acc' He.
    apply children_spec in He; [| done | done].
    destruct He as (b & Hb & [[-> Hsub] | [-> Hfile]]).
    - unfold each_file.
      cbn [isDirectory name Roots.sourceFileRoots Roots.pluginName].
      rewrite join_child_absolute by done.
      destruct (Hrec b Hb Hsub) as (found & -> & Hfound).
      exists found. split; [done |]. intros x. rewrite Hfound.
      split; [by left |]. intros [[_ ?] | [? _]]; done.
    - unfold each_file.
      cbn [isDirectory name Roots.sourceFileRoots Roots.pluginName].
      rewrite join_child_absolute by done.
      case_bool_decide as Hext.
      + eexists. split; [reflexivity |]. intros x.
        rewrite list_elem_of_singleton. split; [intros ->; by right |].
        intros [[? _] | (_ & _ & ->)]; done.
      + exists []. rewrite app_nil_r. split; [done |]. intros x.
        split; [by intros ?%elem_of_nil |].
        intros [[? _] | (_ & ? & _)]; done. }
  exists new. split; [exact Hnew |]. intros src. rewrite Hnewspec. split.
  - intros (e & He & Hcase).
    apply children_spec in He; [| done | done].
    destruct He as (b & Hb & [[-> Hsub] | [-> Hfile]]).
    + destruct Hcase as [[_ Hbelow] | [? _]]; [| done].
      cbn [name] in Hbelow.
      destruct Hbelow as (Hplugin & mid & file & Hall & Hpath & Hfile & Hext).
      split; [exact Hplugin |]. exists (b :: mid), file.
      rewrite <- app_assoc in Hpath, Hfile. cbn [app] in Hpath, Hfile.
      split; [by constructor |]. done.
    + destruct Hcase as [[? _] | (_ & Hext & ->)]; [done |].
      cbn [name] in Hext |- *.
      split; [done |]. exists [], b. cbn [app].
      split; [by constructor |]. done.
  - intros (Hplugin & mid & file & Hall & Hpath & Hfile & Hext).
    destruct mid as [| b mid].
    + exists (mk_dirent file false). cbn [app] in *.
      apply Forall_cons in Hall as [Hfilename _]. split.
      * apply children_spec; [done | done |]. exists file. split; [done |].
        by right.
      * right. split; [done |]. split; [done |].
        destruct src as [p s]. simpl in *. congruence.
    + exists (mk_dirent b true).
      cbn [app] in Hall. apply Forall_cons in Hall as [Hb Hall]. split.
      * apply children_spec; [done | done |]. exists b. split; [done |].
        left. split; [done |].
        apply (ancestors_are_dirs (w_fs w) (rsegs ++ [b]) (mid ++ [file]));
          [done | | by destruct mid | ].
        -- apply Forall_app. split; [| done].
           apply Forall_app. split; [done | by constructor].
        -- right. rewrite <- app_assoc. exact Hfile.
      * left. split; [done |]. split; [done |].
        exists mid, file. rewrite <- app_assoc. cbn [app]. done.
Qed.

Lemma walk_collects n :
  Terms.tidy (w_fs w) ->
  forall folders,
    (forall folder, folder ∈ folders ->
       exists rsegs,
         plain rsegs
         /\ Roots.sourceFileRoots folder = Path.of_segments rsegs
         /\ Path.of_segments rsegs ∈ fs_dirs (w_fs w)
         /\ (Terms.deepest (w_fs w) <= n + length rsegs)%nat) ->
    exists files,
      getAllSourceFiles_within env w (S n) folders = Some (Ok files)
      /\ forall src,
           src ∈ files
           <-> exists folder rsegs,
                 folder ∈ folders
                 /\ plain rsegs
                 /\ Roots.sourceFileRoots folder = Path.of_segments rsegs
                 /\ Terms.below (w_fs w) rsegs (Roots.pluginName folder) src.
Proof.
  intros Htidy. induction n as [| n IH]; intros folders Hfolders.
  all: cbn [getAllSourceFiles_within].
  all: match goal with |- context [each_of (each_folder env w ?recur)] =>
         set (rec := recur) end.
  all: destruct (each_of_collects
                   (fun folder src =>
                      exists rsegs,
                        plain rsegs
                        /\ Roots.sourceFileRoots folder
                           = Path.of_segments rsegs
                        /\ Terms.below (w_fs w) rsegs
                             (Roots.pluginName folder) src)
                   (each_folder env w rec) folders) with (acc := @nil source)
         as (files & Hfiles & Hspec);
    [| exists files; split; [exact Hfiles |];
       intros src; rewrite Hspec; split;
       [intros (folder & Hin & rsegs & H1 & H2 & H3); eauto 10
       | intros (folder & rsegs & Hin & H1 & H2 & H3); eauto 10]].
  all: intros folder acc Hfolder.
  all: destruct (Hfolders folder Hfolder)
         as (rsegs & Hrsegs & Hroot & Hdir & Hdeep).
  all: destruct folder as [plugin root]; cbn in Hroot; subst root.
  all: destruct (each_folder_collects rec plugin rsegs acc)
         as (new & Hnew & Hnewspec); [done | done | done | |].
  - (* no allowance left: a sub-directory cannot be there *)
    intros b Hb Hsub. exfalso.
    pose proof (deepest_bounds _ _ Hsub) as Hle.
    rewrite depth_of_segments in Hle
      by (apply Forall_app; split; [done | by constructor]).
    rewrite length_app in Hle. simpl in Hle, Hdeep. lia.
  - exists new. split; [exact Hnew |]. intros src. rewrite Hnewspec.
    cbn [Roots.pluginName Roots.sourceFileRoots]. split; [by eauto |].
    intros (rs & Hrs & Hpath & Hbelow).
    apply of_segments_inj in Hpath; [| done | done]. by subst rs.
  - intros b Hb Hsub.
    assert (Hall : plain (rsegs ++ [b]))
      by (apply Forall_app; split; [done | by constructor]).
    destruct (IH [Roots.mk_root plugin (Path.of_segments (rsegs ++ [b]))])
      as (found & Hfound & Hfoundspec).
    { intros f Hf. apply list_elem_of_singleton in Hf. subst f.
      exists (rsegs ++ [b]). repeat split; try done.
      rewrite length_app. simpl in *. lia. }
    exists found. split; [exact Hfound |]. intros x. rewrite Hfoundspec. split.
    + intros (f & rs & Hf & Hrs & Hpath & Hbelow).
      apply list_elem_of_singleton in Hf. subst f. simpl in Hpath, Hbelow.
      apply of_segments_inj in Hpath; [| done | done]. by subst rs.
    + intros Hbelow.
      eexists _, (rsegs ++ [b]). split; [by apply list_elem_of_singleton |].
      split; [done |]. split; [done |]. exact Hbelow.
  - exists new. split; [exact Hnew |]. intros src. rewrite Hnewspec.
    cbn [Roots.pluginName Roots.sourceFileRoots]. split; [by eauto |].
    intros (rs & Hrs & Hpath & Hbelow).
    apply of_segments_inj in Hpath; [| done | done]. by subst rs.
Qed.

End WalkFacts.

Section TidyStores.

Lemma tidy_checked (fs : filesystem) paths :
  Terms.tidy_check fs paths = true -> Terms.tidy fs.
Proof.
  unfold Terms.tidy_check. intros Hcheck.
  apply andb_true_iff in Hcheck as [Hcheck Hparents].
  apply andb_true_iff in Hcheck as [Hplain Hlisted].
  rewrite forallb_forall in Hplain, Hlisted, Hparents.
  assert (Hpaths : forall k, Terms.entry fs k ->
            exists segs, segs ∈ paths
                         /\ Forall (fun s => Path.is_plain s = true) segs
                         /\ k = Path.of_segments segs).
  { intros k Hk.
    assert (Hin : In k (elements (fs_dirs fs)
                          ++ map fst (map_to_list (fs_files fs)))).
    { apply in_or_app. destruct Hk as [Hk | Hk].
      - left. by apply list_elem_of_In, elem_of_elements.
      - right. by apply list_elem_of_In, keys_of_files. }
    apply Hlisted, bool_decide_eq_true_1 in Hin.
    apply list_elem_of_In, in_map_iff in Hin as (segs & <- & Hsegs).
    exists segs. split; [by apply list_elem_of_In |]. split; [| done].
    apply Forall_forall. intros s Hs.
    specialize (Hplain _ Hsegs). rewrite forallb_forall in Hplain.
    by apply Hplain, list_elem_of_In. }
  split.
  - intros k Hk. destruct (Hpaths k Hk) as (segs & _ & ? & ?). eauto.
  - intros segs b Hall Hentry.
    destruct (Hpaths _ Hentry) as (segs' & Hin & Hplain' & Heq).
    apply of_segments_inj in Heq; [| done | done]. subst segs'.
    apply list_elem_of_In, Hparents in Hin.
    rewrite rev_app_distr in Hin. cbn [rev app] in Hin.
    rewrite rev_involutive in Hin.
    rewrite (bool_decide_eq_true_2 _ Hentry) in Hin. cbn in Hin.
    by apply bool_decide_eq_true_1 in Hin.
Qed.

Lemma sample_store_tidy : Terms.tidy Sample.nested_disk.
Proof.
  apply (tidy_checked _
           [[]; ["site"]; ["site"; "docs"]; ["site"; "docs"; "api"];
            ["site"; "docs"; "intro.md"]; ["site"; "docs"; "guide.md"];
            ["site"; "docs"; "api"; "intro.md"]]).
  vm_compute. reflexivity.
Qed.

End TidyStores.

(** X24: what [getAllSourceFiles] returns.  In a store whose paths are
    absolute and normalised and whose entries all lie in a directory, for
    roots that are directories of it, a walk allowed more nested calls
    than the store is deep ends normally, and
    the files it returns are exactly the files of the store that lie
    anywhere below one of the roots and whose name has one of the five
    extensions, each under the plugin name of that root. *)
Theorem getAllSourceFiles_collects env (w : world) folders depth :
  Terms.tidy (w_fs w) ->
  Forall (Terms.walkable (w_fs w)) folders ->
  (Terms.deepest (w_fs w) < depth)%nat ->
  exists files,
    Dir.getAllSourceFiles_within env w depth folders = Some (Ok files)
    /\ forall src,
         src ∈ files
         <-> exists folder rsegs,
               folder ∈ folders
               /\ Forall (fun s => Path.is_plain s = true) rsegs
               /\ Roots.sourceFileRoots folder = Path.of_segments rsegs
               /\ Terms.below (w_fs w) rsegs (Roots.pluginName folder) src.
Proof.
  intros Htidy Hfolders Hdepth.
  destruct depth as [| n]; [lia |].
  apply walk_collects; [exact Htidy |].
  intros folder Hfolder. rewrite Forall_forall in Hfolders.
  destruct (Hfolders folder Hfolder) as (rsegs & Hrsegs & Hroot & Hdir).
  exists rsegs. repeat split; try done. lia.
Qed.

Lemma getAllSourceFiles_collects_witness :
  exists files,
    Dir.getAllSourceFiles_within Sample.env Sample.nested_start 4
      [Roots.mk_root "docusaurus-plugin-content-docs" "/site/docs"]
    = Some (Ok files)
    /\ Utils.mk_source "docusaurus-plugin-content-docs"
         "/site/docs/api/intro.md" ∈ files.
Proof.
  destruct (getAllSourceFiles_collects Sample.env Sample.nested_start
              [Roots.mk_root "docusaurus-plugin-content-docs" "/site/docs"]
              4) as (files & Hfiles & Hspec).
  - exact sample_store_tidy.
  - constructor; [| constructor]. exists ["site"; "docs"].
    split; [by repeat constructor |]. split; [reflexivity |].
    decide_by_computation.
  - vm_compute. lia.
  - exists files. split; [exact Hfiles |]. apply Hspec.
    eexists _, ["site"; "docs"]. split; [by left |].
    split; [by repeat constructor |]. split; [reflexivity |].
    split; [reflexivity |]. exists ["api"], "intro.md".
    split; [by repeat constructor |]. split; [reflexivity |].
    split; [by vm_compute; eauto | decide_by_computation].
Defined.

Lemma walk_ends env (w : world) folders depth :
  Terms.tidy (w_fs w) ->
  Forall (Terms.walkable (w_fs w)) folders ->
  (Terms.deepest (w_fs w) < depth)%nat ->
  exists files,
    Dir.getAllSourceFiles_within env w depth folders = Some (Ok files).
Proof.
  intros Htidy Hfolders Hdepth.
  destruct depth as [| n]; [lia |].
  destruct (walk_collects env w n Htidy folders) as (files & Hfiles & _);
    [| eauto].
  intros folder Hfolder. rewrite Forall_forall in Hfolders.
  destruct (Hfolders folder Hfolder) as (rsegs & Hrsegs & Hroot & Hdir).
  exists rsegs. repeat split; try done. lia.
Qed.

(** X25: a root that is not a directory of the store makes
    [getAllSourceFiles] throw.  When the roots before it can be walked,
    the walk ends with the error of [readdirSync] for that root, ENOTDIR
    when the root is a regular file or has one on the way to it and
    ENOENT when nothing is stored there, and the files found so far are
    lost. *)
Theorem getAllSourceFiles_missing_root
        env (w : world) before folder after depth :
  let root := Fs.abs env (Roots.sourceFileRoots folder) in
  let code := if bool_decide (is_Some (fs_files (w_fs w) !! root))
                 || Fs.below_file (w_fs w) root
              then "ENOTDIR" else "ENOENT" in
  Terms.tidy (w_fs w) ->
  Forall (Terms.walkable (w_fs w)) before ->
  (Terms.deepest (w_fs w) < depth)%nat ->
  root ∉ fs_dirs (w_fs w) ->
  Dir.getAllSourceFiles_within env w depth (before ++ folder :: after)
  = Some (Throw (Fs.ErrnoError code (Roots.sourceFileRoots folder))).
Proof.
  intros root code Htidy Hbefore Hdepth Hmissing.
  destruct (walk_ends env w before depth Htidy Hbefore Hdepth)
    as (files & Hfiles).
  destruct depth as [| n]; [lia |].
  cbn [Dir.getAllSourceFiles_within] in Hfiles |- *.
  rewrite each_of_app, Hfiles. cbn [Dir.each_of].
  unfold Dir.each_folder at 1. unfold Dir.readdirSync. cbv zeta.
  fold root. rewrite bool_decide_eq_false_2 by exact Hmissing.
  subst code. unfold Fs.missing_code.
  destruct (bool_decide (is_Some _)); [done |].
  by destruct (Fs.below_file _ _).
Qed.

Lemma getAllSourceFiles_missing_root_witness :
  Dir.getAllSourceFiles_within Sample.env Sample.nested_start 4
    [Roots.mk_root "docusaurus-plugin-content-docs" "/site/docs";
     Roots.mk_root "docusaurus-plugin-content-blog" "/site/blog"]
  = Some (Throw (Fs.ErrnoError "ENOENT" "/site/blog"))
  /\ Dir.getAllSourceFiles_within Sample.env Sample.nested_start 4
       [Roots.mk_root "docusaurus-plugin-content-docs"
          "/site/docs/intro.md/more"]
     = Some (Throw (Fs.ErrnoError "ENOTDIR" "/site/docs/intro.md/more")).
Proof.
  split.
  - apply (getAllSourceFiles_missing_root Sample.env Sample.nested_start
             [Roots.mk_root "docusaurus-plugin-content-docs" "/site/docs"]
             (Roots.mk_root "docusaurus-plugin-content-blog" "/site/blog")
             [] 4).
    + exact sample_store_tidy.
    + constructor; [| constructor]. exists ["site"; "docs"].
      split; [by repeat constructor |]. split; [reflexivity |].
      decide_by_computation.
    + vm_compute. lia.
    + decide_by_computation.
  - apply (getAllSourceFiles_missing_root Sample.env Sample.nested_start
             []
             (Roots.mk_root "docusaurus-plugin-content-docs"
                "/site/docs/intro.md/more")
             [] 4).
    + exact sample_store_tidy.
    + constructor.
    + vm_compute. lia.
    + decide_by_computation.
Defined.

(* ===================================================================== *)
(** * The locales of a site and the copies                                 *)
(* ===================================================================== *)

Section SiteLocales.
Variable flags : string -> LocaleValue.
Variable env : environment.

Lemma for_each_ext {A : Type} (f g : A -> M unit) (items : list A) :
  (forall x, x ∈ items -> f x = g x) ->
  for_each f items = for_each g items.
Proof.
  induction items as [| x rest IH]; intros Hfg; [done |].
  cbn [for_each]. rewrite (Hfg x) by (by left).
  rewrite IH; [done |]. intros y Hy. apply Hfg. by right.
Qed.

End SiteLocales.

(** X26: in the plugin's flow the default-locale test of
    [copySourceFilesToLocales] never fires.  Called, as
    [runTranslationScript] does, with the target locales and the default
    locale of [getLocalesConfig], it copies every source file for every
    target locale: the targets already exclude the default locale's
    code. *)
Theorem site_targets_are_all_copied
        flags env (i18n : Utils.I18nConfig) sourceFiles :
  let locales := Utils.getLocalesConfig flags i18n in
  let targets := default [] (targetLocales locales) in
  defaultLocale locales = Some (Utils.i18n_defaultLocale i18n)
  /\ Utils.copySourceFilesToLocales flags env sourceFiles targets
       (Utils.i18n_defaultLocale i18n)
     = for_each (fun locale => for_each (Utils.copy_one env locale)
                                        sourceFiles)
                targets.
Proof.
  intros locales targets. split; [reflexivity |].
  unfold Utils.copySourceFilesToLocales. apply for_each_ext.
  intros locale Hlocale. subst targets locales. cbn in Hlocale.
  apply list_elem_of_filter in Hlocale as [Hne _].
  by case_bool_decide.
Qed.

(** X27: a locale of the site that [DEFAULT_FLAGS] does not know becomes
    the target [undefined].  When the default locale is known and some
    other locale of the site is not, the targets of [getLocalesConfig]
    contain [undefined] and the copies for it go to the directory
    i18n/undefined/<plugin>/current. *)
Theorem unknown_locale_becomes_undefined
        flags (i18n : Utils.I18nConfig) code
        (file : Utils.SourceFilePathAndPluginName) :
  code ∈ Utils.i18n_locales i18n ->
  flags code = None ->
  flags (Utils.i18n_defaultLocale i18n) ≠ None ->
  Path.is_plain (Utils.pluginName file) = true ->
  exists targets,
    targetLocales (Utils.getLocalesConfig flags i18n) = Some targets
    /\ None ∈ targets
    /\ Utils.destinationDir None file
       = "i18n/undefined/" +:+ Utils.pluginName file +:+ "/current".
Proof.
  intros Hcode Hnone Hdefault Hplugin. eexists. split; [reflexivity |].
  split.
  - apply list_elem_of_filter. split; [congruence |].
    apply list_elem_of_In, in_map_iff. exists code.
    split; [done | by apply list_elem_of_In].
  - unfold Utils.destinationDir.
    rewrite join_plain; [| done |].
    + reflexivity.
    + repeat constructor. exact Hplugin.
Qed.

Lemma unknown_locale_becomes_undefined_witness :
  exists targets,
    targetLocales (Utils.getLocalesConfig Sample.flags
                     (Utils.mk_i18n "en" ["en"; "xx"; "fr"]))
    = Some targets
    /\ None ∈ targets
    /\ Utils.destinationDir None Sample.intro
       = "i18n/undefined/docusaurus-plugin-content-docs/current".
Proof.
  destruct (unknown_locale_becomes_undefined Sample.flags
              (Utils.mk_i18n "en" ["en"; "xx"; "fr"]) "xx" Sample.intro)
    as (targets & Htargets & Hin & Hdir).
  - decide_by_computation.
  - reflexivity.
  - discriminate.
  - reflexivity.
  - exists targets. split; [exact Htargets |]. split; [exact Hin |].
    exact Hdir.
Defined.

Section ClassicPreset.
Import Roots.

Lemma resolve_in_cwd_relative csegs rsegs env :
  env_cwd env = Path.of_segments csegs ->
  Forall (fun s => Path.is_plain s = true) csegs ->
  rsegs ≠ [] -> Forall (fun s => Path.is_plain s = true) rsegs ->
  resolve_in_cwd env (VStr (JsString.join "/" rsegs))
  = Ok (Path.of_segments (csegs ++ rsegs)).
Proof.
  intros Hcwd Hcsegs Hne Hrsegs. unfold resolve_in_cwd. f_equal.
  rewrite <- (resolve_relative csegs rsegs) by done.
  rewrite Hcwd. unfold Path.resolve. cbn [rev app].
  destruct (joined_relative rsegs Hne Hrsegs) as [Hempty Hslash].
  cbn [Path.resolve_scan]. rewrite Hempty, Hslash.
  reflexivity.
Qed.

End ClassicPreset.

(** X28: the roots of the classic preset without path options.  For a
    site whose only preset is the classic one, each of the sections docs,
    blog and pages whose options are truthy and give no path contributes
    the folder docs, blog or src/pages of the working directory, in this
    order and under the name of its content plugin; a section whose
    options are missing or false contributes nothing. *)
Theorem classic_preset_default_roots env csegs props site_i18n :
  env_cwd env = Path.of_segments csegs ->
  Forall (fun s => Path.is_plain s = true) csegs ->
  (forall section,
     section ∈ ["docs"; "blog"; "pages"] ->
     Roots.optional_prop (Js.lookup_prop section props) "path" = VUndefined) ->
  let on section := Roots.truthy (Js.lookup_prop section props) in
  Roots.getSourceFileRootsAndPluginNames env
    (Roots.mk_site (Some [Roots.ConfigPair "classic" (VObj props)]) None
       site_i18n)
  = Ok ((if on "docs"
         then [Roots.mk_root "docusaurus-plugin-content-docs"
                 (Path.of_segments (csegs ++ ["docs"]))]
         else [])
        ++ (if on "blog"
            then [Roots.mk_root "docusaurus-plugin-content-blog"
                    (Path.of_segments (csegs ++ ["blog"]))]
            else [])
        ++ (if on "pages"
            then [Roots.mk_root "docusaurus-plugin-content-pages"
                    (Path.of_segments (csegs ++ ["src"; "pages"]))]
            else [])).
Proof.
  intros Hcwd Hcsegs Hpaths on.
  assert (Hsection : forall section rsegs plugin acc,
            section ∈ ["docs"; "blog"; "pages"] ->
            rsegs ≠ [] -> Forall (fun s => Path.is_plain s = true) rsegs ->
            Roots.classic_section env (VObj props) section
              (JsString.join "/" rsegs) plugin acc
            = Ok (acc ++ (if on section
                          then [Roots.mk_root plugin
                                  (Path.of_segments (csegs ++ rsegs))]
                          else []))).
  { intros section rsegs plugin acc Hin Hne Hrsegs.
    unfold Roots.classic_section. cbn [Roots.optional_prop].
    fold (on section). destruct (on section); [| by rewrite app_nil_r].
    rewrite (Hpaths section Hin). cbn [Roots.or_else].
    by rewrite (resolve_in_cwd_relative csegs rsegs). }
  assert (Hdocs := fun plugin acc =>
            Hsection "docs" ["docs"] plugin acc
              ltac:(by left) ltac:(done) ltac:(by repeat constructor)).
  assert (Hblog := fun plugin acc =>
            Hsection "blog" ["blog"] plugin acc
              ltac:(by right; left) ltac:(done) ltac:(by repeat constructor)).
  assert (Hpages := fun plugin acc =>
            Hsection "pages" ["src"; "pages"] plugin acc
              ltac:(by right; right; left) ltac:(done)
              ltac:(by repeat constructor)).
  change (JsString.join "/" ["docs"]) with "docs" in Hdocs.
  change (JsString.join "/" ["blog"]) with "blog" in Hblog.
  change (JsString.join "/" ["src"; "pages"]) with "src/pages" in Hpages.
  unfold Roots.getSourceFileRootsAndPluginNames.
  cbn [Roots.presets Roots.plugins default from_option id Roots.for_entries
       Roots.each_preset Roots.truthy].
  rewrite bool_decide_eq_true_2 by done. cbn [andb].
  rewrite Hdocs. cbn [mbind result_bind].
  rewrite Hblog. cbn [mbind result_bind].
  rewrite Hpages. cbn [mbind result_bind app]. by rewrite <- app_assoc.
Qed.

Lemma classic_preset_default_roots_witness :
  Roots.getSourceFileRootsAndPluginNames Sample.env
    (Roots.mk_site
       (Some [Roots.ConfigPair "classic"
                (VObj [("docs", VObj [("sidebarPath", VStr "./sidebars.js")]);
                       ("blog", VBool false);
                       ("theme", VObj [])])])
       None Sample.i18n)
  = Ok [Roots.mk_root "docusaurus-plugin-content-docs" "/site/docs"].
Proof.
  apply (classic_preset_default_roots Sample.env ["site"]).
  - reflexivity.
  - by repeat constructor.
  - intros section Hin.
    apply elem_of_cons in Hin as [-> | Hin]; [reflexivity |].
    apply elem_of_cons in Hin as [-> | Hin]; [reflexivity |].
    apply list_elem_of_singleton in Hin. by subst section.
Defined.
